(** * hono-cron: a shallow embedding of the scheduler, the story selection,
      the reply parser and the OAuth 1.0a signer, with their properties.

    The TypeScript sources are embedded function by function.  JavaScript
    strings are sequences of UTF-16 code units, numbers that the program
    uses as integers (timestamps, intervals, item identifiers) are [Z],
    promises are run to completion in program order (the runtime is
    single-threaded), [try]/[catch] is an explicit result type, and the
    console and the outgoing HTTP calls are recorded as a trace. *)

From Stdlib Require Import String Ascii.
From Stdlib Require Import List ZArith NArith Bool Lia.
From Stdlib Require Import Sorting.Sorted Sorting.Permutation.
Import ListNotations.

Set Implicit Arguments.
Set Warnings "-register-all".

Local Open Scope Z_scope.

(* ================================================================== *)
(** * JavaScript strings *)
(* ================================================================== *)

Module JS.

(** A string is its list of UTF-16 code units. *)
Definition jsstring := list N.

(** An ASCII literal of the source text. *)
Definition lit (s : String.string) : jsstring :=
  List.map N_of_ascii (list_ascii_of_string s).

(** The double quote, and a literal in which it is written as a single
    quote. *)
Definition dquote : jsstring := [34%N].

Definition litq (s : String.string) : jsstring :=
  List.map (fun c => if N.eqb c 39 then 34%N else c) (lit s).

Fixpoint str_eqb (a b : jsstring) : bool :=
  match a, b with
  | [], [] => true
  | x :: a', y :: b' => N.eqb x y && str_eqb a' b'
  | _, _ => false
  end.

Lemma str_eqb_eq a b : str_eqb a b = true <-> a = b.
Proof.
  revert b; induction a as [|x a IH]; intros [|y b]; simpl; split;
    try congruence; try reflexivity.
  - rewrite andb_true_iff, N.eqb_eq, IH. intros [-> ->]; reflexivity.
  - intros H; injection H as -> ->. rewrite N.eqb_refl.
    apply IH; reflexivity.
Qed.

Lemma str_eqb_refl a : str_eqb a a = true.
Proof. apply str_eqb_eq; reflexivity. Qed.

(** The order of [<] on strings and of the default [Array.prototype.sort]
    comparator: lexicographic on code units, a proper prefix first. *)
Fixpoint str_leb (a b : jsstring) : bool :=
  match a, b with
  | [], _ => true
  | _ :: _, [] => false
  | x :: a', y :: b' =>
      if N.ltb x y then true
      else if N.eqb x y then str_leb a' b'
      else false
  end.

(** [Array.prototype.join]. *)
Fixpoint join (sep : jsstring) (l : list jsstring) : jsstring :=
  match l with
  | [] => []
  | [x] => x
  | x :: rest => x ++ sep ++ join sep rest
  end.

(** Is [p] a prefix of [s]?  On success the rest of [s] is returned. *)
Fixpoint strip_prefix (p s : jsstring) : option jsstring :=
  match p, s with
  | [], _ => Some s
  | _ :: _, [] => None
  | x :: p', y :: s' => if N.eqb x y then strip_prefix p' s' else None
  end.

(** Decimal digits of a natural number, most significant first.  This is
    [Number.prototype.toString] on the non-negative integers below 10^21. *)
Fixpoint digits_fuel (fuel : nat) (n : N) (acc : jsstring) : jsstring :=
  match fuel with
  | O => acc
  | S fuel' =>
      let acc' := (48 + n mod 10)%N :: acc in
      if (n / 10 =? 0)%N then acc' else digits_fuel fuel' (n / 10)%N acc'
  end.

Definition N_toString (n : N) : jsstring :=
  digits_fuel (S (N.to_nat (N.log2 n))) n [].

Definition Z_toString (z : Z) : jsstring :=
  if z <? 0 then 45%N :: N_toString (Z.to_N (- z)) else N_toString (Z.to_N z).

(** [WhiteSpace] and [LineTerminator] code units, as [String.prototype.trim]
    removes them. *)
Definition is_trim_space (c : N) : bool :=
  ((9 <=? c) && (c <=? 13) || (c =? 32) || (c =? 160) || (c =? 5760) ||
   (8192 <=? c) && (c <=? 8202) || (c =? 8232) || (c =? 8233) ||
   (c =? 8239) || (c =? 8287) || (c =? 12288) || (c =? 65279))%N.

Fixpoint trimStart (s : jsstring) : jsstring :=
  match s with
  | c :: r => if is_trim_space c then trimStart r else s
  | [] => []
  end.

Definition trim (s : jsstring) : jsstring :=
  rev (trimStart (rev (trimStart s))).

Definition starts_with (p s : jsstring) : bool :=
  match strip_prefix p s with Some _ => true | None => false end.

(** [s.replace(/p1|p2/g, "")] for two literal alternatives: at each position
    the first alternative that matches is removed and the scan resumes
    after it.  [skip] counts the code units of a match still to drop. *)
Fixpoint remove_all_from (p1 p2 : jsstring) (skip : nat) (s : jsstring)
  : jsstring :=
  match s with
  | [] => []
  | c :: r =>
      match skip with
      | S k => remove_all_from p1 p2 k r
      | O =>
          if starts_with p1 s then
            match length p1 with
            | S k => remove_all_from p1 p2 k r
            | O => c :: remove_all_from p1 p2 O r
            end
          else if starts_with p2 s then
            match length p2 with
            | S k => remove_all_from p1 p2 k r
            | O => c :: remove_all_from p1 p2 O r
            end
          else c :: remove_all_from p1 p2 O r
      end
  end.

Definition remove_all (p1 p2 s : jsstring) : jsstring :=
  remove_all_from p1 p2 O s.

(** Replace every occurrence of the single code unit [c] by [by_]. *)
Definition replace_unit (c : N) (by_ : jsstring) (s : jsstring) : jsstring :=
  flat_map (fun x => if N.eqb x c then by_ else [x]) s.

(** Completion of a statement list under [try]/[catch]. *)
Inductive completion (A : Type) : Type :=
| Normal (a : A)
| Throw (e : jsstring).
Arguments Throw {A} e.

Definition bindC {A B} (c : completion A) (k : A -> completion B)
  : completion B :=
  match c with
  | Normal a => k a
  | Throw e => Throw e
  end.

End JS.

Import JS.

Notation "'try!' x <- c ; k" := (bindC c (fun x => k))
  (at level 10, x name, c at level 100, k at level 200).

(* ================================================================== *)
(** * src/cron/manager.ts *)
(* ================================================================== *)

Module Manager.

Section WithWorld.

(** Whatever the handlers act on (network, module state of the jobs). *)
Variable World : Type.

(** How an awaited handler settles. *)
Inductive Settled := Fulfilled | Rejected.

Record CronJob := mkCronJob {
  name : jsstring;
  interval : Z;  (* in milliseconds *)
  lastRun : Z;
  handler : World -> World * Settled
}.

Inductive Console :=
| LogRegistered (n : jsstring) (i : Z)
| LogExecuting (n : jsstring)
| LogCompleted (n : jsstring)
| ErrorInJob (n : jsstring).

Definition set_lastRun (job : CronJob) (t : Z) : CronJob :=
  mkCronJob (name job) (interval job) t (handler job).

(** [registerCronJob]: push a job whose [lastRun] is 0. *)
Definition registerCronJob (jobs : list CronJob) (n : jsstring) (i : Z)
    (h : World -> World * Settled) : list CronJob * list Console :=
  (jobs ++ [mkCronJob n i 0 h], [LogRegistered n i]).

(** The body of the [for] loop of [executeDueJobs], for one job. *)
Definition runJob (now : Z) (job : CronJob) (w : World)
  : CronJob * World * list Console :=
  if now - lastRun job >=? interval job then
    match handler job w with
    | (w', Fulfilled) =>
        (set_lastRun job now, w', [LogExecuting (name job); LogCompleted (name job)])
    | (w', Rejected) =>
        (job, w', [LogExecuting (name job); ErrorInJob (name job)])
    end
  else (job, w, []).

(** [executeDueJobs], with [now] the value [Date.now()] returned at entry. *)
Fixpoint executeDueJobs (now : Z) (jobs : list CronJob) (w : World)
  : list CronJob * World * list Console :=
  match jobs with
  | [] => ([], w, [])
  | job :: rest =>
      let '(job', w1, out1) := runJob now job w in
      let '(rest', w2, out2) := executeDueJobs now rest w1 in
      (job' :: rest', w2, out1 ++ out2)
  end.

Definition jobs_after (r : list CronJob * World * list Console) := fst (fst r).
Definition world_after (r : list CronJob * World * list Console) := snd (fst r).
Definition console_of (r : list CronJob * World * list Console) := snd r.

End WithWorld.

(** A job whose handler always throws, on a world without content. *)
Definition failing : CronJob unit :=
  mkCronJob (lit "failing") 1000 0 (fun w => (w, Rejected)).

Definition succeeding : CronJob unit :=
  mkCronJob (lit "ok") 1000 0 (fun w => (w, Fulfilled)).

Section Properties.

Variable World : Type.
Implicit Types (job : CronJob World) (w : World).

Lemma executeDueJobs_app now l1 l2 w :
  executeDueJobs now (l1 ++ l2) w =
  let r1 := executeDueJobs now l1 w in
  let r2 := executeDueJobs now l2 (world_after r1) in
  (jobs_after r1 ++ jobs_after r2, world_after r2,
   console_of r1 ++ console_of r2).
Proof.
  unfold jobs_after, world_after, console_of.
  revert w; induction l1 as [|j l1 IH]; intros w; simpl.
  - destruct (executeDueJobs now l2 w) as [[a b] c]; reflexivity.
  - destruct (runJob now j w) as [[j' w1] o1].
    rewrite IH; simpl.
    destruct (executeDueJobs now l1 w1) as [[a b] c]; simpl.
    destruct (executeDueJobs now l2 b) as [[a2 b2] c2]; simpl.
    rewrite app_assoc; reflexivity.
Qed.

Lemma runJob_due now job w :
  now - lastRun job >= interval job ->
  runJob now job w =
  match snd (handler job w) with
  | Fulfilled =>
      (set_lastRun job now, fst (handler job w),
       [LogExecuting (name job); LogCompleted (name job)])
  | Rejected =>
      (job, fst (handler job w),
       [LogExecuting (name job); ErrorInJob (name job)])
  end.
Proof.
  intros Hdue. unfold runJob.
  replace (now - lastRun job >=? interval job) with true
    by (symmetry; apply Z.geb_le; lia).
  destruct (handler job w) as [w' []]; reflexivity.
Qed.

Lemma runJob_not_due now job w :
  now - lastRun job < interval job -> runJob now job w = (job, w, []).
Proof.
  intros Hlt. unfold runJob.
  replace (now - lastRun job >=? interval job) with false; [reflexivity|].
  symmetry. rewrite Z.geb_leb. apply Z.leb_gt. lia.
Qed.

(** C1 (as amended).  A job that is due on a tick is handed to its handler,
    in the world left by the jobs registered before it.  When the handler
    returns normally the job's [lastRun] becomes the tick time; when the
    handler throws, the error is logged and the job is left as it was, so
    its [lastRun] is not advanced.  The jobs after it run next, in the
    world the handler left. *)
Theorem executeDueJobs_due_job now before job after w :
  now - lastRun job >= interval job ->
  let r1 := executeDueJobs now before w in
  let w1 := world_after r1 in
  let r2 := executeDueJobs now after (fst (handler job w1)) in
  executeDueJobs now (before ++ job :: after) w =
  match snd (handler job w1) with
  | Fulfilled =>
      (jobs_after r1 ++ set_lastRun job now :: jobs_after r2,
       world_after r2,
       console_of r1 ++
       [LogExecuting (name job); LogCompleted (name job)] ++ console_of r2)
  | Rejected =>
      (jobs_after r1 ++ job :: jobs_after r2,
       world_after r2,
       console_of r1 ++
       [LogExecuting (name job); ErrorInJob (name job)] ++ console_of r2)
  end.
Proof.
  intros Hdue r1 w1 r2.
  rewrite executeDueJobs_app.
  subst r2 w1. fold r1. cbn zeta. cbn [executeDueJobs].
  rewrite runJob_due by exact Hdue.
  destruct (handler job (world_after r1)) as [w' s]; cbn [fst snd].
  destruct s; destruct (executeDueJobs now after w') as [[a b] c];
    reflexivity.
Qed.

(** A job that is not due is skipped: its handler is not run, nothing is
    printed for it, and it is left as it was. *)
Lemma executeDueJobs_not_due_job now before job after w :
  now - lastRun job < interval job ->
  let r1 := executeDueJobs now before w in
  let r2 := executeDueJobs now after (world_after r1) in
  executeDueJobs now (before ++ job :: after) w =
  (jobs_after r1 ++ job :: jobs_after r2, world_after r2,
   console_of r1 ++ console_of r2).
Proof.
  intros Hlt r1 r2.
  rewrite executeDueJobs_app.
  subst r2. fold r1. cbn zeta. cbn [executeDueJobs].
  rewrite runJob_not_due by exact Hlt.
  destruct (executeDueJobs now after (world_after r1)) as [[a b] c];
    reflexivity.
Qed.

End Properties.

(** A job registered with an interval of 1000 ms is not run on a tick at
    time 500 and is run on a tick at time 1000. *)
Example executeDueJobs_cold_start :
  let jobs := fst (registerCronJob [] (lit "ok") 1000
                     (fun w : unit => (w, Fulfilled))) in
  executeDueJobs 500 jobs tt = (jobs, tt, []) /\
  List.map (@lastRun unit) (jobs_after (executeDueJobs 1000 jobs tt))
    = [1000].
Proof. cbv zeta. split; vm_compute; reflexivity. Qed.

(** C1, counterexample.  The job is due at the tick of time 1000 and its
    handler is run and throws; after the tick its [lastRun] is still 0, not
    the tick time, and on the tick one millisecond later it runs again. *)
Lemma executeDueJobs_failing_not_advanced :
  let r := executeDueJobs 1000 [failing] tt in
  1000 - lastRun failing >= interval failing /\
  console_of r =
    [LogExecuting (lit "failing"); ErrorInJob (lit "failing")] /\
  List.map (@lastRun unit) (jobs_after r) = [0] /\
  List.map (@lastRun unit) (jobs_after r) <> [1000] /\
  console_of (executeDueJobs 1001 (jobs_after r) tt) =
    [LogExecuting (lit "failing"); ErrorInJob (lit "failing")].
Proof.
  cbv zeta. repeat split; try (vm_compute; congruence).
Qed.

Lemma executeDueJobs_due_job_witness :
  1000 - lastRun succeeding >= interval succeeding /\
  List.map (@lastRun unit)
    (jobs_after (executeDueJobs 1000 ([failing] ++ succeeding :: []) tt))
  = [0; 1000].
Proof.
  assert (H : 1000 - lastRun succeeding >= interval succeeding)
    by (vm_compute; congruence).
  split; [exact H|].
  rewrite (@executeDueJobs_due_job unit 1000 [failing] succeeding [] tt H).
  reflexivity.
Defined.

(** ** What a tick keeps, and ticks in sequence *)

Section Ticks.

Variable World : Type.
Implicit Types (job : CronJob World) (w : World).

Lemma runJob_cases now job w :
  let '(job', w', out) := runJob now job w in
  (job' = job \/
   (job' = set_lastRun job now /\ now - lastRun job >= interval job /\
    snd (handler job w) = Fulfilled)) /\
  (now - lastRun job < interval job -> job' = job /\ w' = w /\ out = []).
Proof.
  unfold runJob.
  destruct (now - lastRun job >=? interval job) eqn:E.
  - apply Z.geb_le in E.
    destruct (handler job w) as [w' []]; cbn [snd];
      (split; [|intros; lia]); [right|left]; repeat split; try lia.
  - split; [left; reflexivity | intros _; repeat split].
Qed.

(** A tick keeps the list of jobs, in its order, and the name, the
    interval and the handler of each job; a [lastRun] that changes becomes
    the tick time, and changes only for a job that was due. *)
Theorem executeDueJobs_frame now jobs w :
  Forall2
    (fun job job' =>
       name job' = name job /\ interval job' = interval job /\
       handler job' = handler job /\
       (lastRun job' = lastRun job \/
        (lastRun job' = now /\ now - lastRun job >= interval job)))
    jobs (jobs_after (executeDueJobs now jobs w)).
Proof.
  revert w. induction jobs as [|job rest IH]; intros w; cbn.
  - constructor.
  - pose proof (runJob_cases now job w) as Hc.
    destruct (runJob now job w) as [[job' w1] out1].
    specialize (IH w1).
    destruct (executeDueJobs now rest w1) as [[rest' w2] out2].
    unfold jobs_after in *; cbn [fst] in *.
    constructor; [|exact IH].
    destruct Hc as [[->|(-> & Hdue & _)] _]; cbn.
    + repeat split; left; reflexivity.
    + repeat split. right. split; [reflexivity | exact Hdue].
Qed.

Lemma executeDueJobs_idle now jobs w :
  Forall (fun job => now - lastRun job < interval job) jobs ->
  executeDueJobs now jobs w = (jobs, w, []).
Proof.
  induction 1 as [|job rest Hjob _ IH]; cbn; [reflexivity|].
  rewrite runJob_not_due by exact Hjob. rewrite IH. reflexivity.
Qed.

(** When no job is due, a tick does nothing at all: the list of jobs and
    the world are as they were and nothing is logged. *)
Theorem executeDueJobs_none_due now jobs w :
  Forall (fun job => now - lastRun job < interval job) jobs ->
  executeDueJobs now jobs w = (jobs, w, []).
Proof. exact (@executeDueJobs_idle now jobs w). Qed.

Lemma executeDueJobs_settled now jobs :
  (forall job w, In job jobs -> snd (handler job w) = Fulfilled) ->
  Forall (fun job => 0 < interval job) jobs ->
  forall w,
    Forall (fun job => now - lastRun job < interval job)
           (jobs_after (executeDueJobs now jobs w)).
Proof.
  induction jobs as [|job rest IH]; intros Hok Hpos w; cbn.
  - constructor.
  - inversion Hpos as [|? ? Hjob Hrest]; subst.
    pose proof (runJob_cases now job w) as Hc.
    unfold runJob in *.
    destruct (now - lastRun job >=? interval job) eqn:E.
    + specialize (Hok job w (or_introl eq_refl)) as Hf.
      destruct (handler job w) as [w1 st]. cbn [snd] in Hf. subst st.
      specialize (IH (fun j w' Hin => Hok j w' (or_intror Hin)) Hrest w1).
      destruct (executeDueJobs now rest w1) as [[rest' w2] out2].
      unfold jobs_after in *; cbn [fst] in *.
      constructor; [cbn; lia | exact IH].
    + specialize (IH (fun j w' Hin => Hok j w' (or_intror Hin)) Hrest w).
      destruct (executeDueJobs now rest w) as [[rest' w2] out2].
      unfold jobs_after in *; cbn [fst] in *.
      constructor; [|exact IH].
      rewrite Z.geb_leb in E. apply Z.leb_gt in E. lia.
Qed.

(** When the intervals are positive and no handler throws, a second tick
    at the same time runs nothing: no job fires twice for one instant. *)
Theorem executeDueJobs_twice now jobs w w' :
  (forall job w0, In job jobs -> snd (handler job w0) = Fulfilled) ->
  Forall (fun job => 0 < interval job) jobs ->
  let jobs' := jobs_after (executeDueJobs now jobs w) in
  executeDueJobs now jobs' w' = (jobs', w', []).
Proof.
  intros Hok Hpos jobs'.
  apply executeDueJobs_idle.
  apply executeDueJobs_settled; assumption.
Qed.

(** A job just registered is considered after the jobs registered before
    it, and its handler is run on a tick exactly when the tick time has
    reached its interval, since its [lastRun] starts at 0. *)
Theorem registerCronJob_then_tick now jobs n i h w :
  let jobs' := fst (registerCronJob jobs n i h) in
  let r1 := executeDueJobs now jobs w in
  let w1 := world_after r1 in
  executeDueJobs now jobs' w =
  if now >=? i then
    match snd (h w1) with
    | Fulfilled =>
        (jobs_after r1 ++ [mkCronJob n i now h], fst (h w1),
         console_of r1 ++ [LogExecuting n; LogCompleted n])
    | Rejected =>
        (jobs_after r1 ++ [mkCronJob n i 0 h], fst (h w1),
         console_of r1 ++ [LogExecuting n; ErrorInJob n])
    end
  else (jobs_after r1 ++ [mkCronJob n i 0 h], w1, console_of r1).
Proof.
  cbv zeta. unfold registerCronJob. cbn [fst].
  rewrite executeDueJobs_app. cbn zeta. cbn [executeDueJobs].
  unfold runJob. cbn [lastRun interval handler name].
  rewrite Z.sub_0_r.
  destruct (now >=? i).
  - destruct (h (world_after (executeDueJobs now jobs w))) as [w' []];
      reflexivity.
  - cbn. rewrite app_nil_r. reflexivity.
Qed.

End Ticks.

Lemma executeDueJobs_none_due_witness :
  executeDueJobs 999 [failing; succeeding] tt
  = ([failing; succeeding], tt, []).
Proof.
  apply executeDueJobs_none_due.
  repeat constructor; vm_compute; reflexivity.
Defined.

Lemma executeDueJobs_twice_witness :
  let jobs' := jobs_after (executeDueJobs 1000 [succeeding; succeeding] tt) in
  executeDueJobs 1000 jobs' tt = (jobs', tt, []).
Proof.
  apply (@executeDueJobs_twice unit 1000 [succeeding; succeeding] tt tt).
  - intros job w0 [<-|[<-|[]]]; reflexivity.
  - repeat constructor.
Defined.

End Manager.

(* ================================================================== *)
(** * The Hacker News job: story selection and its dedup cache *)
(* ================================================================== *)

Module HackerNews.

(** [HNStory], as decoded from the item endpoint.  The fields the code
    tests for presence are optional. *)
Record HNStory := mkStory {
  id : Z;
  title : jsstring;
  url : option jsstring;
  by_ : jsstring;
  score : Z;
  time : Z;
  descendants : Z;
  kids : option (list Z);
  type_ : jsstring
}.

(** The module-level variables [postedStories] and [lastResetTimestamp],
    the number of item requests sent so far, and the console. *)
Inductive Console :=
| LogCacheReset
| LogMarked (storyId : Z) (size : nat)
| LogSkipping (storyId : Z)
| LogAllPosted
| ErrorFetchingTopStory (e : jsstring).

Record State := mkState {
  postedStories : list Z;
  lastResetTimestamp : Z;
  requests : nat;
  console : list Console
}.

(** The outside world of one run: the clock, the reply of the index
    endpoint ([None] when the request fails) and the replies of the item
    endpoint, which may differ from one request to the next ([None] for a
    failed request and for a JSON [null]). *)
Record Net := mkNet {
  topstories : option (list Z);
  item : nat -> Z -> option HNStory
}.

Definition M (A : Type) := State -> A * State.
Definition ret {A} (a : A) : M A := fun s => (a, s).
Definition bind {A B} (m : M A) (k : A -> M B) : M B :=
  fun s => let (a, s') := m s in k a s'.

Notation "x <- m ;; k" := (bind m (fun x => k))
  (at level 61, m at next level, right associativity).
Notation "m ;; k" := (bind m (fun _ => k))
  (at level 61, right associativity).

Definition log (c : Console) : M unit :=
  fun s => (tt, mkState (postedStories s) (lastResetTimestamp s)
                        (requests s) (console s ++ [c])).

Definition get_posted : M (list Z) := fun s => (postedStories s, s).

Definition set_posted (l : list Z) : M unit :=
  fun s => (tt, mkState l (lastResetTimestamp s) (requests s) (console s)).

Definition get_lastReset : M Z := fun s => (lastResetTimestamp s, s).

Definition set_lastReset (t : Z) : M unit :=
  fun s => (tt, mkState (postedStories s) t (requests s) (console s)).

(** [Array.prototype.includes] on identifiers. *)
Definition includes (l : list Z) (x : Z) : bool := existsb (Z.eqb x) l.

Definition DAY : Z := 86400000.

(** [checkAndResetCache], at clock value [now]. *)
Definition checkAndResetCache (now : Z) : M unit :=
  last <- get_lastReset ;;
  if now - last >? DAY then
    log LogCacheReset ;;
    set_posted [] ;;
    set_lastReset now
  else ret tt.

(** [markStoryAsPosted]. *)
Definition markStoryAsPosted (storyId : Z) : M unit :=
  posted <- get_posted ;;
  if negb (includes posted storyId) then
    set_posted (posted ++ [storyId]) ;;
    log (LogMarked storyId (length (posted ++ [storyId])))
  else ret tt.

(** [fetchTopStories]: the identifiers, or [[]] when the request fails. *)
Definition fetchTopStories (net : Net) : list Z :=
  match topstories net with
  | Some ids => ids
  | None => []
  end.

(** [fetchItem]: one more request to the item endpoint. *)
Definition fetchItem (net : Net) (storyId : Z) : M (option HNStory) :=
  fun s => (item net (requests s) storyId,
            mkState (postedStories s) (lastResetTimestamp s)
                    (S (requests s)) (console s)).

(** [story && story.url && story.kids && story.kids.length > 0]. *)
Definition truthy_str (s : option jsstring) : bool :=
  match s with
  | Some (_ :: _) => true
  | _ => false
  end.

Definition valid (story : option HNStory) : bool :=
  match story with
  | None => false
  | Some st =>
      truthy_str (url st) &&
      match kids st with
      | Some (_ :: _) => true
      | _ => false
      end
  end.

(** The first loop of [fetchTopStory], over the identifiers still to scan. *)
Fixpoint firstPass (net : Net) (ids : list Z) : M (option HNStory) :=
  match ids with
  | [] => ret None
  | storyId :: rest =>
      posted <- get_posted ;;
      if includes posted storyId then
        log (LogSkipping storyId) ;;
        firstPass net rest
      else
        story <- fetchItem net storyId ;;
        if valid story then
          markStoryAsPosted storyId ;;
          ret story
        else firstPass net rest
  end.

(** The second loop, which does not look at the cache. *)
Fixpoint secondPass (net : Net) (ids : list Z) : M (option HNStory) :=
  match ids with
  | [] => ret None
  | storyId :: rest =>
      story <- fetchItem net storyId ;;
      if valid story then
        markStoryAsPosted storyId ;;
        ret story
      else secondPass net rest
  end.

(** [fetchTopStory].  The only exception raised inside its [try] block is
    the one thrown on an empty identifier list. *)
Definition fetchTopStory (now : Z) (net : Net) : M (option HNStory) :=
  checkAndResetCache now ;;
  let topStoryIds := fetchTopStories net in
  match topStoryIds with
  | [] =>
      log (ErrorFetchingTopStory (lit "No top stories found")) ;;
      ret None
  | _ :: _ =>
      found <- firstPass net (firstn 30 topStoryIds) ;;
      match found with
      | Some story => ret (Some story)
      | None =>
          posted <- get_posted ;;
          if (0 <? length posted)%nat then
            log LogAllPosted ;;
            set_posted [] ;;
            secondPass net (firstn 10 topStoryIds)
          else ret None
      end
  end.

(** A run starts with no request sent and an empty console. *)
Definition start (posted : list Z) (last : Z) : State :=
  mkState posted last 0 [].

(** Was the fallback path taken?  It is the only one that prints
    "All top stories have been posted today ...". *)
Definition is_AllPosted (c : Console) : bool :=
  match c with LogAllPosted => true | _ => false end.

Definition fallback_taken (s : State) : bool :=
  existsb is_AllPosted (console s).

(** The identifiers of the first pass that the cache does not filter out,
    and whether the items fetched for them, from request [k] on, are all
    rejected. *)
Definition unposted (posted ids : list Z) : list Z :=
  filter (fun x => negb (includes posted x)) ids.

Fixpoint rejected_from (net : Net) (k : nat) (cands : list Z) : bool :=
  match cands with
  | [] => true
  | x :: rest => negb (valid (item net k x)) && rejected_from net (S k) rest
  end.

(** What one run of a loop adds to the console. *)
Definition emits (s s' : State) (out : list Console) : Prop :=
  console s' = console s ++ out.

Definition skipped (x : Z) (s : State) : State :=
  mkState (postedStories s) (lastResetTimestamp s) (requests s)
          (console s ++ [LogSkipping x]).

Definition requested (s : State) : State :=
  mkState (postedStories s) (lastResetTimestamp s) (S (requests s))
          (console s).

Definition marked (x : Z) (s : State) : State :=
  if includes (postedStories s) x then s
  else mkState (postedStories s ++ [x]) (lastResetTimestamp s) (requests s)
         (console s ++ [LogMarked x (length (postedStories s ++ [x]))]).

(** The cache after the window check, after the clearing of the fallback,
    and after the exception of an empty identifier list. *)
Definition checked (now : Z) (s : State) : State :=
  snd (checkAndResetCache now s).

Definition cleared (s : State) : State :=
  mkState [] (lastResetTimestamp s) (requests s) (console s ++ [LogAllPosted]).

Definition failed (e : jsstring) (s : State) : State :=
  mkState (postedStories s) (lastResetTimestamp s) (requests s)
          (console s ++ [ErrorFetchingTopStory e]).

(** Sample data: one valid story, an item endpoint that serves it, one
    that serves nothing, and an index without entries. *)
Definition story1 : HNStory :=
  mkStory 1 (lit "Show HN") (Some (lit "https://example.org/")) (lit "pg")
          10 0 3 (Some [7; 8]) (lit "story").

Definition net_ok : Net :=
  mkNet (Some [1]) (fun _ i => if i =? 1 then Some story1 else None).

Definition net_dead : Net := mkNet (Some [1]) (fun _ _ => None).

Definition net_empty : Net := mkNet (Some []) (fun _ _ => None).

Ltac run_monad :=
  unfold checkAndResetCache, markStoryAsPosted, fetchItem, bind, ret, log,
    get_posted, set_posted, get_lastReset, set_lastReset; cbn -[includes].

Lemma includes_In l x : includes l x = true <-> In x l.
Proof.
  unfold includes. rewrite existsb_exists. split.
  - intros [y [Hy E]]. apply Z.eqb_eq in E. subst; assumption.
  - intros H. exists x. split; [assumption | apply Z.eqb_refl].
Qed.

Lemma includes_not_In l x : includes l x = false <-> ~ In x l.
Proof.
  rewrite <- includes_In. destruct (includes l x); split; congruence.
Qed.

Lemma firstPass_cons net x rest s :
  firstPass net (x :: rest) s =
  if includes (postedStories s) x then firstPass net rest (skipped x s)
  else if valid (item net (requests s) x)
       then (item net (requests s) x, marked x (requested s))
       else firstPass net rest (requested s).
Proof.
  cbn [firstPass]. unfold bind at 1, get_posted at 1.
  destruct (includes (postedStories s) x) eqn:Hin; [reflexivity|].
  unfold bind at 1, fetchItem at 1. fold (requested s).
  destruct (valid (item net (requests s) x)); [|reflexivity].
  unfold marked, requested. run_monad. rewrite Hin. reflexivity.
Qed.

Lemma secondPass_cons net x rest s :
  secondPass net (x :: rest) s =
  if valid (item net (requests s) x)
  then (item net (requests s) x, marked x (requested s))
  else secondPass net rest (requested s).
Proof.
  cbn [secondPass]. unfold bind at 1, fetchItem at 1. fold (requested s).
  destruct (valid (item net (requests s) x)); [|reflexivity].
  unfold marked, requested. run_monad.
  destruct (includes (postedStories s) x); reflexivity.
Qed.

Lemma emits_refl s : emits s s [].
Proof. unfold emits. rewrite app_nil_r. reflexivity. Qed.

Lemma emits_marked x s :
  exists out, emits s (marked x (requested s)) out /\
              existsb is_AllPosted out = false.
Proof.
  unfold marked, requested; cbn -[includes].
  destruct (includes (postedStories s) x).
  - exists []. split; [|reflexivity].
    unfold emits; cbn. rewrite app_nil_r. reflexivity.
  - eexists. split; [unfold emits; cbn; reflexivity | reflexivity].
Qed.

(** The first loop: either it rejects every candidate that the cache lets
    through, and changes nothing but the request count and the console, or
    it returns the item fetched for a candidate that the cache did not
    hold, and appends that candidate to the cache. *)
Lemma firstPass_spec net ids : forall s,
  let r := fst (firstPass net ids s) in
  let s' := snd (firstPass net ids s) in
  lastResetTimestamp s' = lastResetTimestamp s /\
  (exists out, emits s s' out /\ existsb is_AllPosted out = false) /\
  match r with
  | None =>
      postedStories s' = postedStories s /\
      rejected_from net (requests s) (unposted (postedStories s) ids) = true
  | Some story =>
      rejected_from net (requests s) (unposted (postedStories s) ids) = false /\
      valid (Some story) = true /\
      exists storyId k,
        In storyId ids /\ ~ In storyId (postedStories s) /\
        item net k storyId = Some story /\
        postedStories s' = postedStories s ++ [storyId]
  end.
Proof.
  induction ids as [|x rest IH]; intros s; cbn zeta.
  - cbn. repeat split; try reflexivity.
    exists []. split; [apply emits_refl | reflexivity].
  - rewrite firstPass_cons.
    unfold unposted; cbn [filter]; fold (unposted (postedStories s) rest).
    destruct (includes (postedStories s) x) eqn:Hin; cbn [negb].
    + specialize (IH (skipped x s)); cbn zeta in IH.
      destruct (firstPass net rest (skipped x s)) as [r s'].
      cbn [fst snd skipped postedStories lastResetTimestamp requests] in *.
      destruct IH as (HL & (out & Hout & Hno) & Hr).
      split; [exact HL|]. split.
      * exists (LogSkipping x :: out). split; [|exact Hno].
        unfold emits in *; cbn in *. rewrite Hout, <- app_assoc. reflexivity.
      * destruct r as [story|]; [|exact Hr].
        destruct Hr as (Hrej & Hv & sid & k & Hi & Hn & Hit & Hp).
        repeat split; try assumption.
        exists sid, k. repeat split; try assumption. right; assumption.
    + cbn [rejected_from].
      destruct (valid (item net (requests s) x)) eqn:Hv; cbn [negb andb].
      * cbn [fst snd].
        destruct (item net (requests s) x) as [story|] eqn:Hit;
          [|discriminate Hv].
        split; [unfold marked, requested; cbn -[includes]; rewrite Hin; reflexivity|].
        split; [apply emits_marked|].
        split; [reflexivity|]. split; [exact Hv|].
        exists x, (requests s). repeat split; try assumption.
        { left; reflexivity. }
        { apply includes_not_In; assumption. }
        { unfold marked, requested; cbn -[includes]; rewrite Hin; reflexivity. }
      * specialize (IH (requested s)); cbn zeta in IH.
        destruct (firstPass net rest (requested s)) as [r s'].
        cbn [fst snd requested postedStories lastResetTimestamp requests]
          in *.
        destruct IH as (HL & (out & Hout & Hno) & Hr).
        split; [exact HL|]. split.
        { exists out. split; assumption. }
        destruct r as [story|]; [|exact Hr].
        destruct Hr as (Hrej & Hv' & sid & k & Hi & Hn & Hit & Hp).
        repeat split; try assumption.
        exists sid, k. repeat split; try assumption. right; assumption.
Qed.

(** The second loop never reads the cache; the item it returns was fetched
    for one of the identifiers it was given, which it marks as posted. *)
Lemma secondPass_spec net ids : forall s,
  let r := fst (secondPass net ids s) in
  let s' := snd (secondPass net ids s) in
  lastResetTimestamp s' = lastResetTimestamp s /\
  (exists out, emits s s' out /\ existsb is_AllPosted out = false) /\
  match r with
  | None => postedStories s' = postedStories s
  | Some story =>
      valid (Some story) = true /\
      exists storyId k,
        In storyId ids /\ item net k storyId = Some story /\
        postedStories s' =
          if includes (postedStories s) storyId then postedStories s
          else postedStories s ++ [storyId]
  end.
Proof.
  induction ids as [|x rest IH]; intros s; cbn zeta.
  - cbn. repeat split; try reflexivity.
    exists []. split; [apply emits_refl | reflexivity].
  - rewrite secondPass_cons.
    destruct (valid (item net (requests s) x)) eqn:Hv.
    + destruct (item net (requests s) x) as [story|] eqn:Hit;
        [|discriminate Hv].
      cbn [fst snd].
      split; [unfold marked, requested; cbn -[includes];
              destruct (includes (postedStories s) x); reflexivity|].
      split; [apply emits_marked|].
      split; [exact Hv|]. exists x, (requests s).
      repeat split; try assumption; [left; reflexivity|].
      unfold marked, requested; cbn -[includes].
      destruct (includes (postedStories s) x); reflexivity.
    + specialize (IH (requested s)); cbn zeta in IH.
      destruct (secondPass net rest (requested s)) as [r s'].
      cbn [fst snd requested postedStories lastResetTimestamp requests] in *.
      destruct IH as (HL & Hout & Hr).
      split; [exact HL|]. split; [exact Hout|].
      destruct r as [story|]; [|exact Hr].
      destruct Hr as (Hv' & sid & k & Hi & Hit & Hp).
      split; [exact Hv'|].
      exists sid, k. repeat split; try assumption. right; assumption.
Qed.

Lemma checked_eq now s :
  checked now s =
  if now - lastResetTimestamp s >? DAY
  then mkState [] now (requests s) (console s ++ [LogCacheReset])
  else s.
Proof.
  unfold checked. run_monad.
  destruct (now - lastResetTimestamp s >? DAY); reflexivity.
Qed.

Lemma fetchTopStory_eq now net s :
  fetchTopStory now net s =
  match fetchTopStories net with
  | [] => (None, failed (lit "No top stories found") (checked now s))
  | x :: ids' =>
      let p1 := firstPass net (firstn 30 (x :: ids')) (checked now s) in
      match fst p1 with
      | Some story => (Some story, snd p1)
      | None =>
          if (0 <? length (postedStories (snd p1)))%nat
          then secondPass net (firstn 10 (x :: ids')) (cleared (snd p1))
          else (None, snd p1)
      end
  end.
Proof.
  unfold fetchTopStory, checked. unfold bind at 1.
  destruct (checkAndResetCache now s) as [[] s1]. cbn [snd].
  destruct (fetchTopStories net) as [|x ids']; [reflexivity|].
  cbn zeta. unfold bind at 1.
  destruct (firstPass net (firstn 30 (x :: ids')) s1) as [[story|] s2];
    cbn [fst snd]; [reflexivity|].
  unfold bind at 1, get_posted at 1.
  destruct (0 <? length (postedStories s2))%nat; reflexivity.
Qed.

Lemma checked_window now s : now - lastResetTimestamp (checked now s) <= DAY.
Proof.
  rewrite checked_eq.
  destruct (now - lastResetTimestamp s >? DAY) eqn:E; cbn.
  - unfold DAY; lia.
  - rewrite Z.gtb_ltb in E. apply Z.ltb_ge in E. exact E.
Qed.

Lemma checked_idempotent now s : checked now (checked now s) = checked now s.
Proof.
  rewrite (checked_eq now (checked now s)).
  pose proof (checked_window now s) as H.
  replace (now - lastResetTimestamp (checked now s) >? DAY) with false;
    [reflexivity|].
  symmetry. rewrite Z.gtb_ltb. apply Z.ltb_ge. exact H.
Qed.

(** The time stamp of the window is the one the check left, on every path
    of [fetchTopStory]. *)
Lemma fetchTopStory_lastReset now net s :
  lastResetTimestamp (snd (fetchTopStory now net s)) =
  lastResetTimestamp (checked now s).
Proof.
  rewrite fetchTopStory_eq.
  destruct (fetchTopStories net) as [|x ids']; [reflexivity|].
  cbn zeta.
  pose proof (firstPass_spec net (firstn 30 (x :: ids')) (checked now s))
    as (HL & _ & _).
  destruct (fst (firstPass net (firstn 30 (x :: ids')) (checked now s)));
    cbn [snd]; [exact HL|].
  destruct (0 <? length _)%nat; [|exact HL].
  pose proof (secondPass_spec net (firstn 10 (x :: ids'))
    (cleared (snd (firstPass net (firstn 30 (x :: ids')) (checked now s)))))
    as (HL2 & _ & _).
  rewrite HL2. cbn. exact HL.
Qed.

Lemma checked_start_console now posted last :
  existsb is_AllPosted (console (checked now (start posted last))) = false.
Proof.
  rewrite checked_eq. unfold start; cbn.
  destruct (now - last >? DAY); reflexivity.
Qed.

(** The fallback is entered exactly when the identifier list is not empty,
    the first loop returned nothing, and the cache holds something. *)
Lemma fallback_taken_eq now net posted last :
  let c1 := checked now (start posted last) in
  fallback_taken (snd (fetchTopStory now net (start posted last))) =
  match fetchTopStories net with
  | [] => false
  | x :: ids' =>
      (0 <? length (postedStories c1))%nat &&
      rejected_from net 0 (unposted (postedStories c1) (firstn 30 (x :: ids')))
  end.
Proof.
  intros c1. unfold fallback_taken. rewrite fetchTopStory_eq. fold c1.
  pose proof (checked_start_console now posted last) as Hc. fold c1 in Hc.
  assert (Hreq : requests c1 = 0%nat).
  { unfold c1. rewrite checked_eq. unfold start; cbn.
    destruct (now - last >? DAY); reflexivity. }
  destruct (fetchTopStories net) as [|x ids'].
  - unfold failed; cbn [snd console]. rewrite existsb_app, Hc. reflexivity.
  - cbn zeta.
    pose proof (firstPass_spec net (firstn 30 (x :: ids')) c1)
      as (_ & (out & Hout & Hno) & Hr).
    cbn zeta in Hr. rewrite Hreq in Hr.
    destruct (firstPass net (firstn 30 (x :: ids')) c1) as [[story|] s2];
      cbn [fst snd] in *.
    + destruct Hr as (Hrej & _). rewrite Hrej, andb_false_r.
      unfold emits in Hout. rewrite Hout, existsb_app, Hc, Hno. reflexivity.
    + destruct Hr as (Hp & Hrej). rewrite Hrej, andb_true_r, Hp.
      destruct (0 <? length (postedStories c1))%nat.
      * pose proof (secondPass_spec net (firstn 10 (x :: ids')) (cleared s2))
          as (_ & (out2 & Hout2 & _) & _).
        unfold emits in Hout2. rewrite Hout2. unfold cleared; cbn [console].
        rewrite !existsb_app. cbn. rewrite orb_true_r. reflexivity.
      * cbn [snd]. unfold emits in Hout.
        rewrite Hout, existsb_app, Hc, Hno. reflexivity.
Qed.

(** What a run that returns a story did: which candidate it selected, on
    which path, and what the cache holds afterwards. *)
Lemma fetchTopStory_selected now net posted last story :
  let c1 := checked now (start posted last) in
  let R := fetchTopStory now net (start posted last) in
  fst R = Some story ->
  exists storyId k,
    item net k storyId = Some story /\
    ((fallback_taken (snd R) = false /\
      In storyId (firstn 30 (fetchTopStories net)) /\
      ~ In storyId (postedStories c1) /\
      postedStories (snd R) = postedStories c1 ++ [storyId])
     \/
     (fallback_taken (snd R) = true /\
      In storyId (firstn 10 (fetchTopStories net)) /\
      postedStories (snd R) = [storyId])).
Proof.
  intros c1 R HR.
  pose proof (fallback_taken_eq now net posted last) as Hfb.
  cbn zeta in Hfb. fold c1 in Hfb.
  unfold R in HR |- *. rewrite fetchTopStory_eq in HR |- *.
  rewrite fetchTopStory_eq in Hfb. fold c1 in HR, Hfb |- *.
  assert (Hreq : requests c1 = 0%nat).
  { unfold c1. rewrite checked_eq. unfold start; cbn.
    destruct (now - last >? DAY); reflexivity. }
  destruct (fetchTopStories net) as [|x ids']; [discriminate HR|].
  cbn zeta in *.
  pose proof (firstPass_spec net (firstn 30 (x :: ids')) c1)
    as (_ & _ & Hr).
  cbn zeta in Hr. rewrite Hreq in Hr.
  destruct (firstPass net (firstn 30 (x :: ids')) c1) as [[st|] s2];
    cbn [fst snd] in *.
  - injection HR as ->.
    destruct Hr as (Hrej & _ & sid & k & Hi & Hn & Hit & Hp).
    exists sid, k. split; [exact Hit|]. left.
    rewrite Hfb, Hrej, andb_false_r. repeat split; assumption.
  - destruct Hr as (Hp & Hrej). rewrite Hp in *.
    destruct (0 <? length (postedStories c1))%nat eqn:Hlen;
      [|discriminate HR].
    pose proof (secondPass_spec net (firstn 10 (x :: ids')) (cleared s2))
      as (_ & _ & Hr2).
    cbn zeta in Hr2. rewrite HR in Hr2.
    destruct Hr2 as (_ & sid & k & Hi & Hit & Hp2).
    exists sid, k. split; [exact Hit|]. right.
    rewrite Hfb, Hrej. split; [reflexivity|]. split; [exact Hi|].
    exact Hp2.
Qed.

(** What the cache holds after a run that took the fallback. *)
Lemma fetchTopStory_fallback_cache now net posted last :
  let c1 := checked now (start posted last) in
  let R := fetchTopStory now net (start posted last) in
  fallback_taken (snd R) = true ->
  postedStories c1 <> [] /\
  match fst R with
  | None => postedStories (snd R) = []
  | Some _ =>
      exists storyId, In storyId (firstn 10 (fetchTopStories net)) /\
                      postedStories (snd R) = [storyId]
  end.
Proof.
  intros c1 R Hfb.
  pose proof (fallback_taken_eq now net posted last) as Heq.
  cbn zeta in Heq. fold c1 in Heq. fold R in Heq.
  rewrite Hfb in Heq. symmetry in Heq.
  destruct (fst R) as [story|] eqn:HR.
  - destruct (fetchTopStory_selected now net posted last HR)
      as (sid & k & _ & [(Hno & _) | (_ & Hi & Hp)]).
    + fold R in Hno. congruence.
    + split; [|exists sid; split; assumption].
      destruct (fetchTopStories net); [discriminate Heq|].
      apply andb_true_iff in Heq. destruct Heq as [Hlen _].
      fold c1. destruct (postedStories c1); [discriminate Hlen|congruence].
  - unfold R in HR |- *. rewrite fetchTopStory_eq in HR |- *. fold c1 in HR |- *.
    destruct (fetchTopStories net) as [|x ids']; [discriminate Heq|].
    apply andb_true_iff in Heq. destruct Heq as [Hlen Hrej].
    split; [destruct (postedStories c1); [discriminate Hlen|congruence]|].
    cbn zeta in *.
    pose proof (firstPass_spec net (firstn 30 (x :: ids')) c1) as (_ & _ & Hr).
    cbn zeta in Hr.
    destruct (firstPass net (firstn 30 (x :: ids')) c1) as [[st|] s2];
      cbn [fst snd] in *; [discriminate HR|].
    destruct Hr as (Hp & _). rewrite Hp, Hlen in *.
    pose proof (secondPass_spec net (firstn 10 (x :: ids')) (cleared s2))
      as (_ & _ & Hr2).
    cbn zeta in Hr2. rewrite HR in Hr2. exact Hr2.
Qed.

(** When the item endpoint answers a request for an identifier in the
    same way whenever it is asked, the candidates are all rejected exactly
    when each scanned identifier is in the cache or has an invalid item. *)
Lemma rejected_from_stable net posted ids :
  (forall k x, item net k x = item net 0 x) ->
  forall k,
    rejected_from net k (unposted posted ids) = true <->
    Forall (fun x => In x posted \/ valid (item net 0 x) = false) ids.
Proof.
  intros Hstable. induction ids as [|x ids IH]; intros k; cbn.
  - split; [constructor | reflexivity].
  - destruct (includes posted x) eqn:Hin; cbn [negb].
    + rewrite (IH k). split.
      * intros H. constructor; [|exact H].
        left. apply includes_In; exact Hin.
      * intros H. inversion H; assumption.
    + cbn [rejected_from]. rewrite andb_true_iff, (IH (S k)), Hstable.
      split.
      * intros [Hv H]. constructor; [|exact H].
        right. destruct (valid (item net 0 x)); [discriminate Hv|reflexivity].
      * intros H. inversion H as [|? ? [Hp|Hv] Hrest]; subst.
        { apply includes_not_In in Hin. contradiction. }
        { rewrite Hv. split; [reflexivity | exact Hrest]. }
Qed.

(** C3 (as amended).  The fallback path (clear the dedup set, re-scan the
    first 10 identifiers without filtering) is taken exactly when the
    identifier list is not empty, the dedup set is not empty, and every one
    of the first 30 identifiers was either filtered out by the dedup set or
    fetched and found invalid. *)
Theorem fallback_taken_iff now net posted last :
  let c1 := checked now (start posted last) in
  fallback_taken (snd (fetchTopStory now net (start posted last))) = true <->
  fetchTopStories net <> [] /\
  postedStories c1 <> [] /\
  rejected_from net 0
    (unposted (postedStories c1) (firstn 30 (fetchTopStories net))) = true.
Proof.
  intros c1. rewrite fallback_taken_eq. fold c1.
  destruct (fetchTopStories net) as [|x ids'].
  - split; [discriminate | intros [H _]; congruence].
  - rewrite andb_true_iff. split.
    + intros [Hlen Hrej]. split; [discriminate|]. split; [|exact Hrej].
      destruct (postedStories c1); [discriminate Hlen | discriminate].
    + intros (_ & Hne & Hrej). split; [|exact Hrej].
      destruct (postedStories c1); [congruence | reflexivity].
Qed.

Lemma fallback_taken_iff_witness :
  fallback_taken (snd (fetchTopStory 5 net_dead (start [2] 0))) = true.
Proof.
  apply (proj2 (fallback_taken_iff 5 net_dead [2] 0)).
  repeat split; vm_compute; congruence.
Defined.

(** C3, counterexample.  With the dedup set [2] and the single candidate 1,
    which the set does not hold but whose item cannot be fetched, the
    fallback is taken although not every scanned identifier was filtered
    out by the set; and with an empty identifier list every scanned
    identifier is (vacuously) filtered out and the set is not empty, yet
    the fallback is not taken. *)
Lemma fallback_taken_not_only_when_all_posted :
  (fallback_taken (snd (fetchTopStory 5 net_dead (start [2] 0))) = true /\
   ~ Forall (fun x => In x (postedStories (checked 5 (start [2] 0))))
            (firstn 30 (fetchTopStories net_dead))) /\
  (fallback_taken (snd (fetchTopStory 5 net_empty (start [2] 0))) = false /\
   Forall (fun x => In x (postedStories (checked 5 (start [2] 0))))
          (firstn 30 (fetchTopStories net_empty)) /\
   postedStories (checked 5 (start [2] 0)) <> []).
Proof.
  split; split.
  - vm_compute; reflexivity.
  - intros H. inversion H as [|x l Hx _]; subst.
    vm_compute in Hx. destruct Hx as [Hx|[]]. discriminate Hx.
  - vm_compute; reflexivity.
  - split; [constructor | vm_compute; congruence].
Qed.

(** C5.  A story returned by the first, dedup-filtered pass was fetched for
    a scanned identifier that the dedup set did not hold when the scan
    started; a story returned for an identifier that the set held comes
    from the fallback path, after which the set holds that identifier
    only.  When the item endpoint answers with the item it was asked for,
    the [id] of a story of the first pass is not in the set either. *)
Theorem fetchTopStory_dedup now net posted last story :
  let c1 := checked now (start posted last) in
  let R := fetchTopStory now net (start posted last) in
  fst R = Some story ->
  (exists storyId k,
    item net k storyId = Some story /\
    ((fallback_taken (snd R) = false /\
      In storyId (firstn 30 (fetchTopStories net)) /\
      ~ In storyId (postedStories c1) /\
      postedStories (snd R) = postedStories c1 ++ [storyId])
     \/
     (fallback_taken (snd R) = true /\
      In storyId (firstn 10 (fetchTopStories net)) /\
      postedStories (snd R) = [storyId]))) /\
  ((forall k i st, item net k i = Some st -> id st = i) ->
   fallback_taken (snd R) = false ->
   ~ In (id story) (postedStories c1)).
Proof.
  intros c1 R HR.
  destruct (fetchTopStory_selected now net posted last HR)
    as (sid & k & Hit & Hcase).
  fold c1 in Hcase. fold R in Hcase.
  split.
  - exists sid, k. split; assumption.
  - intros Hfaithful Hno.
    destruct Hcase as [(_ & _ & Hn & _) | (Hfb & _)]; [|congruence].
    rewrite (Hfaithful _ _ _ Hit). exact Hn.
Qed.

Lemma fetchTopStory_dedup_witness :
  fst (fetchTopStory 5 net_ok (start [2] 0)) = Some story1 /\
  ~ In (id story1) (postedStories (checked 5 (start [2] 0))).
Proof.
  assert (HR : fst (fetchTopStory 5 net_ok (start [2] 0)) = Some story1)
    by (vm_compute; reflexivity).
  split; [exact HR|].
  apply (proj2 (fetchTopStory_dedup 5 net_ok [2] 0 HR)).
  - intros k i st. unfold net_ok; cbn [item].
    destruct (i =? 1) eqn:E; [|discriminate].
    intros H; injection H as <-. apply Z.eqb_eq in E. subst i. reflexivity.
  - vm_compute; reflexivity.
Defined.

(** C6.  [fetchTopStory] starts with the window check: a run from any cache
    is the run from the checked cache.  After the check, and after the
    whole run, at most 24 hours separate the clock from the window start.
    When more than 24 hours have elapsed, the check empties the set and
    moves the window start to the clock, so the run is the run from an
    empty set; this is so one millisecond after the 24 hours. *)
Theorem fetchTopStory_window now net posted last :
  let s := start posted last in
  fetchTopStory now net s = fetchTopStory now net (checked now s) /\
  now - lastResetTimestamp (checked now s) <= 86400000 /\
  now - lastResetTimestamp (snd (fetchTopStory now net s)) <= 86400000 /\
  (if now - last >? 86400000
   then postedStories (checked now s) = [] /\
        lastResetTimestamp (checked now s) = now /\
        fetchTopStory now net s = fetchTopStory now net (start [] last)
   else checked now s = s) /\
  postedStories (checked (last + 86400000 + 1) s) = [] /\
  fetchTopStory (last + 86400000 + 1) net s =
  fetchTopStory (last + 86400000 + 1) net (start [] last).
Proof.
  intros s.
  assert (Hstale : forall t, (t - last >? DAY) = true ->
            checked t s = checked t (start [] last)).
  { intros t Ht. rewrite !checked_eq. unfold s, start; cbn. rewrite Ht.
    reflexivity. }
  assert (Hrun : forall t, (t - last >? DAY) = true ->
            fetchTopStory t net s = fetchTopStory t net (start [] last)).
  { intros t Ht. rewrite !fetchTopStory_eq, (Hstale t Ht). reflexivity. }
  assert (Hlate : (last + 86400000 + 1 - last >? DAY) = true).
  { unfold DAY. apply Z.gtb_lt. lia. }
  split; [|split; [|split; [|split; [|split]]]].
  - rewrite (fetchTopStory_eq now net (checked now s)), checked_idempotent.
    apply fetchTopStory_eq.
  - apply checked_window.
  - rewrite fetchTopStory_lastReset. apply checked_window.
  - change 86400000 with DAY.
    destruct (now - last >? DAY) eqn:E.
    + rewrite checked_eq. unfold s, start; cbn. rewrite E. cbn.
      repeat split. apply Hrun; exact E.
    + rewrite checked_eq. unfold s, start; cbn. rewrite E. reflexivity.
  - rewrite checked_eq. unfold s, start; cbn [lastResetTimestamp].
    rewrite Hlate. reflexivity.
  - apply Hrun; exact Hlate.
Qed.

(** C10.  After a run the window start is the clock when the 24-hour check
    fired and the old window start otherwise.  A run that took the
    fallback leaves the window start as it was before the run, although it
    emptied the dedup set: afterwards the set holds nothing but the
    identifier of the story just returned, if any. *)
Theorem fallback_keeps_lastResetTimestamp now net posted last :
  let R := fetchTopStory now net (start posted last) in
  lastResetTimestamp (snd R) = (if now - last >? 86400000 then now else last) /\
  (fallback_taken (snd R) = true ->
   lastResetTimestamp (snd R) = last /\
   match fst R with
   | None => postedStories (snd R) = []
   | Some _ =>
       exists storyId, In storyId (firstn 10 (fetchTopStories net)) /\
                       postedStories (snd R) = [storyId]
   end).
Proof.
  intros R.
  assert (HL : lastResetTimestamp (snd R) =
               if now - last >? 86400000 then now else last).
  { unfold R. rewrite fetchTopStory_lastReset, checked_eq.
    unfold start; cbn. change DAY with 86400000.
    destruct (now - last >? 86400000); reflexivity. }
  split; [exact HL|].
  intros Hfb.
  destruct (fetchTopStory_fallback_cache now net posted last Hfb)
    as (Hne & Hcache).
  split; [|exact Hcache].
  rewrite HL. rewrite checked_eq in Hne. unfold start in Hne; cbn in Hne.
  change DAY with 86400000 in Hne.
  destruct (now - last >? 86400000); [|reflexivity].
  cbn in Hne. congruence.
Qed.

Lemma fallback_keeps_lastResetTimestamp_witness :
  let R := fetchTopStory 5 net_ok (start [1] 0) in
  fallback_taken (snd R) = true /\
  lastResetTimestamp (snd R) = 0 /\
  postedStories (snd R) = [1].
Proof.
  assert (Hfb : fallback_taken
                  (snd (fetchTopStory 5 net_ok (start [1] 0))) = true)
    by (vm_compute; reflexivity).
  cbv zeta. split; [exact Hfb|].
  split.
  - exact (proj1 (proj2 (fallback_keeps_lastResetTimestamp
                           5 net_ok [1] 0) Hfb)).
  - vm_compute; reflexivity.
Defined.

(** ** More on the selection: the cache, the requests, the rank order *)

Lemma firstPass_requests net ids : forall s,
  (requests (snd (firstPass net ids s)) <= requests s + length ids)%nat.
Proof.
  induction ids as [|x rest IH]; intros s; [cbn; lia|].
  rewrite firstPass_cons. cbn [length].
  destruct (includes (postedStories s) x) eqn:Hin.
  - specialize (IH (skipped x s)). cbn [skipped requests] in IH. lia.
  - destruct (valid (item net (requests s) x)).
    + cbn [snd]. unfold marked, requested. cbn [postedStories].
      rewrite Hin. cbn [requests]. lia.
    + specialize (IH (requested s)). cbn [requested requests] in IH. lia.
Qed.

Lemma secondPass_requests net ids : forall s,
  (requests (snd (secondPass net ids s)) <= requests s + length ids)%nat.
Proof.
  induction ids as [|x rest IH]; intros s; [cbn; lia|].
  rewrite secondPass_cons. cbn [length].
  destruct (valid (item net (requests s) x)).
  - cbn [snd]. unfold marked, requested. cbn [postedStories].
    destruct (includes (postedStories s) x); cbn [requests]; lia.
  - specialize (IH (requested s)). cbn [requested requests] in IH. lia.
Qed.

Lemma secondPass_None net ids : forall s,
  fst (secondPass net ids s) = None ->
  Forall (fun x => exists k, valid (item net k x) = false) ids.
Proof.
  induction ids as [|x rest IH]; intros s H; [constructor|].
  rewrite secondPass_cons in H.
  destruct (valid (item net (requests s) x)) eqn:Hv.
  - cbn [fst] in H. rewrite H in Hv. discriminate Hv.
  - constructor; [exists (requests s); exact Hv | eapply IH; exact H].
Qed.

Lemma checked_requests now posted last :
  requests (checked now (start posted last)) = 0%nat.
Proof.
  rewrite checked_eq. unfold start; cbn.
  destruct (now - last >? DAY); reflexivity.
Qed.

Lemma checked_posted now posted last :
  postedStories (checked now (start posted last)) =
  if now - last >? DAY then [] else posted.
Proof.
  rewrite checked_eq. unfold start; cbn.
  destruct (now - last >? DAY); reflexivity.
Qed.

(** A run sends at most 40 requests to the item endpoint, 30 in the first
    loop and 10 in the second, and none at all when the index is empty or
    could not be fetched: it then returns [null] and leaves the set as the
    window check left it. *)
Theorem fetchTopStory_requests now net posted last :
  let R := fetchTopStory now net (start posted last) in
  (requests (snd R) <= 40)%nat /\
  match fetchTopStories net with
  | [] =>
      fst R = None /\ requests (snd R) = 0%nat /\
      postedStories (snd R) =
        postedStories (checked now (start posted last))
  | _ :: _ => True
  end.
Proof.
  cbv zeta. rewrite fetchTopStory_eq.
  pose proof (checked_requests now posted last) as H0.
  destruct (fetchTopStories net) as [|x ids'].
  - unfold failed; cbn [fst snd requests postedStories]. rewrite H0.
    repeat split; lia.
  - split; [|exact I]. cbn zeta.
    set (c1 := checked now (start posted last)) in *.
    pose proof (firstPass_requests net (firstn 30 (x :: ids')) c1) as H1.
    pose proof (length_firstn 30 (x :: ids')) as L30.
    pose proof (length_firstn 10 (x :: ids')) as L10.
    destruct (firstPass net (firstn 30 (x :: ids')) c1) as [[story|] s2];
      cbn [fst snd] in *; [lia|].
    destruct (0 <? length (postedStories s2))%nat; cbn [snd]; [|lia].
    pose proof (secondPass_requests net (firstn 10 (x :: ids')) (cleared s2))
      as H2.
    cbn [cleared requests] in H2. lia.
Qed.

(** A run returns only stories that have a non-empty URL and at least one
    reply. *)
Theorem fetchTopStory_valid now net posted last story :
  fst (fetchTopStory now net (start posted last)) = Some story ->
  (exists u k rest, url story = Some u /\ u <> [] /\
                    kids story = Some (k :: rest)).
Proof.
  rewrite fetchTopStory_eq.
  destruct (fetchTopStories net) as [|x ids']; [discriminate|].
  cbn zeta.
  set (c1 := checked now (start posted last)).
  pose proof (firstPass_spec net (firstn 30 (x :: ids')) c1) as (_ & _ & H1).
  cbn zeta in H1.
  assert (Hvalid : valid (Some story) = true ->
            exists u k rest, url story = Some u /\ u <> [] /\
                             kids story = Some (k :: rest)).
  { unfold valid, truthy_str.
    destruct (url story) as [[|c u]|]; try discriminate.
    destruct (kids story) as [[|k rest]|]; try discriminate.
    intros _. exists (c :: u), k, rest. repeat split. discriminate. }
  destruct (firstPass net (firstn 30 (x :: ids')) c1) as [[st|] s2];
    cbn [fst snd] in *.
  - intros H; injection H as ->. apply Hvalid. apply H1.
  - destruct (0 <? length (postedStories s2))%nat; [|discriminate].
    pose proof (secondPass_spec net (firstn 10 (x :: ids')) (cleared s2))
      as (_ & _ & H2).
    cbn zeta in H2. intros H. rewrite H in H2. apply Hvalid. apply H2.
Qed.

Lemma fetchTopStory_valid_witness :
  exists u k rest, url story1 = Some u /\ u <> [] /\
                   kids story1 = Some (k :: rest).
Proof.
  apply (@fetchTopStory_valid 5 net_ok [2] 0 story1).
  vm_compute. reflexivity.
Defined.

(** The set never holds an identifier twice. *)
Theorem fetchTopStory_NoDup now net posted last :
  NoDup posted ->
  NoDup (postedStories (snd (fetchTopStory now net (start posted last)))).
Proof.
  intros Hnd.
  assert (Hc1 : NoDup (postedStories (checked now (start posted last)))).
  { rewrite checked_posted. destruct (now - last >? DAY);
      [constructor | exact Hnd]. }
  destruct (fst (fetchTopStory now net (start posted last)))
    as [story|] eqn:HR.
  - destruct (fetchTopStory_selected now net posted last HR)
      as (sid & k & _ & [(_ & _ & Hn & Hp) | (_ & _ & Hp)]); rewrite Hp.
    + apply NoDup_app; [exact Hc1 | repeat constructor; intros [] |].
      intros y Hy [<-|[]]. contradiction.
    + repeat constructor. intros [].
  - rewrite fetchTopStory_eq in HR |- *.
    destruct (fetchTopStories net) as [|x ids']; [exact Hc1|].
    cbn zeta in *.
    set (c1 := checked now (start posted last)) in *.
    pose proof (firstPass_spec net (firstn 30 (x :: ids')) c1) as (_ & _ & H1).
    cbn zeta in H1.
    destruct (firstPass net (firstn 30 (x :: ids')) c1) as [[st|] s2];
      cbn [fst snd] in *; [discriminate HR|].
    destruct H1 as (Hp & _).
    destruct (0 <? length (postedStories s2))%nat;
      [|cbn [snd]; rewrite Hp; exact Hc1].
    pose proof (secondPass_spec net (firstn 10 (x :: ids')) (cleared s2))
      as (_ & _ & H2).
    cbn zeta in H2. rewrite HR in H2. rewrite H2. constructor.
Qed.

Lemma fetchTopStory_NoDup_witness :
  NoDup (postedStories (snd (fetchTopStory 5 net_ok (start [2] 0)))).
Proof.
  apply fetchTopStory_NoDup. repeat constructor. intros [].
Defined.

(** An item endpoint that answers a request for an identifier in the same
    way whenever it is asked. *)
Definition stable (net : Net) : Prop :=
  forall k x, item net k x = item net 0 x.

Definition eligible (net : Net) (posted : list Z) (x : Z) : bool :=
  negb (includes posted x) && valid (item net 0 x).

Lemma firstPass_find net ids : stable net -> forall s,
  match find (eligible net (postedStories s)) ids with
  | Some x =>
      fst (firstPass net ids s) = item net 0 x /\
      postedStories (snd (firstPass net ids s)) = postedStories s ++ [x]
  | None =>
      fst (firstPass net ids s) = None /\
      postedStories (snd (firstPass net ids s)) = postedStories s
  end.
Proof.
  intros Hst. induction ids as [|x rest IH]; intros s.
  - cbn. split; reflexivity.
  - rewrite firstPass_cons. cbn [find]. unfold eligible at 1.
    destruct (includes (postedStories s) x) eqn:Hin; cbn [negb andb].
    + apply (IH (skipped x s)).
    + rewrite (Hst (requests s) x). destruct (valid (item net 0 x)) eqn:Hv.
      * cbn [fst snd]. split; [reflexivity|].
        unfold marked, requested. cbn [postedStories]. rewrite Hin.
        reflexivity.
      * apply (IH (requested s)).
Qed.

Lemma secondPass_find net ids : stable net -> forall s,
  fst (secondPass net ids s) =
  match find (fun x => valid (item net 0 x)) ids with
  | Some x => item net 0 x
  | None => None
  end.
Proof.
  intros Hst. induction ids as [|x rest IH]; intros s; [reflexivity|].
  rewrite secondPass_cons. cbn [find]. rewrite (Hst (requests s) x).
  destruct (valid (item net 0 x)); [reflexivity | apply IH].
Qed.

Lemma fetchTopStory_by_rank now net posted last :
  stable net ->
  let c1 := checked now (start posted last) in
  let ids := fetchTopStories net in
  let R := fetchTopStory now net (start posted last) in
  match find (eligible net (postedStories c1)) (firstn 30 ids) with
  | Some x =>
      fst R = item net 0 x /\
      postedStories (snd R) = postedStories c1 ++ [x]
  | None =>
      fst R =
      match postedStories c1,
            find (fun x => valid (item net 0 x)) (firstn 10 ids) with
      | _ :: _, Some x => item net 0 x
      | _, _ => None
      end
  end.
Proof.
  intros Hst. cbv zeta. rewrite fetchTopStory_eq.
  set (c1 := checked now (start posted last)).
  destruct (fetchTopStories net) as [|x ids'].
  - cbn. destruct (postedStories c1); reflexivity.
  - cbn zeta.
    pose proof (firstPass_find (firstn 30 (x :: ids')) Hst c1) as H1.
    destruct (find (eligible net (postedStories c1)) (firstn 30 (x :: ids')))
      as [y|].
    + destruct H1 as (Hf & Hp).
      assert (Hv : exists st, item net 0 y = Some st).
      { pose proof (firstPass_spec net (firstn 30 (x :: ids')) c1)
          as (_ & _ & Hs). cbn zeta in Hs. rewrite Hp in Hs.
        destruct (fst (firstPass net (firstn 30 (x :: ids')) c1)) as [st|].
        - exists st. symmetry; exact Hf.
        - destruct Hs as (Hs & _).
          apply (f_equal (@length Z)) in Hs. rewrite length_app in Hs.
          cbn in Hs. lia. }
      destruct Hv as (st & Hst').
      rewrite Hst' in Hf. rewrite Hf. cbn [snd]. rewrite Hst'.
      split; [reflexivity | exact Hp].
    + destruct H1 as (Hf & Hp). rewrite Hf, Hp.
      destruct (postedStories c1) as [|p ps]; [reflexivity|].
      cbn [length Nat.ltb Nat.leb].
      apply secondPass_find; exact Hst.
Qed.

(** With a stable item endpoint, the first loop respects the rank order:
    when one of the first 30 identifiers is not in the set and has a valid
    item, the run returns the item of the first such identifier and adds
    that identifier to the set; when there is none and the set is not
    empty, it returns the item of the first of the first 10 identifiers
    that has a valid item, whether it is in the set or not. *)
Theorem fetchTopStory_rank_order now net posted last :
  stable net ->
  let c1 := checked now (start posted last) in
  let ids := fetchTopStories net in
  let R := fetchTopStory now net (start posted last) in
  match find (eligible net (postedStories c1)) (firstn 30 ids) with
  | Some x =>
      fst R = item net 0 x /\
      postedStories (snd R) = postedStories c1 ++ [x]
  | None =>
      fst R =
      match postedStories c1,
            find (fun x => valid (item net 0 x)) (firstn 10 ids) with
      | _ :: _, Some x => item net 0 x
      | _, _ => None
      end
  end.
Proof. exact (@fetchTopStory_by_rank now net posted last). Qed.

Definition net_two : Net :=
  mkNet (Some [3; 1])
        (fun _ i => if i =? 1 then Some story1 else None).

Lemma fetchTopStory_rank_order_witness :
  fst (fetchTopStory 5 net_two (start [2] 0)) = Some story1 /\
  postedStories (snd (fetchTopStory 5 net_two (start [2] 0))) = [2; 1].
Proof.
  assert (Hst : stable net_two) by (intros k x; reflexivity).
  exact (fetchTopStory_rank_order 5 [2] 0 Hst).
Defined.

(** Forward progress: with a stable item endpoint, a run returns a story
    whenever one of the first 10 identifiers has a valid item, whatever
    the set holds. *)
Theorem fetchTopStory_progress now net posted last x :
  stable net ->
  In x (firstn 10 (fetchTopStories net)) ->
  valid (item net 0 x) = true ->
  exists story, fst (fetchTopStory now net (start posted last)) = Some story.
Proof.
  intros Hst Hin Hv.
  pose proof (fetchTopStory_by_rank now posted last Hst) as H.
  cbv zeta in H.
  set (c1 := checked now (start posted last)) in *.
  assert (Hin30 : In x (firstn 30 (fetchTopStories net))).
  { rewrite <- (firstn_skipn 10 (firstn 30 (fetchTopStories net))).
    apply in_or_app. left. rewrite firstn_firstn. exact Hin. }
  destruct (find (eligible net (postedStories c1))
                 (firstn 30 (fetchTopStories net))) as [y|] eqn:Hfind.
  - destruct H as (Hf & _).
    apply find_some in Hfind. destruct Hfind as (_ & He).
    unfold eligible in He. apply andb_true_iff in He.
    destruct He as (_ & Hy).
    destruct (item net 0 y) as [st|]; [|discriminate Hy].
    exists st. exact Hf.
  - pose proof (find_none _ _ Hfind x Hin30) as Hx.
    unfold eligible in Hx. rewrite Hv, andb_true_r in Hx.
    apply negb_false_iff, includes_In in Hx.
    destruct (postedStories c1) as [|p ps]; [destruct Hx|].
    destruct (find (fun x0 => valid (item net 0 x0))
                   (firstn 10 (fetchTopStories net))) as [y|] eqn:Hf10.
    + apply find_some in Hf10. destruct Hf10 as (_ & Hy).
      destruct (item net 0 y) as [st|]; [|discriminate Hy].
      exists st. exact H.
    + pose proof (find_none _ _ Hf10 x Hin) as Hx'. cbv beta in Hx'.
      congruence.
Qed.

Lemma fetchTopStory_progress_witness :
  exists story, fst (fetchTopStory 5 net_ok (start [1] 0)) = Some story.
Proof.
  apply (@fetchTopStory_progress 5 net_ok [1] 0 1).
  - intros k x; reflexivity.
  - left; reflexivity.
  - reflexivity.
Defined.

(** [markStoryAsPosted] puts the identifier into the set and keeps what
    the set held; it adds nothing when the identifier is there already,
    so that a set without repetition stays so and a second call changes
    nothing. *)
Theorem markStoryAsPosted_spec storyId s :
  let s' := snd (markStoryAsPosted storyId s) in
  In storyId (postedStories s') /\
  (forall y, In y (postedStories s') <->
             y = storyId \/ In y (postedStories s)) /\
  (NoDup (postedStories s) -> NoDup (postedStories s')) /\
  snd (markStoryAsPosted storyId s') = s' /\
  lastResetTimestamp s' = lastResetTimestamp s.
Proof.
  cbv zeta. unfold markStoryAsPosted, bind, get_posted, set_posted, log, ret.
  cbn [fst snd]. destruct (includes (postedStories s) storyId) eqn:Hin;
    cbn [negb snd postedStories lastResetTimestamp].
  - apply includes_In in Hin as Hin'.
    repeat split; try tauto.
    + intros [->|H]; assumption.
    + rewrite Hin. reflexivity.
  - apply includes_not_In in Hin as Hin'.
    repeat split.
    + apply in_or_app. right. left. reflexivity.
    + intros H. apply in_app_or in H. destruct H as [H|[<-|[]]]; tauto.
    + intros [->|H]; apply in_or_app; [right; left; reflexivity | left; exact H].
    + intros Hnd. apply NoDup_app; [exact Hnd | repeat constructor; intros []|].
      intros y Hy [<-|[]]. contradiction.
    + assert (H : includes (postedStories s ++ [storyId]) storyId = true).
      { apply includes_In. apply in_or_app. right. left. reflexivity. }
      rewrite H. reflexivity.
Qed.

Lemma markStoryAsPosted_spec_witness :
  NoDup (postedStories (snd (markStoryAsPosted 3 (start [1; 2] 0)))).
Proof.
  apply (proj1 (proj2 (proj2 (markStoryAsPosted_spec 3 (start [1; 2] 0))))).
  cbn. repeat constructor; cbn; intuition discriminate.
Defined.

(** ** Comments *)

(** [HNComment], as decoded from the item endpoint. *)
Record HNComment := mkComment {
  comment_id : Z;
  text : option jsstring;
  comment_by : jsstring;
  comment_time : Z;
  parent : Z;
  comment_kids : option (list Z);
  comment_type : jsstring
}.

(** The replies of the item endpoint to the requests for comments, by the
    number of item requests sent before. *)
Definition CommentNet := nat -> Z -> option HNComment.

(** [fetchItem<HNComment>] *)
Definition fetchComment (comments : CommentNet) (commentId : Z)
  : M (option HNComment) :=
  fun s => (comments (requests s) commentId,
            mkState (postedStories s) (lastResetTimestamp s)
                    (S (requests s)) (console s)).

(** [comment && comment.text] *)
Definition has_text (comment : option HNComment) : bool :=
  match comment with
  | Some c => truthy_str (text c)
  | None => false
  end.

(** The loop of [fetchTopComments], over the identifiers still to fetch. *)
Fixpoint collectComments (comments : CommentNet) (kidIds : list Z)
  : M (list HNComment) :=
  match kidIds with
  | [] => ret []
  | kid :: rest =>
      comment <- fetchComment comments kid ;;
      more <- collectComments comments rest ;;
      ret (match comment with
           | Some c => if has_text comment then c :: more else more
           | None => more
           end)
  end.

(** [fetchTopComments]; [Math.min(count, story.kids.length)] bounds the
    loop. *)
Definition fetchTopComments (net : Net) (comments : CommentNet)
    (storyId : Z) (count : Z) : M (list HNComment) :=
  story <- fetchItem net storyId ;;
  match story with
  | Some st =>
      match kids st with
      | Some (k :: ks) =>
          collectComments comments (firstn (Z.to_nat count) (k :: ks))
      | _ => ret []
      end
  | None => ret []
  end.

Lemma collectComments_cons comments kid rest s :
  collectComments comments (kid :: rest) s =
  let r := collectComments comments rest (requested s) in
  (match comments (requests s) kid with
   | Some c => if truthy_str (text c) then c :: fst r else fst r
   | None => fst r
   end, snd r).
Proof.
  cbn [collectComments]. unfold bind, fetchComment, ret.
  fold (requested s).
  destruct (collectComments comments rest (requested s)) as [more s1].
  destruct (comments (requests s) kid); reflexivity.
Qed.

Lemma collectComments_spec comments kidIds : forall s,
  let cs := fst (collectComments comments kidIds s) in
  let s' := snd (collectComments comments kidIds s) in
  (length cs <= length kidIds)%nat /\
  Forall (fun c => truthy_str (text c) = true) cs /\
  Forall (fun c => exists k kid, In kid kidIds /\ comments k kid = Some c) cs /\
  requests s' = (requests s + length kidIds)%nat /\
  postedStories s' = postedStories s /\
  lastResetTimestamp s' = lastResetTimestamp s /\
  console s' = console s.
Proof.
  induction kidIds as [|kid rest IH]; intros s; cbn zeta.
  - cbn. repeat split; try lia; constructor.
  - rewrite collectComments_cons. cbn zeta.
    specialize (IH (requested s)). cbn zeta in IH.
    destruct (collectComments comments rest (requested s)) as [more s1].
    cbn [fst snd requested postedStories lastResetTimestamp requests
         console] in *.
    destruct IH as (Hlen & Htext & Hfrom & Hreq & Hp & Hl & Hc).
    assert (Hfrom' : Forall (fun c => exists k kid0,
                        In kid0 (kid :: rest) /\ comments k kid0 = Some c)
                      more).
    { eapply Forall_impl; [|exact Hfrom].
      intros c (k & kid0 & Hin & Hk). exists k, kid0.
      split; [right; exact Hin | exact Hk]. }
    cbn [length].
    destruct (comments (requests s) kid) as [c|] eqn:Hc0.
    + destruct (truthy_str (text c)) eqn:Ht; cbn [length].
      * repeat split; try assumption; try lia.
        { constructor; assumption. }
        { constructor; [|exact Hfrom'].
          exists (requests s), kid. split; [left; reflexivity|exact Hc0]. }
      * repeat split; try assumption; lia.
    + repeat split; try assumption; lia.
Qed.

Lemma fetchTopComments_eq net comments storyId count s :
  fetchTopComments net comments storyId count s =
  match item net (requests s) storyId with
  | Some st =>
      match kids st with
      | Some (k :: ks) =>
          collectComments comments (firstn (Z.to_nat count) (k :: ks))
                          (requested s)
      | _ => ([], requested s)
      end
  | None => ([], requested s)
  end.
Proof.
  unfold fetchTopComments, bind, fetchItem. fold (requested s).
  destruct (item net (requests s) storyId) as [st|]; [|reflexivity].
  destruct (kids st) as [[|k ks]|]; reflexivity.
Qed.

(** [fetchTopComments] returns at most [count] comments, each with a
    non-empty text and each fetched for one of the first [count] replies
    of the story, and none when the story cannot be fetched or has no
    reply.  It sends one request for the story and one for each of those
    replies, and does not touch the dedup set. *)
Theorem fetchTopComments_spec net comments storyId count s :
  let cs := fst (fetchTopComments net comments storyId count s) in
  let s' := snd (fetchTopComments net comments storyId count s) in
  let replies :=
    match item net (requests s) storyId with
    | Some st => match kids st with Some ks => ks | None => [] end
    | None => []
    end in
  (length cs <= Z.to_nat count)%nat /\
  (length cs <= length replies)%nat /\
  Forall (fun c => truthy_str (text c) = true) cs /\
  Forall (fun c => exists k kid,
            In kid (firstn (Z.to_nat count) replies) /\
            comments k kid = Some c) cs /\
  requests s' = (1 + requests s +
                 Nat.min (Z.to_nat count) (length replies))%nat /\
  postedStories s' = postedStories s /\
  lastResetTimestamp s' = lastResetTimestamp s.
Proof.
  cbv zeta. rewrite fetchTopComments_eq.
  destruct (item net (requests s) storyId) as [st|].
  2:{ cbn. rewrite Nat.min_0_r. repeat split; try constructor; lia. }
  destruct (kids st) as [[|k ks]|].
  2:{ pose proof (collectComments_spec comments
                    (firstn (Z.to_nat count) (k :: ks)) (requested s)) as H.
      cbv zeta in H.
      destruct H as (Hlen & Htext & Hfrom & Hreq & Hp & Hl & _).
      rewrite length_firstn in Hlen, Hreq.
      cbn [requested requests postedStories lastResetTimestamp] in *.
      repeat split; try assumption; lia. }
  all: cbn; rewrite Nat.min_0_r; repeat split; try constructor; lia.
Qed.

(** ** The prompt *)

(** [s.replace(/pat/g, rep)] for a literal pattern: at each position a
    match is replaced and the scan resumes after it.  [skip] counts the
    code units of a match still to drop. *)
Fixpoint replace_all_from (pat rep : jsstring) (skip : nat) (s : jsstring)
  : jsstring :=
  match s with
  | [] => []
  | c :: r =>
      match skip with
      | S k => replace_all_from pat rep k r
      | O =>
          if starts_with pat s then
            match length pat with
            | S k => rep ++ replace_all_from pat rep k r
            | O => c :: replace_all_from pat rep O r
            end
          else c :: replace_all_from pat rep O r
      end
  end.

Definition replace_all (pat rep s : jsstring) : jsstring :=
  replace_all_from pat rep O s.

Definition LT : N := 60%N.
Definition GT : N := 62%N.

(** [s.replace(/<[^>]*>/g, '')]: a [<] that has a [>] somewhere after it
    is dropped with everything up to the first such [>]; [inside] tells
    that the scan is within a match. *)
Fixpoint strip_tags_from (inside : bool) (s : jsstring) : jsstring :=
  match s with
  | [] => []
  | c :: r =>
      if inside then
        if N.eqb c GT then strip_tags_from false r
        else strip_tags_from true r
      else if N.eqb c LT && existsb (N.eqb GT) r then strip_tags_from true r
      else c :: strip_tags_from false r
  end.

Definition strip_tags (s : jsstring) : jsstring := strip_tags_from false s.

(** [cleanHtmlText] *)
Definition cleanHtmlText (text : jsstring) : jsstring :=
  strip_tags
    (replace_all (lit "&gt;") (lit ">")
       (replace_all (lit "&lt;") (lit "<")
          (replace_all (lit "&amp;") (lit "&")
             (replace_all (lit "&quot;") dquote
                (replace_all (lit "&#x27;") (lit "'") text))))).

(** [cleanComment.substring(0, 200)] followed by ['...'] when the comment
    is longer. *)
Definition excerpt (cleanComment : jsstring) : jsstring :=
  firstn 200 cleanComment ++
  (if (200 <? length cleanComment)%nat then lit "..." else []).

(** [`${x}`] for a string that may be [undefined]. *)
Definition interpolate (x : option jsstring) : jsstring :=
  match x with
  | Some s => s
  | None => lit "undefined"
  end.

(** [createTweetPrompt]; [cleanHtmlText] throws when the comment has no
    text. *)
Definition createTweetPrompt (story : HNStory) (comment : HNComment)
  : completion jsstring :=
  match text comment with
  | None => Throw (lit "TypeError")
  | Some commentText =>
      let cleanComment := cleanHtmlText commentText in
      Normal
        (lit "Create a concise and insightful tweet about this Hacker News discussion:"
         ++ [10; 10]%N ++
         lit "Article: " ++ dquote ++ title story ++ dquote ++ [10%N] ++
         lit "Top comment: " ++ dquote ++ excerpt cleanComment ++ dquote
         ++ [10; 10]%N ++
         lit "The tweet should:" ++ [10%N] ++
         lit "1. Be thoughtful and interesting" ++ [10%N] ++
         lit "2. Include the article URL: " ++ interpolate (url story)
         ++ [10%N] ++
         lit "3. Add hashtags like #HackerNews and #Tech" ++ [10%N] ++
         lit "4. Use emojis where appropriate" ++ [10%N] ++
         lit "5. Be under 280 characters total" ++ [10; 10]%N ++
         lit "FORMAT: Respond ONLY with a JSON object with this exact structure:"
         ++ [10%N] ++
         litq "{'tweet': 'Your tweet text here'}" ++ [10%N] ++
         lit "No additional text or formatting, just the raw JSON object.")
  end.

Lemma strip_tags_from_In inside s c :
  In c (strip_tags_from inside s) -> In c s.
Proof.
  revert inside. induction s as [|x r IH]; intros inside H; [exact H|].
  cbn [strip_tags_from] in H. destruct inside.
  - right. destruct (N.eqb x GT); eapply IH; exact H.
  - destruct (N.eqb x LT && existsb (N.eqb GT) r).
    + right. eapply IH; exact H.
    + destruct H as [<-|H]; [left; reflexivity | right; eapply IH; exact H].
Qed.

Lemma strip_tags_from_closed s : forall inside a b,
  strip_tags_from inside s = a ++ LT :: b -> ~ In GT b.
Proof.
  induction s as [|x r IH]; intros inside a b H.
  - destruct a; discriminate H.
  - cbn [strip_tags_from] in H. destruct inside.
    + destruct (N.eqb x GT); eapply IH; exact H.
    + destruct (N.eqb x LT && existsb (N.eqb GT) r) eqn:E.
      * eapply IH; exact H.
      * destruct a as [|y a].
        { cbn [app] in H. injection H as -> Hb.
          rewrite N.eqb_refl in E. cbn [andb] in E.
          intros Hin. rewrite <- Hb in Hin.
          apply strip_tags_from_In in Hin.
          assert (existsb (N.eqb GT) r = true)
            by (apply existsb_exists; exists GT; split;
                [exact Hin | apply N.eqb_refl]).
          congruence. }
        { cbn [app] in H. injection H as _ H. eapply IH; exact H. }
Qed.

(** After [cleanHtmlText] no tag is left: no [<] of the result has a [>]
    anywhere after it.  This holds for the angle brackets that the text
    held and for those that the entities [&lt;] and [&gt;] stood for,
    which are decoded before the tags are removed. *)
Theorem cleanHtmlText_no_tag text a b :
  cleanHtmlText text = a ++ LT :: b -> ~ In GT b.
Proof. unfold cleanHtmlText, strip_tags. apply strip_tags_from_closed. Qed.

Lemma cleanHtmlText_no_tag_witness :
  cleanHtmlText (lit "1 &lt; 2 and 3 &gt; 2, but 4 < 5") =
    lit "1  2, but 4 < 5" /\
  ~ In GT (lit " 5").
Proof.
  split; [vm_compute; reflexivity|].
  apply (@cleanHtmlText_no_tag (lit "1 &lt; 2 and 3 &gt; 2, but 4 < 5")
           (lit "1  2, but 4 ") (lit " 5")).
  vm_compute. reflexivity.
Defined.

Lemma excerpt_length c :
  length (excerpt c) =
  (Nat.min 200 (length c) + if (200 <? length c)%nat then 3 else 0)%nat.
Proof.
  unfold excerpt. rewrite length_app, length_firstn.
  destruct (200 <? length c)%nat; reflexivity.
Qed.

(** The prompt holds at most the first 200 code units of the cleaned
    comment, followed by three dots when the comment is longer: its
    length is that of the title, of the URL and of the excerpt plus the
    452 code units of the fixed text, whatever the length of the
    comment. *)
Theorem createTweetPrompt_length story comment commentText :
  text comment = Some commentText ->
  exists prompt,
    createTweetPrompt story comment = Normal prompt /\
    length prompt =
      (452 + length (title story) + length (interpolate (url story)) +
       length (excerpt (cleanHtmlText commentText)))%nat /\
    (length (excerpt (cleanHtmlText commentText)) <= 203)%nat /\
    (length prompt <=
       655 + length (title story) + length (interpolate (url story)))%nat.
Proof.
  intros Ht. unfold createTweetPrompt. rewrite Ht.
  eexists. split; [reflexivity|].
  assert (Hex : (length (excerpt (cleanHtmlText commentText)) <= 203)%nat).
  { rewrite excerpt_length.
    destruct (200 <? length (cleanHtmlText commentText))%nat; lia. }
  assert (Hlen : forall t e u : jsstring,
    length
      (lit "Create a concise and insightful tweet about this Hacker News discussion:"
         ++ [10; 10]%N ++
         lit "Article: " ++ dquote ++ t ++ dquote ++ [10%N] ++
         lit "Top comment: " ++ dquote ++ e ++ dquote
         ++ [10; 10]%N ++
         lit "The tweet should:" ++ [10%N] ++
         lit "1. Be thoughtful and interesting" ++ [10%N] ++
         lit "2. Include the article URL: " ++ u
         ++ [10%N] ++
         lit "3. Add hashtags like #HackerNews and #Tech" ++ [10%N] ++
         lit "4. Use emojis where appropriate" ++ [10%N] ++
         lit "5. Be under 280 characters total" ++ [10; 10]%N ++
         lit "FORMAT: Respond ONLY with a JSON object with this exact structure:"
         ++ [10%N] ++
         litq "{'tweet': 'Your tweet text here'}" ++ [10%N] ++
         lit "No additional text or formatting, just the raw JSON object.")
    = (452 + length t + length u + length e)%nat).
  { intros t e u. repeat rewrite length_app.
    repeat match goal with
           | |- context [length (lit ?x)] =>
               let n := eval vm_compute in (length (lit x)) in
               change (length (lit x)) with n
           | |- context [length (litq ?x)] =>
               let n := eval vm_compute in (length (litq x)) in
               change (length (litq x)) with n
           end.
    cbn [length dquote]. lia. }
  rewrite Hlen. split; [reflexivity|]. split; [exact Hex | lia].
Qed.

Lemma createTweetPrompt_length_witness :
  exists prompt,
    createTweetPrompt story1
      (mkComment 7 (Some (lit "<p>Nice &amp; short")) (lit "pg") 0 1 None
                 (lit "comment")) = Normal prompt /\
    (length prompt <=
       655 + length (title story1) + length (interpolate (url story1)))%nat.
Proof.
  destruct (@createTweetPrompt_length story1
              (mkComment 7 (Some (lit "<p>Nice &amp; short")) (lit "pg") 0 1
                         None (lit "comment"))
              (lit "<p>Nice &amp; short") eq_refl)
    as (prompt & Hp & _ & _ & Hb).
  exists prompt. split; [exact Hp | exact Hb].
Defined.

Lemma replace_all_from_absent c pat rep s :
  ~ In c s -> replace_all_from (c :: pat) rep O s = s.
Proof.
  induction s as [|x r IH]; intros Hc; [reflexivity|].
  cbn [replace_all_from].
  assert (Hx : N.eqb c x = false).
  { apply N.eqb_neq. intros ->. apply Hc. left. reflexivity. }
  assert (Hs : starts_with (c :: pat) (x :: r) = false).
  { unfold starts_with. cbn [strip_prefix]. rewrite Hx. reflexivity. }
  rewrite Hs, IH; [reflexivity|]. intros H. apply Hc. right. exact H.
Qed.

Lemma strip_tags_from_absent s :
  ~ In LT s -> strip_tags_from false s = s.
Proof.
  induction s as [|x r IH]; intros Hc; [reflexivity|].
  cbn [strip_tags_from].
  assert (Hx : N.eqb x LT = false).
  { apply N.eqb_neq. intros ->. apply Hc. left. reflexivity. }
  rewrite Hx. cbn [andb]. rewrite IH; [reflexivity|].
  intros H. apply Hc. right. exact H.
Qed.

(** A text that holds neither [&] nor [<] has no entity and no tag:
    [cleanHtmlText] returns it as it is. *)
Theorem cleanHtmlText_plain text :
  ~ In 38%N text -> ~ In LT text -> cleanHtmlText text = text.
Proof.
  intros Hamp Hlt. unfold cleanHtmlText, replace_all, strip_tags.
  change (lit "&#x27;") with (38%N :: lit "#x27;").
  change (lit "&quot;") with (38%N :: lit "quot;").
  change (lit "&amp;") with (38%N :: lit "amp;").
  change (lit "&lt;") with (38%N :: lit "lt;").
  change (lit "&gt;") with (38%N :: lit "gt;").
  rewrite (@replace_all_from_absent 38%N _ _ text) by exact Hamp.
  rewrite (@replace_all_from_absent 38%N _ _ text) by exact Hamp.
  rewrite (@replace_all_from_absent 38%N _ _ text) by exact Hamp.
  rewrite (@replace_all_from_absent 38%N _ _ text) by exact Hamp.
  rewrite (@replace_all_from_absent 38%N _ _ text) by exact Hamp.
  apply strip_tags_from_absent. exact Hlt.
Qed.

Lemma cleanHtmlText_plain_witness :
  cleanHtmlText (lit "2 > 1; it's fine") = lit "2 > 1; it's fine".
Proof.
  apply cleanHtmlText_plain; vm_compute; intros H;
    repeat (destruct H as [H|H]; [discriminate H|]); exact H.
Defined.

End HackerNews.

(* ================================================================== *)
(** * [JSON.parse] and the values it builds *)
(* ================================================================== *)

Module JSON.

(** A number literal [-? int frac? exp?], kept as the decimal it writes:
    (-1)^neg * mant * 10^exp10.  The Number it denotes is the nearest
    double. *)
Record JNum := mkNum {
  neg : bool;
  mant : N;
  exp10 : Z
}.

Inductive JSValue :=
| JNull
| JBool (b : bool)
| JNumber (n : JNum)
| JString (s : jsstring)
| JArray (l : list JSValue)
| JObject (fields : list (jsstring * JSValue)).

(** Own properties of an object, in creation order. *)
Fixpoint get_own (k : jsstring) (fields : list (jsstring * JSValue))
  : option JSValue :=
  match fields with
  | [] => None
  | (k', v) :: rest => if str_eqb k k' then Some v else get_own k rest
  end.

(** [CreateDataProperty]: a repeated key keeps its place and takes the new
    value. *)
Fixpoint set_own (k : jsstring) (v : JSValue)
    (fields : list (jsstring * JSValue)) : list (jsstring * JSValue) :=
  match fields with
  | [] => [(k, v)]
  | (k', v') :: rest =>
      if str_eqb k k' then (k', v) :: rest else (k', v') :: set_own k v rest
  end.

Inductive presult (A : Type) :=
| POk (a : A) (rest : jsstring)
| PSyntaxError
| POutOfFuel.
Arguments PSyntaxError {A}.
Arguments POutOfFuel {A}.

Definition is_json_ws (c : N) : bool :=
  ((c =? 32) || (c =? 9) || (c =? 10) || (c =? 13))%N.

Fixpoint skip_ws (s : jsstring) : jsstring :=
  match s with
  | c :: r => if is_json_ws c then skip_ws r else s
  | [] => []
  end.

Definition is_digit (c : N) : bool := ((48 <=? c) && (c <=? 57))%N.

Definition hex_val (c : N) : option N :=
  if is_digit c then Some (c - 48)%N
  else if ((65 <=? c) && (c <=? 70))%N then Some (c - 55)%N
  else if ((97 <=? c) && (c <=? 102))%N then Some (c - 87)%N
  else None.

Definition hex4 (a b c d : N) : option N :=
  match hex_val a, hex_val b, hex_val c, hex_val d with
  | Some x, Some y, Some z, Some w => Some (((x * 16 + y) * 16 + z) * 16 + w)%N
  | _, _, _, _ => None
  end.

(** The characters of a string literal, after its opening quote. *)
Fixpoint parse_chars (s : jsstring) (acc : jsstring) : presult jsstring :=
  match s with
  | [] => PSyntaxError
  | c :: r =>
      if (c =? 34)%N then POk (rev acc) r
      else if (c <? 32)%N then PSyntaxError
      else if (c =? 92)%N then
        match r with
        | [] => PSyntaxError
        | e :: r1 =>
            if (e =? 34)%N then parse_chars r1 (34%N :: acc)
            else if (e =? 92)%N then parse_chars r1 (92%N :: acc)
            else if (e =? 47)%N then parse_chars r1 (47%N :: acc)
            else if (e =? 98)%N then parse_chars r1 (8%N :: acc)
            else if (e =? 102)%N then parse_chars r1 (12%N :: acc)
            else if (e =? 110)%N then parse_chars r1 (10%N :: acc)
            else if (e =? 114)%N then parse_chars r1 (13%N :: acc)
            else if (e =? 116)%N then parse_chars r1 (9%N :: acc)
            else if (e =? 117)%N then
              match r1 with
              | h1 :: h2 :: h3 :: h4 :: r2 =>
                  match hex4 h1 h2 h3 h4 with
                  | Some u => parse_chars r2 (u :: acc)
                  | None => PSyntaxError
                  end
              | _ => PSyntaxError
              end
            else PSyntaxError
        end
      else parse_chars r (c :: acc)
  end.

(** A run of digits: its value appended to [acc], how many there were, and
    the rest. *)
Fixpoint parse_digits (s : jsstring) (acc : N) (count : nat)
  : N * nat * jsstring :=
  match s with
  | c :: r =>
      if is_digit c then parse_digits r (acc * 10 + (c - 48))%N (S count)
      else (acc, count, s)
  | [] => (acc, count, [])
  end.

Definition parse_exp (m : N) (frac_len : nat) (sign : bool) (s : jsstring)
  : presult JNum :=
  match s with
  | c :: r =>
      if ((c =? 101) || (c =? 69))%N then
        let '(eneg, r1) :=
          match r with
          | x :: r' =>
              if (x =? 45)%N then (true, r')
              else if (x =? 43)%N then (false, r')
              else (false, r)
          | [] => (false, r)
          end in
        let '(e, n, r2) := parse_digits r1 0%N O in
        match n with
        | O => PSyntaxError
        | S _ =>
            let ez := if eneg then - Z.of_N e else Z.of_N e in
            POk (mkNum sign m (ez - Z.of_nat frac_len)) r2
        end
      else POk (mkNum sign m (- Z.of_nat frac_len)) s
  | [] => POk (mkNum sign m (- Z.of_nat frac_len)) []
  end.

Definition parse_frac (m : N) (sign : bool) (s : jsstring) : presult JNum :=
  match s with
  | c :: r =>
      if (c =? 46)%N then
        let '(m', n, r1) := parse_digits r m O in
        match n with
        | O => PSyntaxError
        | S _ => parse_exp m' n sign r1
        end
      else parse_exp m O sign s
  | [] => parse_exp m O sign []
  end.

(** A number, from its first character on (the sign included). *)
Definition parse_number (s : jsstring) : presult JNum :=
  let '(sign, s1) :=
    match s with
    | c :: r => if (c =? 45)%N then (true, r) else (false, s)
    | [] => (false, s)
    end in
  match s1 with
  | c :: r =>
      if (c =? 48)%N then parse_frac 0%N sign r
      else if is_digit c then
        let '(m, _, r1) := parse_digits s1 0%N O in parse_frac m sign r1
      else PSyntaxError
  | [] => PSyntaxError
  end.

Definition expect (lit_ : jsstring) (v : JSValue) (s : jsstring)
  : presult JSValue :=
  match strip_prefix lit_ s with
  | Some r => POk v r
  | None => PSyntaxError
  end.

(** The grammar of values.  The input is taken up to the end of the value;
    [parse_elements] and [parse_members] start at an element, after the
    opening bracket or a comma. *)
Fixpoint parse_value (fuel : nat) (s : jsstring) : presult JSValue :=
  match fuel with
  | O => POutOfFuel
  | S f =>
      match skip_ws s with
      | [] => PSyntaxError
      | c :: r =>
          if (c =? 123)%N then
            match skip_ws r with
            | c' :: r' =>
                if (c' =? 125)%N then POk (JObject []) r'
                else parse_members f (c' :: r') []
            | [] => PSyntaxError
            end
          else if (c =? 91)%N then
            match skip_ws r with
            | c' :: r' =>
                if (c' =? 93)%N then POk (JArray []) r'
                else parse_elements f (c' :: r') []
            | [] => PSyntaxError
            end
          else if (c =? 34)%N then
            match parse_chars r [] with
            | POk str r' => POk (JString str) r'
            | PSyntaxError => PSyntaxError
            | POutOfFuel => POutOfFuel
            end
          else if (c =? 116)%N then expect (lit "true") (JBool true) (c :: r)
          else if (c =? 102)%N then expect (lit "false") (JBool false) (c :: r)
          else if (c =? 110)%N then expect (lit "null") JNull (c :: r)
          else
            match parse_number (c :: r) with
            | POk n r' => POk (JNumber n) r'
            | PSyntaxError => PSyntaxError
            | POutOfFuel => POutOfFuel
            end
      end
  end

with parse_elements (fuel : nat) (s : jsstring) (acc : list JSValue)
  : presult JSValue :=
  match fuel with
  | O => POutOfFuel
  | S f =>
      match parse_value f s with
      | POk v r =>
          match skip_ws r with
          | c :: r' =>
              if (c =? 44)%N then parse_elements f r' (v :: acc)
              else if (c =? 93)%N then POk (JArray (rev (v :: acc))) r'
              else PSyntaxError
          | [] => PSyntaxError
          end
      | PSyntaxError => PSyntaxError
      | POutOfFuel => POutOfFuel
      end
  end

with parse_members (fuel : nat) (s : jsstring)
    (acc : list (jsstring * JSValue)) : presult JSValue :=
  match fuel with
  | O => POutOfFuel
  | S f =>
      match skip_ws s with
      | q :: r0 =>
          if (q =? 34)%N then
            match parse_chars r0 [] with
            | POk k r1 =>
                match skip_ws r1 with
                | c :: r2 =>
                    if (c =? 58)%N then
                      match parse_value f r2 with
                      | POk v r3 =>
                          match skip_ws r3 with
                          | d :: r4 =>
                              if (d =? 44)%N
                              then parse_members f r4 (set_own k v acc)
                              else if (d =? 125)%N
                              then POk (JObject (set_own k v acc)) r4
                              else PSyntaxError
                          | [] => PSyntaxError
                          end
                      | PSyntaxError => PSyntaxError
                      | POutOfFuel => POutOfFuel
                      end
                    else PSyntaxError
                | [] => PSyntaxError
                end
            | PSyntaxError => PSyntaxError
            | POutOfFuel => POutOfFuel
            end
          else PSyntaxError
      | [] => PSyntaxError
      end
  end.

Definition SyntaxError : jsstring := lit "SyntaxError".
Definition TypeError : jsstring := lit "TypeError".
Definition RangeError : jsstring := lit "RangeError".

(** [JSON.parse(text)]: one value, with nothing but white space after it.
    The fuel is enough for every text (see [JSON_parse_total]). *)
Definition JSON_parse (text : jsstring) : completion JSValue :=
  match parse_value (2 * length text + 1) text with
  | POk v r =>
      match skip_ws r with
      | [] => Normal v
      | _ :: _ => Throw SyntaxError
      end
  | PSyntaxError => Throw SyntaxError
  | POutOfFuel => Throw RangeError
  end.

(** The integer a literal denotes, when it is one that a Number holds
    exactly (at most 2^53 - 1 in absolute value). *)
Definition MAX_SAFE_INTEGER : N := 9007199254740991.

Definition safe_int (n : JNum) : option Z :=
  let signed (v : N) := if neg n then - Z.of_N v else Z.of_N v in
  if (mant n =? 0)%N then Some 0
  else if 0 <=? exp10 n then
    if exp10 n <=? 15 then
      let v := (mant n * 10 ^ Z.to_N (exp10 n))%N in
      if (v <=? MAX_SAFE_INTEGER)%N then Some (signed v) else None
    else None
  else
    let k := Z.to_N (- exp10 n) in
    if (k <=? N.log2 (mant n) + 1)%N then
      if (mant n mod 10 ^ k =? 0)%N then
        let v := (mant n / 10 ^ k)%N in
        if (v <=? MAX_SAFE_INTEGER)%N then Some (signed v) else None
      else None
    else None.

Section Values.

(** Floating point is not modelled.  For the literals that do not denote
    a safe integer, the digits that [Number.prototype.toString] prints and
    whether the literal rounds to zero are left to these two functions. *)
Variable dtoa : JNum -> jsstring.
Variable rounds_to_zero : JNum -> bool.

Definition Number_toString (n : JNum) : jsstring :=
  match safe_int n with
  | Some z => Z_toString z
  | None => dtoa n
  end.

Definition Number_isZero (n : JNum) : bool :=
  match safe_int n with
  | Some z => z =? 0
  | None => rounds_to_zero n
  end.

(** [ToBoolean], with [None] for [undefined]. *)
Definition truthy (v : option JSValue) : bool :=
  match v with
  | None => false
  | Some JNull => false
  | Some (JBool b) => b
  | Some (JNumber n) => negb (Number_isZero n)
  | Some (JString []) => false
  | Some (JString (_ :: _)) => true
  | Some (JArray _) => true
  | Some (JObject _) => true
  end.

(** [v.name] on a value built by [JSON.parse], for a name that none of the
    built-in prototypes defines: an own property of an object, [undefined]
    on the other values, and a [TypeError] on [null]. *)
Definition get_property (v : JSValue) (name : jsstring)
  : completion (option JSValue) :=
  match v with
  | JNull => Throw TypeError
  | JObject fields => Normal (get_own name fields)
  | _ => Normal None
  end.

(** [v.toString()].  An own property [toString] of a parsed object is never
    a function; [Array.prototype.join] prints [null] as the empty string
    and the other elements as their string conversion would. *)
Fixpoint toString (v : JSValue) : completion jsstring :=
  match v with
  | JNull => Throw TypeError
  | JBool true => Normal (lit "true")
  | JBool false => Normal (lit "false")
  | JNumber n => Normal (Number_toString n)
  | JString s => Normal s
  | JArray l =>
      let fix elements (l : list JSValue) : completion (list jsstring) :=
        match l with
        | [] => Normal []
        | x :: rest =>
            try! a <- match x with
                      | JNull => Normal []
                      | _ => toString x
                      end;
            try! b <- elements rest;
            Normal (a :: b)
        end in
      try! parts <- elements l;
      Normal (join (lit ",") parts)
  | JObject fields =>
      match get_own (lit "toString") fields with
      | Some _ => Throw TypeError
      | None => Normal (lit "[object Object]")
      end
  end.

End Values.

(** ** The parser terminates: the fuel of [JSON_parse] is never used up *)

Local Open Scope nat_scope.

Lemma skip_ws_length s : length (skip_ws s) <= length s.
Proof.
  induction s as [|c r IH]; simpl; [lia|].
  destruct (is_json_ws c); simpl; lia.
Qed.

Lemma strip_prefix_length p : forall s r,
  strip_prefix p s = Some r -> length s = length p + length r.
Proof.
  induction p as [|x p IH]; intros [|y s] r; simpl; intros H;
    try discriminate; try (injection H as <-; reflexivity).
  destruct (x =? y)%N; [|discriminate].
  rewrite (IH _ _ H). reflexivity.
Qed.

Lemma parse_chars_consumes n : forall s acc,
  length s <= n ->
  parse_chars s acc <> POutOfFuel /\
  forall str r, parse_chars s acc = POk str r -> length r < length s.
Proof.
  induction n as [|n IH]; intros [|c r] acc Hn; simpl in Hn; try lia;
    try (simpl; split; [discriminate | intros ? ? H; discriminate H]).
  cbn [parse_chars].
  destruct (c =? 34)%N.
  { split; [discriminate|]. intros ? ? H. injection H as _ <-. simpl; lia. }
  destruct (c <? 32)%N;
    [split; [discriminate | intros ? ? H; discriminate H]|].
  destruct (c =? 92)%N.
  2:{ destruct (IH r (c :: acc)) as [H1 H2]; [lia|].
      split; [exact H1|]. intros str r' H. apply H2 in H. simpl; lia. }
  destruct r as [|e r1];
    [split; [discriminate | intros ? ? H; discriminate H]|].
  simpl in Hn.
  assert (Hstep : forall a,
            parse_chars r1 a <> POutOfFuel /\
            forall str r', parse_chars r1 a = POk str r' ->
                           length r' < length (c :: e :: r1)).
  { intros a. destruct (IH r1 a) as [H1 H2]; [lia|].
    split; [exact H1|]. intros str r' H. apply H2 in H. simpl; lia. }
  repeat match goal with
         | |- context [if ?b then _ else _] =>
             destruct b; [apply Hstep|]
         end.
  destruct (e =? 117)%N;
    [|split; [discriminate | intros ? ? H; discriminate H]].
  destruct r1 as [|h1 [|h2 [|h3 [|h4 r2]]]];
    try (split; [discriminate | intros ? ? H; discriminate H]).
  destruct (hex4 h1 h2 h3 h4);
    [|split; [discriminate | intros ? ? H; discriminate H]].
  simpl in Hn.
  destruct (IH r2 (n0 :: acc)) as [H1 H2]; [lia|].
  split; [exact H1|]. intros str r' H. apply H2 in H. simpl; lia.
Qed.

Lemma parse_digits_length s : forall acc c,
  length (snd (parse_digits s acc c)) <= length s.
Proof.
  induction s as [|x r IH]; intros acc c; simpl; [lia|].
  destruct (is_digit x); simpl; [|lia].
  specialize (IH (acc * 10 + (x - 48))%N (S c)). lia.
Qed.

Ltac stuck := split; [discriminate | intros ? ? H; discriminate H].

Lemma parse_exp_consumes m fl sign s :
  parse_exp m fl sign s <> POutOfFuel /\
  forall n r, parse_exp m fl sign s = POk n r -> length r <= length s.
Proof.
  unfold parse_exp. destruct s as [|c r].
  - split; [discriminate|]. intros ? ? H; injection H as _ <-. lia.
  - destruct ((c =? 101) || (c =? 69))%N.
    2:{ split; [discriminate|]. intros ? ? H; injection H as _ <-. lia. }
    set (sr := match r with
               | [] => (false, r)
               | x :: r' => if (x =? 45)%N then (true, r')
                            else if (x =? 43)%N then (false, r')
                            else (false, r)
               end).
    assert (Hsr : length (snd sr) <= length r).
    { subst sr. destruct r as [|x r']; simpl; [lia|].
      destruct (x =? 45)%N; simpl; [lia|].
      destruct (x =? 43)%N; simpl; lia. }
    destruct sr as [eneg r1]. simpl in Hsr.
    pose proof (parse_digits_length r1 0%N O) as Hd.
    destruct (parse_digits r1 0%N O) as [[e n] r2]. simpl in Hd.
    destruct n; [stuck|].
    split; [discriminate|]. intros ? ? H; injection H as _ <-. simpl; lia.
Qed.

Lemma parse_frac_consumes m sign s :
  parse_frac m sign s <> POutOfFuel /\
  forall n r, parse_frac m sign s = POk n r -> length r <= length s.
Proof.
  unfold parse_frac. destruct s as [|c r].
  - apply parse_exp_consumes.
  - destruct (c =? 46)%N; [|apply parse_exp_consumes].
    pose proof (parse_digits_length r m O) as Hd.
    destruct (parse_digits r m O) as [[m' n] r1]. simpl in Hd.
    destruct n; [stuck|].
    destruct (parse_exp_consumes m' (S n) sign r1) as [H1 H2].
    split; [exact H1|]. intros k r' H. apply H2 in H. simpl; lia.
Qed.

Lemma parse_number_consumes s :
  parse_number s <> POutOfFuel /\
  forall n r, parse_number s = POk n r -> length r < length s.
Proof.
  unfold parse_number.
  set (ss := match s with
             | [] => (false, s)
             | c :: r => if (c =? 45)%N then (true, r) else (false, s)
             end).
  assert (Hss : length (snd ss) <= length s).
  { subst ss. destruct s as [|c r]; simpl; [lia|].
    destruct (c =? 45)%N; simpl; lia. }
  destruct ss as [sign s1]. simpl in Hss.
  destruct s1 as [|c r]; [stuck|].
  simpl in Hss.
  destruct (c =? 48)%N.
  - destruct (parse_frac_consumes 0%N sign r) as [H1 H2].
    split; [exact H1|]. intros k r' H. apply H2 in H. lia.
  - destruct (is_digit c) eqn:Hc; [|stuck].
    pose proof (parse_digits_length (c :: r) 0%N O) as Hd.
    cbn [parse_digits] in *. rewrite Hc in *.
    pose proof (parse_digits_length r (0 * 10 + (c - 48))%N 1) as Hd'.
    destruct (parse_digits r (0 * 10 + (c - 48))%N 1) as [[m k0] r1].
    simpl in Hd'.
    destruct (parse_frac_consumes m sign r1) as [H1 H2].
    split; [exact H1|]. intros k r' H. apply H2 in H. lia.
Qed.

Lemma expect_consumes l v s :
  l <> [] ->
  expect l v s <> POutOfFuel /\
  forall v' r, expect l v s = POk v' r -> length r < length s.
Proof.
  intros Hl. unfold expect.
  destruct (strip_prefix l s) as [r|] eqn:E; [|stuck].
  split; [discriminate|]. intros ? ? H; injection H as _ <-.
  apply strip_prefix_length in E. destruct l; [congruence|]. simpl in E. lia.
Qed.

(** Whatever the fuel, a value that is parsed takes at least one code unit
    of the input. *)
Lemma parse_consumes fuel :
  (forall s v r, parse_value fuel s = POk v r -> length r < length s) /\
  (forall s acc v r, parse_elements fuel s acc = POk v r ->
                     length r < length s) /\
  (forall s acc v r, parse_members fuel s acc = POk v r ->
                     length r < length s).
Proof.
  induction fuel as [|f (IHv & IHe & IHm)].
  - repeat split; intros; discriminate.
  - split; [|split].
    + intros s v r. cbn [parse_value].
      pose proof (skip_ws_length s) as Hws.
      destruct (skip_ws s) as [|c r0]; [discriminate|]. simpl in Hws.
      destruct (c =? 123)%N.
      { pose proof (skip_ws_length r0) as Hws'.
        destruct (skip_ws r0) as [|c' r']; [discriminate|]. simpl in Hws'.
        destruct (c' =? 125)%N.
        - intros H; injection H as _ <-. lia.
        - intros H. apply IHm in H. simpl in H. lia. }
      destruct (c =? 91)%N.
      { pose proof (skip_ws_length r0) as Hws'.
        destruct (skip_ws r0) as [|c' r']; [discriminate|]. simpl in Hws'.
        destruct (c' =? 93)%N.
        - intros H; injection H as _ <-. lia.
        - intros H. apply IHe in H. simpl in H. lia. }
      destruct (c =? 34)%N.
      { destruct (@parse_chars_consumes (length r0) r0 [] (le_n _))
          as [_ H2].
        destruct (parse_chars r0 []) as [str r'| |] eqn:E; try discriminate.
        intros H; injection H as _ <-. specialize (H2 _ _ eq_refl). lia. }
      destruct (c =? 116)%N.
      { intros H. apply expect_consumes in H; [simpl in H; lia|discriminate]. }
      destruct (c =? 102)%N.
      { intros H. apply expect_consumes in H; [simpl in H; lia|discriminate]. }
      destruct (c =? 110)%N.
      { intros H. apply expect_consumes in H; [simpl in H; lia|discriminate]. }
      destruct (parse_number_consumes (c :: r0)) as [_ H2].
      destruct (parse_number (c :: r0)) as [n r'| |] eqn:E; try discriminate.
      intros H; injection H as _ <-. specialize (H2 _ _ eq_refl).
      simpl in H2. lia.
    + intros s acc v r. cbn [parse_elements].
      destruct (parse_value f s) as [v0 r0| |] eqn:E; try discriminate.
      apply IHv in E.
      pose proof (skip_ws_length r0) as Hws.
      destruct (skip_ws r0) as [|c r1]; [discriminate|]. simpl in Hws.
      destruct (c =? 44)%N.
      { intros H. apply IHe in H. lia. }
      destruct (c =? 93)%N; [|discriminate].
      intros H; injection H as _ <-. lia.
    + intros s acc v r. cbn [parse_members].
      pose proof (skip_ws_length s) as Hws.
      destruct (skip_ws s) as [|q r0]; [discriminate|]. simpl in Hws.
      destruct (q =? 34)%N; [|discriminate].
      destruct (@parse_chars_consumes (length r0) r0 [] (le_n _))
        as [_ H2].
      destruct (parse_chars r0 []) as [k r1| |] eqn:Ek; try discriminate.
      specialize (H2 _ _ eq_refl).
      pose proof (skip_ws_length r1) as Hws1.
      destruct (skip_ws r1) as [|c r2]; [discriminate|]. simpl in Hws1.
      destruct (c =? 58)%N; [|discriminate].
      destruct (parse_value f r2) as [v0 r3| |] eqn:E; try discriminate.
      apply IHv in E.
      pose proof (skip_ws_length r3) as Hws3.
      destruct (skip_ws r3) as [|d r4]; [discriminate|]. simpl in Hws3.
      destruct (d =? 44)%N.
      { intros H. apply IHm in H. lia. }
      destruct (d =? 125)%N; [|discriminate].
      intros H; injection H as _ <-. lia.
Qed.

(** With more fuel than twice the length of the input, no parser runs out
    of fuel. *)
Lemma parse_fuel fuel :
  (forall s, 2 * length s < fuel -> parse_value fuel s <> POutOfFuel) /\
  (forall s acc, 2 * length s + 1 < fuel ->
                 parse_elements fuel s acc <> POutOfFuel) /\
  (forall s acc, 2 * length s + 1 < fuel ->
                 parse_members fuel s acc <> POutOfFuel).
Proof.
  induction fuel as [|f (IHv & IHe & IHm)].
  - repeat split; intros; lia.
  - destruct (parse_consumes f) as (Cv & Ce & Cm).
    split; [|split].
    + intros s Hf. cbn [parse_value].
      pose proof (skip_ws_length s) as Hws.
      destruct (skip_ws s) as [|c r0]; [discriminate|]. simpl in Hws.
      destruct (c =? 123)%N.
      { pose proof (skip_ws_length r0) as Hws'.
        destruct (skip_ws r0) as [|c' r']; [discriminate|]. simpl in Hws'.
        destruct (c' =? 125)%N; [discriminate|].
        apply IHm. simpl. lia. }
      destruct (c =? 91)%N.
      { pose proof (skip_ws_length r0) as Hws'.
        destruct (skip_ws r0) as [|c' r']; [discriminate|]. simpl in Hws'.
        destruct (c' =? 93)%N; [discriminate|].
        apply IHe. simpl. lia. }
      destruct (c =? 34)%N.
      { destruct (@parse_chars_consumes (length r0) r0 [] (le_n _))
          as [H1 _].
        destruct (parse_chars r0 []); [discriminate|discriminate|congruence]. }
      destruct (c =? 116)%N; [apply expect_consumes; discriminate|].
      destruct (c =? 102)%N; [apply expect_consumes; discriminate|].
      destruct (c =? 110)%N; [apply expect_consumes; discriminate|].
      destruct (parse_number_consumes (c :: r0)) as [H1 _].
      destruct (parse_number (c :: r0));
        [discriminate|discriminate|congruence].
    + intros s acc Hf. cbn [parse_elements].
      specialize (IHv s ltac:(lia)).
      destruct (parse_value f s) as [v0 r0| |] eqn:E;
        [|discriminate|congruence].
      apply Cv in E.
      pose proof (skip_ws_length r0) as Hws.
      destruct (skip_ws r0) as [|c r1]; [discriminate|]. simpl in Hws.
      destruct (c =? 44)%N; [apply IHe; lia|].
      destruct (c =? 93)%N; discriminate.
    + intros s acc Hf. cbn [parse_members].
      pose proof (skip_ws_length s) as Hws.
      destruct (skip_ws s) as [|q r0]; [discriminate|]. simpl in Hws.
      destruct (q =? 34)%N; [|discriminate].
      destruct (@parse_chars_consumes (length r0) r0 [] (le_n _))
        as [H1 H2].
      destruct (parse_chars r0 []) as [k r1| |] eqn:Ek;
        [|discriminate|congruence].
      specialize (H2 _ _ eq_refl).
      pose proof (skip_ws_length r1) as Hws1.
      destruct (skip_ws r1) as [|c r2]; [discriminate|]. simpl in Hws1.
      destruct (c =? 58)%N; [|discriminate].
      specialize (IHv r2 ltac:(lia)).
      destruct (parse_value f r2) as [v0 r3| |] eqn:E;
        [|discriminate|congruence].
      apply Cv in E.
      pose proof (skip_ws_length r3) as Hws3.
      destruct (skip_ws r3) as [|d r4]; [discriminate|]. simpl in Hws3.
      destruct (d =? 44)%N; [apply IHm; lia|].
      destruct (d =? 125)%N; discriminate.
Qed.

(** [JSON.parse] returns a value or throws a [SyntaxError]. *)
Lemma JSON_parse_total text :
  (exists v, JSON_parse text = Normal v) \/
  JSON_parse text = Throw SyntaxError.
Proof.
  unfold JSON_parse.
  destruct (parse_fuel (2 * length text + 1)) as (Hv & _ & _).
  specialize (Hv text ltac:(lia)).
  destruct (parse_value (2 * length text + 1) text) as [v r| |];
    [|right; reflexivity|congruence].
  destruct (skip_ws r); [left; exists v; reflexivity | right; reflexivity].
Qed.

End JSON.

(* ================================================================== *)
(** * The rest of the runtime: sorting, URI encoding, HMAC-SHA1, base64 *)
(* ================================================================== *)

Module Runtime.

(** ** [Array.prototype.sort] without a comparator, on strings.  The sort
    is stable; an insertion sort from the right is. *)
Fixpoint insert (x : jsstring) (l : list jsstring) : list jsstring :=
  match l with
  | [] => [x]
  | y :: r => if str_leb x y then x :: l else y :: insert x r
  end.

Definition sort (l : list jsstring) : list jsstring :=
  fold_right insert [] l.

(** ** UTF-16 decoding and UTF-8 encoding *)
Definition is_high_surrogate (u : N) : bool :=
  ((55296 <=? u) && (u <=? 56319))%N.
Definition is_low_surrogate (u : N) : bool :=
  ((56320 <=? u) && (u <=? 57343))%N.

(** The code points of a string; [None] stands for an unpaired surrogate. *)
Fixpoint code_points (s : jsstring) : list (option N) :=
  match s with
  | [] => []
  | u :: r =>
      if is_high_surrogate u then
        match r with
        | v :: r' =>
            if is_low_surrogate v
            then Some (65536 + (u - 55296) * 1024 + (v - 56320))%N
                   :: code_points r'
            else None :: code_points r
        | [] => [None]
        end
      else if is_low_surrogate u then None :: code_points r
      else Some u :: code_points r
  end.

Definition utf8 (cp : N) : list N :=
  (if cp <? 128 then [cp]
   else if cp <? 2048 then [192 + cp / 64; 128 + cp mod 64]
   else if cp <? 65536 then
     [224 + cp / 4096; 128 + (cp / 64) mod 64; 128 + cp mod 64]
   else
     [240 + cp / 262144; 128 + (cp / 4096) mod 64;
      128 + (cp / 64) mod 64; 128 + cp mod 64])%N.

(** [new TextEncoder().encode(s)]: an unpaired surrogate becomes U+FFFD. *)
Definition TextEncoder_encode (s : jsstring) : list N :=
  flat_map (fun c => utf8 (match c with Some cp => cp | None => 65533%N end))
           (code_points s).

(** ** [encodeURIComponent] *)
Definition is_alnum (c : N) : bool :=
  ((48 <=? c) && (c <=? 57) || (65 <=? c) && (c <=? 90) ||
   (97 <=? c) && (c <=? 122))%N.

(** [A-Z a-z 0-9 - _ . ! ~ * ' ( )] *)
Definition uri_unreserved (c : N) : bool :=
  is_alnum c ||
  existsb (N.eqb c) [45; 95; 46; 33; 126; 42; 39; 40; 41]%N.

Definition hex_upper (d : N) : N := (if d <? 10 then 48 + d else 55 + d)%N.
Definition hex_lower (d : N) : N := (if d <? 10 then 48 + d else 87 + d)%N.

Definition percent (b : N) : jsstring :=
  [37%N; hex_upper (b / 16); hex_upper (b mod 16)].

Definition URIError : jsstring := lit "URIError".

Fixpoint encode_points (l : list (option N)) : completion jsstring :=
  match l with
  | [] => Normal []
  | None :: _ => Throw URIError
  | Some cp :: r =>
      try! rest <- encode_points r;
      Normal ((if uri_unreserved cp then [cp] else flat_map percent (utf8 cp))
              ++ rest)
  end.

Definition encodeURIComponent (s : jsstring) : completion jsstring :=
  encode_points (code_points s).

(** ** SHA-1 on bytes, with 32-bit words as [N] *)
Definition w32 (x : N) : N := (x mod 4294967296)%N.

Definition rotl (n : N) (x : N) : N :=
  w32 (N.lor (N.shiftl x n) (N.shiftr x (32 - n))).

Definition sha1_pad (msg : list N) : list N :=
  let len := length msg in
  let zeros := ((64 - (len + 9) mod 64) mod 64)%nat in
  let bits := (8 * N.of_nat len)%N in
  msg ++ [128%N] ++ repeat 0%N zeros ++
  List.map (fun i => (N.shiftr bits (8 * i)) mod 256)%N [7; 6; 5; 4; 3; 2; 1; 0]%N.

Fixpoint words_of (bytes : list N) : list N :=
  match bytes with
  | a :: b :: c :: d :: r =>
      (((a * 256 + b) * 256 + c) * 256 + d)%N :: words_of r
  | _ => []
  end.

Definition bytes_of_word (w : N) : list N :=
  [(w / 16777216) mod 256; (w / 65536) mod 256; (w / 256) mod 256;
   w mod 256]%N.

(** The message schedule, most recent word first. *)
Fixpoint sha1_expand (n : nat) (r : list N) : list N :=
  match n with
  | O => r
  | S k =>
      let w := rotl 1 (N.lxor (N.lxor (nth 2 r 0%N) (nth 7 r 0%N))
                              (N.lxor (nth 13 r 0%N) (nth 15 r 0%N))) in
      sha1_expand k (w :: r)
  end.

Definition sha1_f (t : nat) (b c d : N) : N :=
  if (t <? 20)%nat then
    N.lor (N.land b c) (N.land (N.lxor b 4294967295) d)
  else if (t <? 40)%nat then N.lxor (N.lxor b c) d
  else if (t <? 60)%nat then
    N.lor (N.lor (N.land b c) (N.land b d)) (N.land c d)
  else N.lxor (N.lxor b c) d.

Definition sha1_k (t : nat) : N :=
  if (t <? 20)%nat then 1518500249%N
  else if (t <? 40)%nat then 1859775393%N
  else if (t <? 60)%nat then 2400959708%N
  else 3395469782%N.

Definition sha1_state := (N * N * N * N * N)%type.

Definition sha1_round (st : sha1_state) (tw : nat * N) : sha1_state :=
  let '(a, b, c, d, e) := st in
  let '(t, w) := tw in
  let temp := w32 (rotl 5 a + sha1_f t b c d + e + sha1_k t + w) in
  (temp, a, rotl 30 b, c, d).

Definition sha1_compress (h : sha1_state) (block : list N) : sha1_state :=
  let ws := rev (sha1_expand 64 (rev block)) in
  let '(a, b, c, d, e) := fold_left sha1_round (combine (seq 0 80) ws) h in
  let '(h0, h1, h2, h3, h4) := h in
  (w32 (h0 + a), w32 (h1 + b), w32 (h2 + c), w32 (h3 + d), w32 (h4 + e)).

Fixpoint sha1_blocks (fuel : nat) (h : sha1_state) (ws : list N)
  : sha1_state :=
  match fuel, ws with
  | S f, _ :: _ => sha1_blocks f (sha1_compress h (firstn 16 ws)) (skipn 16 ws)
  | _, _ => h
  end.

Definition sha1 (msg : list N) : list N :=
  let ws := words_of (sha1_pad msg) in
  let '(h0, h1, h2, h3, h4) :=
    sha1_blocks (length ws)
      (1732584193, 4023233417, 2562383102, 271733878, 3285377520)%N ws in
  flat_map bytes_of_word [h0; h1; h2; h3; h4].

(** [crypto.subtle.sign('HMAC', key, message)] for a SHA-1 key. *)
Definition hmac_sha1 (key msg : list N) : list N :=
  let k0 := if (64 <? length key)%nat then sha1 key else key in
  let k := k0 ++ repeat 0%N (64 - length k0) in
  let ipad := List.map (N.lxor 54) k in
  let opad := List.map (N.lxor 92) k in
  sha1 (opad ++ sha1 (ipad ++ msg)).

(** ** [btoa] *)
Definition base64_char (i : N) : N :=
  (if i <? 26 then 65 + i
   else if i <? 52 then 97 + (i - 26)
   else if i <? 62 then 48 + (i - 52)
   else if i =? 62 then 43 else 47)%N.

Fixpoint base64 (bytes : list N) : jsstring :=
  match bytes with
  | [] => []
  | [a] =>
      [base64_char (a / 4); base64_char ((a mod 4) * 16); 61; 61]%N
  | [a; b] =>
      [base64_char (a / 4); base64_char ((a mod 4) * 16 + b / 16);
       base64_char ((b mod 16) * 4); 61]%N
  | a :: b :: c :: r =>
      [base64_char (a / 4); base64_char ((a mod 4) * 16 + b / 16);
       base64_char ((b mod 16) * 4 + c / 64); base64_char (c mod 64)]%N
      ++ base64 r
  end.

Definition InvalidCharacterError : jsstring := lit "InvalidCharacterError".

Definition btoa (binary : jsstring) : completion jsstring :=
  if forallb (fun c => c <=? 255)%N binary then Normal (base64 binary)
  else Throw InvalidCharacterError.

(** ** The order of the sort *)
Definition str_le (a b : jsstring) : Prop := str_leb a b = true.

Lemma str_leb_refl a : str_leb a a = true.
Proof.
  induction a as [|x a IH]; simpl; [reflexivity|].
  rewrite N.ltb_irrefl, N.eqb_refl. exact IH.
Qed.

Lemma str_leb_total a b : str_leb a b = true \/ str_leb b a = true.
Proof.
  revert b; induction a as [|x a IH]; intros [|y b]; simpl; auto.
  destruct (N.ltb_spec x y) as [Hxy|Hxy]; [left; reflexivity|].
  destruct (N.ltb_spec y x) as [Hyx|Hyx]; [right; reflexivity|].
  assert (x = y) by lia. subst y. rewrite N.eqb_refl. apply IH.
Qed.

Lemma str_leb_antisym a b :
  str_leb a b = true -> str_leb b a = true -> a = b.
Proof.
  revert b; induction a as [|x a IH]; intros [|y b]; simpl;
    try discriminate; [reflexivity|].
  destruct (N.ltb_spec x y) as [Hxy|Hxy].
  - destruct (N.ltb_spec y x) as [Hyx|Hyx]; [lia|].
    destruct (N.eqb_spec y x); [lia | discriminate].
  - destruct (N.eqb_spec x y) as [->|Hne]; [|discriminate].
    rewrite N.ltb_irrefl, N.eqb_refl. intros H1 H2.
    f_equal. apply IH; assumption.
Qed.

Lemma str_leb_trans a b c :
  str_leb a b = true -> str_leb b c = true -> str_leb a c = true.
Proof.
  revert b c; induction a as [|x a IH]; intros [|y b] [|z c]; simpl;
    try discriminate; try reflexivity.
  destruct (N.ltb_spec x y) as [Hxy|Hxy].
  - intros _. destruct (N.ltb_spec y z) as [Hyz|Hyz].
    + intros _. replace (x <? z)%N with true; [reflexivity|].
      symmetry; apply N.ltb_lt; lia.
    + destruct (N.eqb_spec y z) as [->|]; [|discriminate].
      intros _. replace (x <? z)%N with true; [reflexivity|].
      symmetry; apply N.ltb_lt; lia.
  - destruct (N.eqb_spec x y) as [->|]; [|discriminate].
    intros Hab. destruct (N.ltb_spec y z) as [Hyz|Hyz]; [reflexivity|].
    destruct (N.eqb_spec y z) as [->|]; [|discriminate].
    apply IH; assumption.
Qed.

Lemma insert_perm x l : Permutation (insert x l) (x :: l).
Proof.
  induction l as [|y r IH]; simpl; [reflexivity|].
  destruct (str_leb x y); [reflexivity|].
  rewrite IH. apply perm_swap.
Qed.

Lemma sort_perm l : Permutation (sort l) l.
Proof.
  induction l as [|x l IH]; simpl; [reflexivity|].
  rewrite insert_perm, IH. reflexivity.
Qed.

Lemma insert_sorted x l :
  StronglySorted str_le l -> StronglySorted str_le (insert x l).
Proof.
  induction 1 as [|y r Hs IH Hall]; simpl.
  - repeat constructor.
  - destruct (str_leb x y) eqn:E.
    + constructor; [constructor; assumption|].
      constructor; [exact E|].
      eapply Forall_impl; [|exact Hall].
      intros z Hz. eapply str_leb_trans; eassumption.
    + constructor; [exact IH|].
      apply (Permutation_Forall (Permutation_sym (insert_perm x r))).
      constructor; [|exact Hall].
      destruct (str_leb_total x y) as [H|H]; [congruence | exact H].
Qed.

Lemma sort_sorted l : StronglySorted str_le (sort l).
Proof.
  induction l as [|x l IH]; simpl; [constructor|].
  apply insert_sorted; exact IH.
Qed.

(** A list has one sorted arrangement. *)
Lemma sorted_perm_eq l1 : forall l2,
  StronglySorted str_le l1 -> StronglySorted str_le l2 ->
  Permutation l1 l2 -> l1 = l2.
Proof.
  induction l1 as [|a l1 IH]; intros l2 H1 H2 HP.
  - apply Permutation_nil in HP. congruence.
  - destruct l2 as [|b l2].
    + apply Permutation_sym, Permutation_nil in HP. discriminate.
    + inversion H1 as [|? ? Hs1 Ha]; subst.
      inversion H2 as [|? ? Hs2 Hb]; subst.
      assert (Hab : a = b).
      { assert (In a (b :: l2))
          by (eapply Permutation_in; [exact HP | left; reflexivity]).
        assert (In b (a :: l1))
          by (eapply Permutation_in;
              [apply Permutation_sym; exact HP | left; reflexivity]).
        rewrite Forall_forall in Ha, Hb.
        destruct H as [->|Hin]; [reflexivity|].
        destruct H0 as [->|Hin']; [reflexivity|].
        apply str_leb_antisym; [apply Ha | apply Hb]; assumption. }
      subst b. f_equal. apply IH; try assumption.
      eapply Permutation_cons_inv; exact HP.
Qed.

Lemma sort_Permutation l l' : Permutation l l' -> sort l = sort l'.
Proof.
  intros HP. apply sorted_perm_eq; try apply sort_sorted.
  rewrite !sort_perm. exact HP.
Qed.

End Runtime.

(* ================================================================== *)
(** * The Twitter service: parser, signer and publisher *)
(* ================================================================== *)

Module TwitterService.

Import JSON Runtime.

(** The [Env] interface.  An absent variable is [None]; [env] itself may
    be [undefined]. *)
Record Env := mkEnv {
  OPENAI_API_KEY : option jsstring;
  OPENAI_MODEL : option jsstring;
  TG_BOT_TOKEN : option jsstring;
  TG_CHAT_ID : option jsstring;
  TWITTER_CONSUMER_KEY : option jsstring;
  TWITTER_CONSUMER_SECRET : option jsstring;
  TWITTER_ACCESS_TOKEN : option jsstring;
  TWITTER_ACCESS_SECRET : option jsstring
}.

(** [env?.NAME] *)
Definition env_get (f : Env -> option jsstring) (env : option Env)
  : option jsstring :=
  match env with
  | Some e => f e
  | None => None
  end.

(** [!x] on a string that may be [undefined]. *)
Definition missing (x : option jsstring) : bool :=
  match x with
  | Some (_ :: _) => false
  | _ => true
  end.

(** A plain object with string values, as the list of its properties in
    creation order. *)
Definition Object := list (jsstring * jsstring).

Definition keys (o : Object) : list jsstring := List.map fst o.

Fixpoint get (o : Object) (key : jsstring) : option jsstring :=
  match o with
  | [] => None
  | (k, v) :: rest => if str_eqb key k then Some v else get rest key
  end.

(** [o[key] = v] *)
Fixpoint set (o : Object) (key v : jsstring) : Object :=
  match o with
  | [] => [(key, v)]
  | (k, v') :: rest =>
      if str_eqb key k then (k, v) :: rest else (k, v') :: set rest key v
  end.

(** [String(x)] *)
Definition String_ (x : option jsstring) : jsstring :=
  match x with
  | Some s => s
  | None => lit "undefined"
  end.

(** [Array.prototype.map] with a callback that may throw. *)
Fixpoint mapC {A B} (f : A -> completion B) (l : list A)
  : completion (list B) :=
  match l with
  | [] => Normal []
  | x :: rest =>
      try! y <- f x;
      try! ys <- mapC f rest;
      Normal (y :: ys)
  end.

(** What a request carries, and what comes back. *)
Record Request := mkRequest {
  req_url : jsstring;
  req_method : jsstring;
  req_headers : Object;
  req_body : JSValue  (* the value handed to [JSON.stringify] *)
}.

Inductive FetchResult :=
| NetworkError
| Response (ok : bool) (body : jsstring).

(** The host of one call: the clock, the bytes that
    [crypto.getRandomValues] writes, and the network. *)
Record Host := mkHost {
  clock : Z;
  random_bytes : list N;
  fetch : Request -> FetchResult
}.

Inductive Event :=
| EvSign (key message : list N)
| EvFetch (req : Request)
| EvLog (msg : jsstring)
| EvError (msg : jsstring).

(** Statements that log, call out, and may throw: the trace written so
    far, and how the statements completed. *)
Definition Eff (A : Type) := (list Event * completion A)%type.

Definition ret {A} (a : A) : Eff A := ([], Normal a).

Definition bind {A B} (m : Eff A) (k : A -> Eff B) : Eff B :=
  match m with
  | (t, Normal a) => let (t', r) := k a in (t ++ t', r)
  | (t, Throw e) => (t, Throw e)
  end.

Definition emit (e : Event) : Eff unit := ([e], Normal tt).

Definition lift {A} (c : completion A) : Eff A := ([], c).

Definition throw {A} (e : jsstring) : Eff A := ([], Throw e).

(** [try { m } catch (error) { handler }] *)
Definition try_catch {A} (m : Eff A) (handler : jsstring -> Eff A) : Eff A :=
  match m with
  | (t, Normal a) => (t, Normal a)
  | (t, Throw e) => let (t', r) := handler e in (t ++ t', r)
  end.

Notation "x <~ m ; k" := (bind m (fun x => k))
  (at level 10, m at level 100, k at level 200).
Notation "'do' m ; k" := (bind m (fun _ => k))
  (at level 10, m at level 100, k at level 200).

Definition trace_of {A} (m : Eff A) : list Event := fst m.
Definition result_of {A} (m : Eff A) : completion A := snd m.

Definition DataError : jsstring := lit "DataError".

(** [crypto.subtle.importKey('raw', keyData, { name: 'HMAC', hash: 'SHA-1' },
    false, ['sign'])]: the key holds the bytes it was given; key data of
    length zero is refused. *)
Definition importKey (keyData : list N) : completion (list N) :=
  match keyData with
  | [] => Throw DataError
  | _ :: _ => Normal keyData
  end.

(** [createOAuthSignature] *)
Definition createOAuthSignature (signingKey baseString : jsstring)
  : Eff jsstring :=
  let keyData := TextEncoder_encode signingKey in
  let messageData := TextEncoder_encode baseString in
  cryptoKey <~ lift (importKey keyData);
  do emit (EvSign cryptoKey messageData);
  let signatureArray := hmac_sha1 cryptoKey messageData in
  lift (btoa signatureArray).

(** [generateNonce], from the 32 bytes that the host writes. *)
Definition generateNonce (random : list N) : jsstring :=
  firstn 32
    (flat_map (fun byte => [hex_lower (byte / 16); hex_lower (byte mod 16)]%N)
              (firstn 32 random)).

(** [escapeTelegramMarkdown] *)
Definition specialCharacters : list N :=
  [95; 42; 91; 93; 40; 41; 126; 96; 62; 35; 43; 45; 61; 124; 123; 125; 46;
   33; 63; 64]%N.

(** The [forEach] loop: one global replacement per special character. *)
Definition escaped (tweet : jsstring) : jsstring :=
  fold_left (fun teleTweet char => replace_unit char [92%N; char] teleTweet)
            specialCharacters tweet.

Definition escapeTelegramMarkdown (tweet : jsstring) : Eff jsstring :=
  let teleTweet := escaped tweet in
  do emit (EvLog (lit "Escaped tweet for Telegram: " ++ teleTweet));
  ret teleTweet.

(** [fetch(url, init)] *)
Definition do_fetch (host : Host) (req : Request) : Eff (bool * jsstring) :=
  do emit (EvFetch req);
  match fetch host req with
  | NetworkError => throw (lit "TypeError: fetch failed")
  | Response ok body => ret (ok, body)
  end.

(** [sendTelegramMessage] *)
Definition sendTelegramMessage (tweet prefix : jsstring) (env : option Env)
    (host : Host) : Eff bool :=
  try_catch
    (let botToken := env_get TG_BOT_TOKEN env in
     let chatId := env_get TG_CHAT_ID env in
     if missing botToken || missing chatId then
       do emit (EvError (lit "Telegram bot token or chat ID missing"));
       ret false
     else
       let url := lit "https://api.telegram.org/bot" ++ String_ botToken
                  ++ lit "/sendMessage" in
       let body := JObject
         [(lit "chat_id", JString (String_ chatId));
          (lit "text", JString (prefix ++ tweet));
          (lit "parse_mode", JString (lit "MarkdownV2"));
          (lit "disable_web_page_preview", JBool true);
          (lit "disable_notification", JBool true)] in
       response <~ do_fetch host
         (mkRequest url (lit "POST")
            [(lit "Content-Type", lit "application/json")] body);
       if negb (fst response) then
         do emit (EvError (lit "Telegram API error:"));
         ret false
       else
         do emit (EvLog (lit "Successfully sent message to Telegram"));
         ret true)
    (fun error =>
       do emit (EvError (lit "Error sending to Telegram:"));
       ret false).

(** The object [oauthParams] of [postToTwitter], before it is signed. *)
Definition oauthParams (consumerKey nonce timestamp accessToken : jsstring)
  : Object :=
  [(lit "oauth_consumer_key", consumerKey);
   (lit "oauth_nonce", nonce);
   (lit "oauth_signature_method", lit "HMAC-SHA1");
   (lit "oauth_timestamp", timestamp);
   (lit "oauth_token", accessToken);
   (lit "oauth_version", lit "1.0")].

(** The expression bound to [signatureBaseString]. *)
Definition signatureBaseString (url : jsstring) (params : Object)
  : completion jsstring :=
  try! u <- encodeURIComponent url;
  try! pairs <-
    mapC (fun key =>
            let value := get params key in
            try! v <- encodeURIComponent (String_ value);
            Normal (key ++ lit "=" ++ v))
         (sort (keys params));
  try! p <- encodeURIComponent (join (lit "&") pairs);
  Normal (join (lit "&") [lit "POST"; u; p]).

(** The expression bound to [signingKey]. *)
Definition signingKey (consumerSecret accessTokenSecret : jsstring)
  : completion jsstring :=
  try! a <- encodeURIComponent consumerSecret;
  try! b <- encodeURIComponent accessTokenSecret;
  Normal (a ++ lit "&" ++ b).

(** The expression bound to [authHeader]. *)
Definition authHeader (params : Object) : completion jsstring :=
  try! parts <-
    mapC (fun key =>
            let value := get params key in
            try! k <- encodeURIComponent key;
            try! v <- encodeURIComponent (String_ value);
            Normal (k ++ lit "=" ++ dquote ++ v ++ dquote))
         (keys params);
  Normal (lit "OAuth " ++ join (lit ", ") parts).

Definition twitter_url : jsstring := lit "https://api.twitter.com/2/tweets".

(** [postToTwitter] *)
Definition postToTwitter (tweetText : jsstring) (env : option Env)
    (host : Host) : Eff bool :=
  try_catch
    (let url := twitter_url in
     let consumerKey := env_get TWITTER_CONSUMER_KEY env in
     let consumerSecret := env_get TWITTER_CONSUMER_SECRET env in
     let accessToken := env_get TWITTER_ACCESS_TOKEN env in
     let accessTokenSecret := env_get TWITTER_ACCESS_SECRET env in
     if missing consumerKey || missing consumerSecret ||
        missing accessToken || missing accessTokenSecret then
       do emit (EvError
           (lit "Twitter OAuth credentials missing in environment variables"));
       ret false
     else
       let timestamp := Z_toString (clock host / 1000) in
       let nonce := generateNonce (random_bytes host) in
       let requestBody := JObject [(lit "text", JString tweetText)] in
       let params := oauthParams (String_ consumerKey) nonce timestamp
                                 (String_ accessToken) in
       base <~ lift (signatureBaseString url params);
       key <~ lift (signingKey (String_ consumerSecret)
                               (String_ accessTokenSecret));
       signature <~ createOAuthSignature key base;
       let params := set params (lit "oauth_signature") signature in
       header <~ lift (authHeader params);
       response <~ do_fetch host
         (mkRequest url (lit "POST")
            [(lit "Authorization", header);
             (lit "Content-Type", lit "application/json")] requestBody);
       if negb (fst response) then
         errorData <~ lift (JSON_parse (snd response));
         do emit (EvError (lit "Twitter API error:"));
         ret false
       else
         data <~ lift (JSON_parse (snd response));
         do emit (EvLog (lit "Tweet posted successfully:"));
         ret true)
    (fun error =>
       do emit (EvError (lit "Error posting to Twitter:"));
       ret false).

(** [postTweet] *)
Definition postTweet (content telegramPrefix : jsstring) (env : option Env)
    (host : Host) : Eff bool :=
  try_catch
    (let success := false in
     success <~
       (if negb (missing (env_get TWITTER_CONSUMER_KEY env)) then
          twitterResult <~ postToTwitter content env host;
          if twitterResult then
            do emit (EvLog (lit "Successfully posted to Twitter: " ++ content));
            ret true
          else
            do emit (EvError (lit "Failed to post to Twitter"));
            ret success
        else ret success);
     teleTweet <~ escapeTelegramMarkdown content;
     telegramResult <~ sendTelegramMessage teleTweet telegramPrefix env host;
     let success := if telegramResult then true else success in
     ret success)
    (fun error =>
       do emit (EvError (lit "Error posting tweet:"));
       ret false).

Section WithNumbers.

Variable dtoa : JNum -> jsstring.
Variable rounds_to_zero : JNum -> bool.

(** The first [try] block of [parseTweet]:
    [parsedRes.tweet || parsedRes.toString()]. *)
Definition parseTweet_strict (res : jsstring)
  : completion (option JSValue) :=
  try! parsedRes <- JSON_parse res;
  try! tweet <- get_property parsedRes (lit "tweet");
  if truthy rounds_to_zero tweet then Normal tweet
  else try! str <- toString dtoa parsedRes; Normal (Some (JString str)).

(** [res.replace(/```json|```/g, "").trim()] *)
Definition strip_fences (res : jsstring) : jsstring :=
  trim (remove_all (lit "```json") (lit "```") res).

(** The [try] block of the first [catch]. *)
Definition parseTweet_stripped (res : jsstring)
  : completion (option JSValue) :=
  try! parsed <- JSON_parse (strip_fences res);
  get_property parsed (lit "tweet").

(** [parseTweet].  [None] is [undefined]. *)
Definition parseTweet (res : jsstring) : option JSValue :=
  match parseTweet_strict res with
  | Normal tweet => tweet
  | Throw _ =>
      match parseTweet_stripped res with
      | Normal tweet => tweet
      | Throw _ => None
      end
  end.

End WithNumbers.

(** ** The signature base string in closed form *)

(** The pairs of an object sorted by key. *)
Fixpoint insert_pair (p : jsstring * jsstring) (l : Object) : Object :=
  match l with
  | [] => [p]
  | q :: r => if str_leb (fst p) (fst q) then p :: l else q :: insert_pair p r
  end.

Definition sort_pairs (o : Object) : Object := fold_right insert_pair [] o.

(** What the code computes, over the sorted pairs: each pair is written
    [key=percent-encode(value)], the pairs are joined by [&], and the
    joined list is percent-encoded once more, so that a value is encoded
    twice. *)
Definition encoded_baseString (url : jsstring) (params : Object)
  : completion jsstring :=
  try! u <- encodeURIComponent url;
  try! pairs <-
    mapC (fun kv : jsstring * jsstring =>
            try! v <- encodeURIComponent (snd kv);
            Normal (fst kv ++ lit "=" ++ v))
         (sort_pairs params);
  try! p <- encodeURIComponent (join (lit "&") pairs);
  Normal (lit "POST" ++ lit "&" ++ u ++ lit "&" ++ p).

(** The base string in the words of the specification:
    [METHOD&percent-encode(URL)&percent-encode(sorted key=value pairs
    joined by &)], the values written as they are and encoded once, with
    the list. *)
Definition literal_baseString (url : jsstring) (params : Object)
  : completion jsstring :=
  try! u <- encodeURIComponent url;
  try! p <- encodeURIComponent
              (join (lit "&")
                 (List.map (fun kv : jsstring * jsstring =>
                              fst kv ++ lit "=" ++ snd kv)
                           (sort_pairs params)));
  Normal (lit "POST" ++ lit "&" ++ u ++ lit "&" ++ p).

(** The header with its pairs in a given order. *)
Definition header_of (pairs : Object) : completion jsstring :=
  try! parts <-
    mapC (fun kv : jsstring * jsstring =>
            try! k <- encodeURIComponent (fst kv);
            try! v <- encodeURIComponent (snd kv);
            Normal (k ++ lit "=" ++ dquote ++ v ++ dquote))
         pairs;
  Normal (lit "OAuth " ++ join (lit ", ") parts).

(** The requests of a trace, in the order they were sent. *)
Fixpoint sent (t : list Event) : list Request :=
  match t with
  | [] => []
  | EvFetch req :: rest => req :: sent rest
  | _ :: rest => sent rest
  end.

(** Does the trace hold a call to [crypto.subtle.sign]? *)
Definition signs (t : list Event) : bool :=
  existsb (fun e => match e with EvSign _ _ => true | _ => false end) t.

(** The [tweet] member of a parsed value, if it has one. *)
Definition tweet_field (v : JSValue) : option JSValue :=
  match v with
  | JObject fields => get_own (lit "tweet") fields
  | _ => None
  end.

Definition LF : jsstring := [10%N].

(** ** Sample data *)
Definition env0 : option Env :=
  Some (mkEnv None None (Some (lit "bot-token")) (Some (lit "42"))
              (Some (lit "ck")) (Some (lit "cs"))
              (Some (lit "at")) (Some (lit "ats"))).

Definition env_no_secret : option Env :=
  Some (mkEnv None None (Some (lit "bot-token")) (Some (lit "42"))
              (Some (lit "ck")) None (Some (lit "at")) (Some (lit "ats"))).

Definition host0 : Host :=
  mkHost 1700000000123 (repeat 171%N 32)
         (fun _ => Response true (lit "{}")).

Definition params0 : Object :=
  oauthParams (lit "ck") (generateNonce (random_bytes host0))
              (Z_toString (clock host0 / 1000)) (lit "at").

Definition signed0 : Object :=
  set params0 (lit "oauth_signature") (lit "Adwxw6TGAOWuK7pp7BkjJo34178=").

(** ** Objects and the sort *)

Lemma mapC_ext_in {A B} (f g : A -> completion B) l :
  (forall x, In x l -> f x = g x) -> mapC f l = mapC g l.
Proof.
  induction l as [|x l IH]; intros H; simpl; [reflexivity|].
  rewrite (H x (or_introl eq_refl)), IH; [reflexivity|].
  intros y Hy. apply H. right; exact Hy.
Qed.

Lemma mapC_map {A B C} (f : B -> completion C) (h : A -> B) l :
  mapC f (List.map h l) = mapC (fun x => f (h x)) l.
Proof.
  induction l as [|x l IH]; simpl; [reflexivity|].
  rewrite IH. reflexivity.
Qed.

Lemma get_None o k : ~ In k (keys o) -> get o k = None.
Proof.
  induction o as [|[k' v] o IH]; simpl; intros H; [reflexivity|].
  destruct (str_eqb k k') eqn:E.
  - apply str_eqb_eq in E. subst. exfalso; apply H; left; reflexivity.
  - apply IH. intros Hin. apply H. right; exact Hin.
Qed.

Lemma get_In o k v : NoDup (keys o) -> In (k, v) o -> get o k = Some v.
Proof.
  induction o as [|[k' v'] o IH]; simpl; intros Hnd Hin; [contradiction|].
  inversion Hnd as [|? ? Hnotin Hnd']; subst.
  destruct Hin as [Heq|Hin].
  - injection Heq as -> ->. rewrite str_eqb_refl. reflexivity.
  - destruct (str_eqb k k') eqn:E.
    + apply str_eqb_eq in E. subst k'. exfalso. apply Hnotin.
      unfold keys. apply (in_map fst) in Hin. exact Hin.
    + apply IH; assumption.
Qed.

Lemma keys_Permutation o o' :
  Permutation o o' -> Permutation (keys o) (keys o').
Proof. apply Permutation_map. Qed.

(** A property read does not depend on the order in which the properties
    were created. *)
Lemma get_Permutation o o' k :
  NoDup (keys o) -> Permutation o o' -> get o k = get o' k.
Proof.
  intros Hnd HP.
  assert (Hnd' : NoDup (keys o'))
    by (eapply Permutation_NoDup; [apply keys_Permutation; exact HP|exact Hnd]).
  destruct (in_dec (list_eq_dec N.eq_dec) k (keys o)) as [Hin|Hnot].
  - unfold keys in Hin. apply in_map_iff in Hin.
    destruct Hin as ([k0 v] & Hk & Hin). simpl in Hk. subst k0.
    rewrite (get_In _ _ _ Hnd Hin).
    symmetry. apply get_In; [exact Hnd'|].
    eapply Permutation_in; eassumption.
  - rewrite (get_None _ _ Hnot). symmetry. apply get_None.
    intros Hin. apply Hnot.
    eapply Permutation_in; [apply Permutation_sym, keys_Permutation; exact HP|].
    exact Hin.
Qed.

Lemma keys_insert_pair p l :
  keys (insert_pair p l) = insert (fst p) (keys l).
Proof.
  induction l as [|q r IH]; simpl; [reflexivity|].
  destruct (str_leb (fst p) (fst q)); simpl; [reflexivity|].
  rewrite IH. reflexivity.
Qed.

Lemma keys_sort_pairs o : keys (sort_pairs o) = sort (keys o).
Proof.
  induction o as [|p o IH]; simpl; [reflexivity|].
  rewrite keys_insert_pair, IH. reflexivity.
Qed.

Lemma insert_pair_perm p l : Permutation (insert_pair p l) (p :: l).
Proof.
  induction l as [|q r IH]; simpl; [reflexivity|].
  destruct (str_leb (fst p) (fst q)); [reflexivity|].
  rewrite IH. apply perm_swap.
Qed.

Lemma sort_pairs_perm o : Permutation (sort_pairs o) o.
Proof.
  induction o as [|p o IH]; simpl; [reflexivity|].
  rewrite insert_pair_perm, IH. reflexivity.
Qed.

(** Sorting the keys and reading each value is sorting the pairs. *)
Lemma signatureBaseString_refines url params :
  NoDup (keys params) ->
  signatureBaseString url params = encoded_baseString url params.
Proof.
  intros Hnd. unfold signatureBaseString, encoded_baseString.
  rewrite <- keys_sort_pairs. unfold keys at 1. rewrite mapC_map.
  rewrite (mapC_ext_in
    (fun x : jsstring * jsstring =>
       let value := get params (fst x) in
       try! v <- encodeURIComponent (String_ value);
       Normal (fst x ++ lit "=" ++ v))
    (fun kv : jsstring * jsstring =>
       try! v <- encodeURIComponent (snd kv);
       Normal (fst kv ++ lit "=" ++ v))).
  - destruct (encodeURIComponent url) as [u|e]; [|reflexivity].
    cbn [bindC].
    destruct (mapC _ (sort_pairs params)) as [pairs|e]; [|reflexivity].
    cbn [bindC].
    destruct (encodeURIComponent (join (lit "&") pairs)); reflexivity.
  - intros [k v] Hin. cbn [fst snd]. cbv zeta.
    rewrite (get_In params k v Hnd); [reflexivity|].
    eapply Permutation_in; [apply sort_pairs_perm | exact Hin].
Qed.

Lemma signatureBaseString_Permutation url params params' :
  NoDup (keys params) -> Permutation params params' ->
  signatureBaseString url params' = signatureBaseString url params.
Proof.
  intros Hnd HP. unfold signatureBaseString.
  rewrite (sort_Permutation (keys_Permutation HP)).
  rewrite (mapC_ext_in
    (fun key =>
       let value := get params key in
       try! v <- encodeURIComponent (String_ value);
       Normal (key ++ lit "=" ++ v))
    (fun key =>
       let value := get params' key in
       try! v <- encodeURIComponent (String_ value);
       Normal (key ++ lit "=" ++ v))); [reflexivity|].
  intros k _. cbv zeta. rewrite (get_Permutation k Hnd HP). reflexivity.
Qed.

(** Unreserved characters are encoded as themselves. *)
Lemma uri_unreserved_ascii u : uri_unreserved u = true -> (u < 128)%N.
Proof.
  unfold uri_unreserved, is_alnum. cbn [existsb].
  rewrite !orb_true_iff, !andb_true_iff, !N.leb_le, !N.eqb_eq.
  intros H. lia.
Qed.

Lemma encodeURIComponent_unreserved v :
  forallb uri_unreserved v = true -> encodeURIComponent v = Normal v.
Proof.
  unfold encodeURIComponent.
  induction v as [|u r IH]; cbn [forallb code_points]; [reflexivity|].
  rewrite andb_true_iff. intros [Hu Hr].
  pose proof (uri_unreserved_ascii u Hu) as Hlt.
  replace (is_high_surrogate u) with false
    by (symmetry; unfold is_high_surrogate; apply andb_false_iff; left;
        apply N.leb_gt; lia).
  replace (is_low_surrogate u) with false
    by (symmetry; unfold is_low_surrogate; apply andb_false_iff; left;
        apply N.leb_gt; lia).
  cbn [encode_points]. rewrite (IH Hr). cbn [bindC]. rewrite Hu.
  reflexivity.
Qed.

Lemma mapC_Normal {A B} (f : A -> completion B) (g : A -> B) l :
  (forall x, In x l -> f x = Normal (g x)) ->
  mapC f l = Normal (List.map g l).
Proof.
  induction l as [|x l IH]; intros H; cbn [mapC List.map]; [reflexivity|].
  rewrite (H x (or_introl eq_refl)), IH; [reflexivity|].
  intros y Hy. apply H. right; exact Hy.
Qed.

Lemma encoded_baseString_literal url params :
  Forall (fun kv : jsstring * jsstring =>
            forallb uri_unreserved (snd kv) = true) params ->
  encoded_baseString url params = literal_baseString url params.
Proof.
  intros Hall. unfold encoded_baseString, literal_baseString.
  rewrite (mapC_Normal _
             (fun kv : jsstring * jsstring => fst kv ++ lit "=" ++ snd kv));
    [reflexivity|].
  intros kv Hin. rewrite encodeURIComponent_unreserved; [reflexivity|].
  rewrite Forall_forall in Hall. apply Hall.
  eapply Permutation_in; [apply sort_pairs_perm | exact Hin].
Qed.

(** ** The signer *)

(** C4 (as amended).  For an object of parameters (its keys are distinct),
    the signature base string is [POST], the percent-encoded URL and the
    percent-encoded list of the pairs sorted by key and joined by [&],
    where each pair is written [key=percent-encode(value)]: a value is
    percent-encoded in its pair and again with the list.  The keys of
    that list are in lexicographic order, and the string is the same in
    whatever order the parameters were put into the object.  When all
    values are made of unreserved characters, as a hexadecimal nonce, a
    decimal timestamp, [HMAC-SHA1] and [1.0] are, the string is the one
    that the specification words, with the values as they are. *)
Theorem signatureBaseString_sorted url params params' :
  NoDup (keys params) ->
  Permutation params params' ->
  signatureBaseString url params = encoded_baseString url params /\
  StronglySorted str_le (keys (sort_pairs params)) /\
  Permutation (sort_pairs params) params /\
  signatureBaseString url params' = signatureBaseString url params /\
  (Forall (fun kv : jsstring * jsstring =>
             forallb uri_unreserved (snd kv) = true) params ->
   signatureBaseString url params = literal_baseString url params).
Proof.
  intros Hnd HP. split; [|split; [|split; [|split]]].
  - apply signatureBaseString_refines; exact Hnd.
  - rewrite keys_sort_pairs. apply sort_sorted.
  - apply sort_pairs_perm.
  - apply signatureBaseString_Permutation; assumption.
  - intros Hall. rewrite signatureBaseString_refines by exact Hnd.
    apply encoded_baseString_literal; exact Hall.
Qed.

Lemma NoDup_keys_oauthParams ck nonce ts at_ :
  NoDup (keys (oauthParams ck nonce ts at_)).
Proof.
  unfold oauthParams, keys. cbn [List.map fst].
  repeat (constructor; [cbn [In]; intros H;
    repeat (destruct H as [H|H]; [vm_compute in H; discriminate H|]);
    exact H|]).
  constructor.
Qed.

Lemma signatureBaseString_sorted_witness :
  NoDup (keys params0) /\
  Permutation params0 (rev params0) /\
  signatureBaseString twitter_url (rev params0) =
  signatureBaseString twitter_url params0 /\
  signatureBaseString twitter_url params0 =
  literal_baseString twitter_url params0.
Proof.
  pose proof (signatureBaseString_sorted twitter_url
                (NoDup_keys_oauthParams _ _ _ _)
                (Permutation_rev params0)) as (_ & _ & _ & Hperm & Hlit).
  split; [apply NoDup_keys_oauthParams|].
  split; [apply Permutation_rev|].
  split; [exact Hperm|].
  apply Hlit. unfold params0, oauthParams.
  repeat (constructor; [vm_compute; reflexivity|]). constructor.
Defined.

(** C4, counterexample.  A value with a space: the code encodes the
    space of the token twice, to [%2520], where the base string as the
    specification words it has [%20]. *)
Lemma signatureBaseString_value_encoded_twice :
  signatureBaseString twitter_url [(lit "oauth_token", lit "a b")] =
    Normal (lit "POST&https%3A%2F%2Fapi.twitter.com%2F2%2Ftweets&oauth_token%3Da%2520b") /\
  literal_baseString twitter_url [(lit "oauth_token", lit "a b")] =
    Normal (lit "POST&https%3A%2F%2Fapi.twitter.com%2F2%2Ftweets&oauth_token%3Da%20b") /\
  signatureBaseString twitter_url [(lit "oauth_token", lit "a b")] <>
  literal_baseString twitter_url [(lit "oauth_token", lit "a b")].
Proof.
  split; [vm_compute; reflexivity|].
  split; [vm_compute; reflexivity|].
  vm_compute. discriminate.
Qed.

Lemma authHeader_header_of o :
  NoDup (keys o) -> authHeader o = header_of o.
Proof.
  intros Hnd. unfold authHeader, header_of, keys. rewrite mapC_map.
  rewrite (mapC_ext_in
    (fun x : jsstring * jsstring =>
       let value := get o (fst x) in
       try! k <- encodeURIComponent (fst x);
       try! v <- encodeURIComponent (String_ value);
       Normal (k ++ lit "=" ++ dquote ++ v ++ dquote))
    (fun kv : jsstring * jsstring =>
       try! k <- encodeURIComponent (fst kv);
       try! v <- encodeURIComponent (snd kv);
       Normal (k ++ lit "=" ++ dquote ++ v ++ dquote))); [reflexivity|].
  intros [k v] Hin. cbn [fst snd]. cbv zeta.
  rewrite (get_In o k v Hnd Hin). reflexivity.
Qed.

(** The six parameters are created in the order of their keys, and the
    signature is created after them. *)
Lemma oauthParams_sorted ck nonce ts at_ :
  sort_pairs (oauthParams ck nonce ts at_) = oauthParams ck nonce ts at_.
Proof. reflexivity. Qed.

Lemma set_oauth_signature ck nonce ts at_ sig :
  set (oauthParams ck nonce ts at_) (lit "oauth_signature") sig =
  oauthParams ck nonce ts at_ ++ [(lit "oauth_signature", sig)].
Proof. reflexivity. Qed.

Lemma NoDup_keys_signed ck nonce ts at_ sig :
  NoDup (keys (oauthParams ck nonce ts at_ ++ [(lit "oauth_signature", sig)])).
Proof.
  unfold oauthParams, keys. cbn [List.map fst app].
  repeat (constructor; [cbn [In]; intros H;
    repeat (destruct H as [H|H]; [vm_compute in H; discriminate H|]);
    exact H|]).
  constructor.
Qed.

Ltac run_eff :=
  cbv beta iota zeta delta
    [try_catch bind lift emit ret throw do_fetch createOAuthSignature
     fst snd app negb trace_of result_of].

(** The signing key is never empty: it holds the [&] between the two
    secrets, so [importKey] accepts it. *)
Lemma TextEncoder_encode_nonempty s :
  s <> [] -> TextEncoder_encode s <> [].
Proof.
  destruct s as [|u r]; [congruence|]. intros _.
  assert (Hutf : forall cp rest, utf8 cp ++ rest <> []).
  { intros cp rest. unfold utf8.
    destruct (cp <? 128)%N; [discriminate|].
    destruct (cp <? 2048)%N; [discriminate|].
    destruct (cp <? 65536)%N; discriminate. }
  unfold TextEncoder_encode. cbn [code_points].
  destruct (is_high_surrogate u).
  - destruct r as [|v r']; [apply Hutf|].
    destruct (is_low_surrogate v); apply Hutf.
  - destruct (is_low_surrogate u); apply Hutf.
Qed.

Lemma importKey_nonempty s :
  s <> [] ->
  importKey (TextEncoder_encode s) = Normal (TextEncoder_encode s).
Proof.
  intros Hs. apply TextEncoder_encode_nonempty in Hs.
  unfold importKey. destruct (TextEncoder_encode s); [congruence|reflexivity].
Qed.

Lemma importKey_signingKey consumerSecret accessTokenSecret key :
  signingKey consumerSecret accessTokenSecret = Normal key ->
  importKey (TextEncoder_encode key) = Normal (TextEncoder_encode key).
Proof.
  unfold signingKey. intros H.
  destruct (encodeURIComponent consumerSecret) as [a|]; [|discriminate H].
  destruct (encodeURIComponent accessTokenSecret) as [b|];
    [|discriminate H].
  cbn [bindC] in H. injection H as <-.
  apply importKey_nonempty. destruct a; discriminate.
Qed.

(** What [postToTwitter] does, step by step. *)
Lemma postToTwitter_cases tweetText env host :
  let ck := env_get TWITTER_CONSUMER_KEY env in
  let cs := env_get TWITTER_CONSUMER_SECRET env in
  let tok := env_get TWITTER_ACCESS_TOKEN env in
  let ts := env_get TWITTER_ACCESS_SECRET env in
  let params := oauthParams (String_ ck) (generateNonce (random_bytes host))
                  (Z_toString (clock host / 1000)) (String_ tok) in
  let r := postToTwitter tweetText env host in
  (missing ck || missing cs || missing tok || missing ts = true /\
   r = ([EvError
          (lit "Twitter OAuth credentials missing in environment variables")],
        Normal false))
  \/
  (missing ck || missing cs || missing tok || missing ts = false /\
   ((sent (trace_of r) = [] /\ result_of r = Normal false)
    \/
    exists base key signature header b,
      signatureBaseString twitter_url params = Normal base /\
      signingKey (String_ cs) (String_ ts) = Normal key /\
      btoa (hmac_sha1 (TextEncoder_encode key) (TextEncoder_encode base))
        = Normal signature /\
      authHeader (set params (lit "oauth_signature") signature)
        = Normal header /\
      sent (trace_of r) =
        [mkRequest twitter_url (lit "POST")
           [(lit "Authorization", header);
            (lit "Content-Type", lit "application/json")]
           (JObject [(lit "text", JString tweetText)])] /\
      signs (trace_of r) = true /\
      result_of r = Normal b)).
Proof.
  cbv zeta. unfold postToTwitter.
  set (params := oauthParams _ _ _ _).
  destruct (missing (env_get TWITTER_CONSUMER_KEY env) ||
            missing (env_get TWITTER_CONSUMER_SECRET env) ||
            missing (env_get TWITTER_ACCESS_TOKEN env) ||
            missing (env_get TWITTER_ACCESS_SECRET env)) eqn:Hm.
  - left. split; reflexivity.
  - right. split; [reflexivity|].
    destruct (signatureBaseString twitter_url params) as [base|e] eqn:Hbase;
      [|left; split; reflexivity].
    destruct (signingKey _ _) as [key|e] eqn:Hkey;
      [|left; split; reflexivity].
    run_eff. rewrite (importKey_signingKey _ _ Hkey). run_eff.
    destruct (btoa (hmac_sha1 (TextEncoder_encode key)
                              (TextEncoder_encode base)))
      as [signature|e] eqn:Hsig;
      [|left; split; reflexivity].
    destruct (authHeader (set params (lit "oauth_signature") signature))
      as [header|e] eqn:Hhdr;
      [|left; split; reflexivity].
    right. exists base, key, signature, header.
    match goal with |- context [fetch host ?req] =>
      destruct (fetch host req) as [|ok body] end.
    + exists false. repeat split; try assumption; reflexivity.
    + cbn [fst snd app].
      destruct ok; cbn [negb];
        destruct (JSON_parse body); cbn [app];
        eexists; repeat split; try eassumption; reflexivity.
Qed.

(** C2 (as amended).  The [Authorization] header of the request that
    [postToTwitter] sends is ["OAuth "] followed by the pairs
    [percent-encode(key)="percent-encode(value)"] joined by a comma and a
    space: first the six signed parameters, in the order of the signature
    base string (sorted by key), then [oauth_signature], whose value is
    the base64 HMAC-SHA1 of the base string under the signing key. *)
Theorem authHeader_order tweetText env host req :
  In req (sent (trace_of (postToTwitter tweetText env host))) ->
  let params :=
    oauthParams (String_ (env_get TWITTER_CONSUMER_KEY env))
                (generateNonce (random_bytes host))
                (Z_toString (clock host / 1000))
                (String_ (env_get TWITTER_ACCESS_TOKEN env)) in
  exists signature header,
    req_headers req = [(lit "Authorization", header);
                       (lit "Content-Type", lit "application/json")] /\
    header_of (sort_pairs params ++ [(lit "oauth_signature", signature)])
      = Normal header /\
    keys (sort_pairs params) = sort (keys params) /\
    exists base key,
      signatureBaseString twitter_url params = Normal base /\
      signingKey (String_ (env_get TWITTER_CONSUMER_SECRET env))
                 (String_ (env_get TWITTER_ACCESS_SECRET env)) = Normal key /\
      btoa (hmac_sha1 (TextEncoder_encode key) (TextEncoder_encode base))
        = Normal signature.
Proof.
  intros Hin params.
  destruct (postToTwitter_cases tweetText env host)
    as [(_ & Hr) | (_ & [(Hs & _) | Hex])].
  - rewrite Hr in Hin. destruct Hin.
  - rewrite Hs in Hin. destruct Hin.
  - destruct Hex as (base & key & signature & header & b &
                     Hbase & Hkey & Hsig & Hhdr & Hsent & _ & _).
    rewrite Hsent in Hin. destruct Hin as [<-|[]].
    exists signature, header. fold params in Hhdr, Hbase.
    split; [reflexivity|]. split; [|split].
    + unfold params in *. rewrite oauthParams_sorted.
      rewrite set_oauth_signature in Hhdr.
      rewrite <- authHeader_header_of; [exact Hhdr|].
      apply NoDup_keys_signed.
    + apply keys_sort_pairs.
    + exists base, key. repeat split; assumption.
Qed.

Lemma authHeader_order_witness :
  exists header,
    List.map (@req_headers) (sent (trace_of (postToTwitter (lit "hi") env0 host0)))
      = [[(lit "Authorization", header);
          (lit "Content-Type", lit "application/json")]] /\
    exists signature,
      header_of (sort_pairs params0 ++ [(lit "oauth_signature", signature)])
        = Normal header.
Proof.
  assert (Hin : In (mkRequest twitter_url (lit "POST")
                      [(lit "Authorization",
                        match authHeader signed0 with
                        | Normal h => h
                        | Throw _ => []
                        end);
                       (lit "Content-Type", lit "application/json")]
                      (JObject [(lit "text", JString (lit "hi"))]))
                   (sent (trace_of (postToTwitter (lit "hi") env0 host0))))
    by (vm_compute; left; reflexivity).
  destruct (authHeader_order _ _ _ _ Hin)
    as (signature & header & Hh & Hhdr & _).
  exists header. split.
  - cbn [req_headers] in Hh. rewrite <- Hh. vm_compute. reflexivity.
  - exists signature. exact Hhdr.
Defined.

(** C2, counterexample.  For the sample credentials the header that is
    sent lists [oauth_signature] last, after [oauth_version]; with the
    pairs sorted by key it would come third, before
    [oauth_signature_method].  The keys of the signed object are not in
    sorted order. *)
Lemma authHeader_signature_last :
  List.map (fun req => get (req_headers req) (lit "Authorization"))
           (sent (trace_of (postToTwitter (lit "hi") env0 host0)))
  = [Some (litq
      "OAuth oauth_consumer_key='ck', oauth_nonce='abababababababababababababababab', oauth_signature_method='HMAC-SHA1', oauth_timestamp='1700000000', oauth_token='at', oauth_version='1.0', oauth_signature='Adwxw6TGAOWuK7pp7BkjJo34178%3D'")] /\
  header_of (sort_pairs signed0)
  = Normal (litq
      "OAuth oauth_consumer_key='ck', oauth_nonce='abababababababababababababababab', oauth_signature='Adwxw6TGAOWuK7pp7BkjJo34178%3D', oauth_signature_method='HMAC-SHA1', oauth_timestamp='1700000000', oauth_token='at', oauth_version='1.0'") /\
  authHeader signed0 <> header_of (sort_pairs signed0) /\
  keys signed0 <> sort (keys signed0).
Proof.
  repeat split; try (vm_compute; reflexivity); vm_compute; discriminate.
Qed.

(** ** The publisher *)

Lemma postToTwitter_total tweetText env host :
  exists b, result_of (postToTwitter tweetText env host) = Normal b.
Proof.
  destruct (postToTwitter_cases tweetText env host)
    as [(_ & Hr) | (_ & [(_ & Hr) | Hex])].
  - rewrite Hr. exists false; reflexivity.
  - exists false; exact Hr.
  - destruct Hex as (? & ? & ? & ? & b & _ & _ & _ & _ & _ & _ & Hr).
    exists b; exact Hr.
Qed.



(** With the consumer secret missing, nothing is signed, the only
    request is the one to Telegram, and the result is its outcome. *)
Example postTweet_missing_secret :
  let r := postTweet (lit "a.b!c") (lit "HN cron job: ") env_no_secret host0 in
  result_of r = Normal true /\
  signs (trace_of r) = false /\
  List.map (@req_url) (sent (trace_of r)) =
    [lit "https://api.telegram.org/botbot-token/sendMessage"] /\
  List.map (@req_body) (sent (trace_of r)) =
    [JObject
       [(lit "chat_id", JString (lit "42"));
        (lit "text", JString (lit "HN cron job: a\.b\!c"));
        (lit "parse_mode", JString (lit "MarkdownV2"));
        (lit "disable_web_page_preview", JBool true);
        (lit "disable_notification", JBool true)]].
Proof. cbv zeta. repeat split; vm_compute; reflexivity. Qed.

(** ** The parser *)

(** C7.  [parseTweet] returns "hi" on the bare object; on the object inside
    triple-backtick fences, with or without the [json] tag, the strict
    parse fails, the fences and the surrounding white space are stripped,
    and the retry returns "hi"; on [not json] both parses fail and the
    result is [undefined]. *)
Theorem parseTweet_examples dtoa rounds_to_zero :
  let bare := litq "{'tweet':'hi'}" in
  let tagged := lit "```json" ++ LF ++ bare ++ LF ++ lit "```" in
  let untagged := lit "```" ++ LF ++ bare ++ LF ++ lit "```" in
  parseTweet dtoa rounds_to_zero bare = Some (JString (lit "hi")) /\
  (JSON_parse tagged = Throw SyntaxError /\
   strip_fences tagged = bare /\
   parseTweet dtoa rounds_to_zero tagged = Some (JString (lit "hi"))) /\
  (JSON_parse untagged = Throw SyntaxError /\
   strip_fences untagged = bare /\
   parseTweet dtoa rounds_to_zero untagged = Some (JString (lit "hi"))) /\
  (JSON_parse (lit "not json") = Throw SyntaxError /\
   JSON_parse (strip_fences (lit "not json")) = Throw SyntaxError /\
   parseTweet dtoa rounds_to_zero (lit "not json") = None).
Proof.
  cbv zeta. repeat split; vm_compute; reflexivity.
Qed.

(** C9 (as amended).  When the input parses as JSON, the parsed value has
    no truthy [tweet] member, and its [toString()] returns (the value is
    not [null], and it is not an object with a [toString] member of its
    own, nor an array that holds one), [parseTweet] returns the string
    that [toString()] gave: for an object ["[object Object]"], for a
    string the string itself. *)
Theorem parseTweet_toString_fallback dtoa rounds_to_zero res v str :
  JSON_parse res = Normal v ->
  truthy rounds_to_zero (tweet_field v) = false ->
  toString dtoa v = Normal str ->
  parseTweet dtoa rounds_to_zero res = Some (JString str) /\
  v <> JNull /\
  match v with
  | JObject _ => str = lit "[object Object]"
  | JString s => str = s
  | _ => True
  end.
Proof.
  intros Hparse Hfalsy Hstr. split; [|split].
  - unfold parseTweet, parseTweet_strict. rewrite Hparse. cbn [bindC].
    destruct v; cbn [get_property tweet_field bindC] in *;
      try discriminate Hstr;
      try (rewrite Hstr; reflexivity).
    rewrite Hfalsy, Hstr. reflexivity.
  - intros ->. discriminate Hstr.
  - destruct v; try exact I.
    + cbn in Hstr. congruence.
    + cbn [toString] in Hstr.
      destruct (get_own (lit "toString") fields); [discriminate Hstr|].
      injection Hstr as <-. reflexivity.
Qed.

Lemma parseTweet_toString_fallback_witness :
  parseTweet (fun _ => []) (fun _ => false) (litq "{'a':1}")
  = Some (JString (lit "[object Object]")).
Proof.
  refine (proj1 (@parseTweet_toString_fallback (fun _ => []) (fun _ => false)
                   (litq "{'a':1}")
                   (JObject [(lit "a", JNumber (mkNum false 1 0))])
                   (lit "[object Object]") _ _ _));
    vm_compute; reflexivity.
Defined.

(** C9, counterexample.  The text [null] is valid JSON and its value has
    no [tweet] member, yet [parseTweet] returns [undefined]: reading
    [.tweet] of [null] throws, and so does the retry.  The same happens
    for an object with a [toString] member of its own, on which
    [parsedRes.toString()] throws. *)
Lemma parseTweet_null_is_undefined :
  (JSON_parse (lit "null") = Normal JNull /\
   tweet_field JNull = None /\
   forall dtoa rounds_to_zero,
     parseTweet dtoa rounds_to_zero (lit "null") = None) /\
  (JSON_parse (litq "{'toString':1}") =
     Normal (JObject [(lit "toString", JNumber (mkNum false 1 0))]) /\
   tweet_field (JObject [(lit "toString", JNumber (mkNum false 1 0))])
     = None /\
   forall dtoa rounds_to_zero,
     parseTweet dtoa rounds_to_zero (litq "{'toString':1}") = None).
Proof.
  repeat split; try (vm_compute; reflexivity);
    intros; vm_compute; reflexivity.
Qed.

(** The examples of the claim: a number and an object without [tweet]. *)
Example parseTweet_123 dtoa rounds_to_zero :
  parseTweet dtoa rounds_to_zero (lit "123") = Some (JString (lit "123")).
Proof. vm_compute; reflexivity. Qed.

(** ** Escaping for Telegram *)

Definition is_special (c : N) : bool := existsb (N.eqb c) specialCharacters.

Definition escape_all (cs : list N) (t : jsstring) : jsstring :=
  fold_left (fun teleTweet char => replace_unit char [92%N; char] teleTweet)
            cs t.

Lemma escape_all_app cs : forall a b,
  escape_all cs (a ++ b) = escape_all cs a ++ escape_all cs b.
Proof.
  induction cs as [|c cs IH]; intros a b; cbn; [reflexivity|].
  unfold replace_unit. rewrite flat_map_app. apply IH.
Qed.

Lemma escape_all_other cs x : ~ In x cs -> escape_all cs [x] = [x].
Proof.
  induction cs as [|c cs IH]; intros Hx; cbn; [reflexivity|].
  destruct (N.eqb_spec x c) as [->|Hne].
  - exfalso. apply Hx. left; reflexivity.
  - cbn. apply IH. intros Hin. apply Hx. right; exact Hin.
Qed.

Lemma escape_all_member cs x :
  NoDup cs -> ~ In 92%N cs -> In x cs -> escape_all cs [x] = [92%N; x].
Proof.
  induction cs as [|c cs IH]; intros Hnd H92 Hx; [destruct Hx|].
  inversion Hnd as [|? ? Hc Hnd']; subst. cbn.
  destruct (N.eqb_spec x c) as [->|Hne].
  - cbn. change [92%N; c] with ([92%N] ++ [c]).
    rewrite escape_all_app, !escape_all_other; [reflexivity|exact Hc|].
    intros Hin. apply H92. right; exact Hin.
  - cbn. apply IH; [exact Hnd'| |].
    + intros Hin. apply H92. right; exact Hin.
    + destruct Hx as [->|Hx]; [congruence | exact Hx].
Qed.

Lemma is_special_In c : is_special c = true <-> In c specialCharacters.
Proof.
  unfold is_special. rewrite existsb_exists. split.
  - intros (y & Hy & E). apply N.eqb_eq in E. subst; exact Hy.
  - intros H. exists c. split; [exact H | apply N.eqb_refl].
Qed.

Lemma specialCharacters_NoDup : NoDup specialCharacters.
Proof.
  unfold specialCharacters.
  repeat (constructor; [cbn [In]; intros H;
    repeat (destruct H as [H|H]; [discriminate H|]); exact H|]).
  constructor.
Qed.

Lemma escaped_flat_map tweet :
  escaped tweet =
  flat_map (fun c => if is_special c then [92%N; c] else [c]) tweet.
Proof.
  unfold escaped. fold (escape_all specialCharacters tweet).
  induction tweet as [|x t IH]; cbn [flat_map].
  - unfold escape_all. generalize specialCharacters.
    intros cs; induction cs; cbn; auto.
  - change (x :: t) with ([x] ++ t). rewrite escape_all_app, IH. f_equal.
    destruct (is_special x) eqn:E.
    + apply escape_all_member; [apply specialCharacters_NoDup| |].
      * intros H. apply is_special_In in H. discriminate H.
      * apply is_special_In; exact E.
    + apply escape_all_other. intros H. apply is_special_In in H. congruence.
Qed.

Lemma filter_special_escaped tweet :
  filter is_special (escaped tweet) = filter is_special tweet.
Proof.
  rewrite escaped_flat_map.
  induction tweet as [|x t IH]; cbn [flat_map filter]; [reflexivity|].
  rewrite filter_app, IH.
  destruct (is_special x) eqn:E; cbn [filter]; rewrite E; reflexivity.
Qed.

Lemma escaped_length tweet :
  length (escaped tweet) =
  (length tweet + length (filter is_special tweet))%nat.
Proof.
  rewrite escaped_flat_map.
  induction tweet as [|x t IH]; cbn [flat_map filter length]; [reflexivity|].
  rewrite length_app, IH.
  destruct (is_special x); cbn [length]; lia.
Qed.

(** [escapeTelegramMarkdown] puts one backslash before each of the twenty
    special characters and leaves every other code unit as it is, the
    backslash included.  The text grows by the number of special
    characters in it, and escaping an escaped text changes it again unless
    the text holds no special character. *)
Theorem escapeTelegramMarkdown_spec tweet :
  result_of (escapeTelegramMarkdown tweet) =
    Normal (flat_map (fun c => if is_special c then [92%N; c] else [c])
                     tweet) /\
  length (escaped tweet) =
    (length tweet + length (filter is_special tweet))%nat /\
  (escaped (escaped tweet) = escaped tweet <->
   filter is_special tweet = []).
Proof.
  split; [|split].
  - unfold escapeTelegramMarkdown, result_of, bind, emit, ret. cbn [snd].
    rewrite escaped_flat_map. reflexivity.
  - apply escaped_length.
  - split.
    + intros H. apply (f_equal (@length N)) in H.
      rewrite (escaped_length (escaped tweet)), filter_special_escaped in H.
      destruct (filter is_special tweet); [reflexivity|cbn in H; lia].
    + intros H.
      assert (Hid : escaped tweet = tweet).
      { rewrite escaped_flat_map.
        induction tweet as [|x t IH]; cbn [flat_map]; [reflexivity|].
        cbn [filter] in H. destruct (is_special x); [discriminate H|].
        cbn. f_equal. apply IH; exact H. }
      rewrite Hid. exact Hid.
Qed.

Lemma escapeTelegramMarkdown_spec_witness :
  escaped (escaped (lit "plain text")) = escaped (lit "plain text").
Proof.
  apply (proj2 (proj2 (proj2 (escapeTelegramMarkdown_spec (lit "plain text"))))).
  vm_compute. reflexivity.
Defined.

(** ** The nonce *)

Definition is_lower_hex (c : N) : bool :=
  ((48 <=? c) && (c <=? 57) || (97 <=? c) && (c <=? 102))%N.

Definition hex_pair (byte : N) : jsstring :=
  [hex_lower (byte / 16); hex_lower (byte mod 16)]%N.

Lemma firstn_flat_map_pairs (f : N -> jsstring) n : forall l,
  (forall x, length (f x) = 2%nat) ->
  firstn (2 * n) (flat_map f l) = flat_map f (firstn n l).
Proof.
  induction n as [|n IH]; intros l Hf; [reflexivity|].
  destruct l as [|x l]; [reflexivity|].
  cbn [flat_map firstn].
  specialize (Hf x) as Hx.
  destruct (f x) as [|a [|b [|c r]]]; try discriminate Hx.
  replace (2 * S n)%nat with (S (S (2 * n))) by lia.
  cbn [app firstn]. rewrite IH by exact Hf. reflexivity.
Qed.

Lemma generateNonce_eq random :
  generateNonce random = flat_map hex_pair (firstn 16 random).
Proof.
  unfold generateNonce. fold hex_pair.
  change 32%nat with (2 * 16)%nat at 1.
  rewrite firstn_flat_map_pairs by reflexivity.
  rewrite firstn_firstn. reflexivity.
Qed.

Lemma In_firstn {A} (x : A) n l : In x (firstn n l) -> In x l.
Proof.
  intros H. rewrite <- (firstn_skipn n l). apply in_or_app. left; exact H.
Qed.

Lemma hex_lower_digit d : (d < 16)%N -> is_lower_hex (hex_lower d) = true.
Proof.
  intros Hd. unfold hex_lower, is_lower_hex.
  destruct (N.ltb_spec d 10).
  - apply orb_true_iff. left. apply andb_true_iff.
    split; apply N.leb_le; lia.
  - apply orb_true_iff. right. apply andb_true_iff.
    split; apply N.leb_le; lia.
Qed.

(** The nonce is made of the first 16 of the 32 random bytes only: it is
    their 32 lower-case hexadecimal digits, and the other 16 bytes are
    dropped by [substring(0, 32)]. *)
Theorem generateNonce_spec random :
  Forall (fun byte => (byte < 256)%N) random ->
  (16 <= length random)%nat ->
  length (generateNonce random) = 32%nat /\
  forallb is_lower_hex (generateNonce random) = true /\
  generateNonce random = generateNonce (firstn 16 random).
Proof.
  intros Hbytes Hlen. rewrite !generateNonce_eq. split; [|split].
  - assert (H16 : length (firstn 16 random) = 16%nat)
      by (rewrite length_firstn; lia).
    revert H16. generalize (firstn 16 random). intros l.
    do 17 (destruct l as [|? l]; try discriminate). reflexivity.
  - apply forallb_forall. intros c Hc.
    apply in_flat_map in Hc. destruct Hc as (byte & Hin & Hc).
    assert (Hb : (byte < 256)%N).
    { rewrite Forall_forall in Hbytes. apply Hbytes.
      eapply In_firstn; exact Hin. }
    destruct Hc as [<-|[<-|[]]]; apply hex_lower_digit.
    + apply N.Div0.div_lt_upper_bound; lia.
    + apply N.mod_lt; lia.
  - rewrite firstn_firstn. reflexivity.
Qed.

Lemma generateNonce_spec_witness :
  length (generateNonce (random_bytes host0)) = 32%nat.
Proof.
  apply (generateNonce_spec (random:=random_bytes host0)).
  - repeat constructor.
  - cbn. lia.
Defined.

(** ** The signature *)

Definition is_base64 (c : N) : bool :=
  is_alnum c || (c =? 43)%N || (c =? 47)%N || (c =? 61)%N.

Lemma base64_char_ok i : is_base64 (base64_char i) = true.
Proof.
  unfold base64_char, is_base64, is_alnum.
  destruct (N.ltb_spec i 26);
    [|destruct (N.ltb_spec i 52);
      [|destruct (N.ltb_spec i 62); [|destruct (N.eqb_spec i 62)]]];
    try reflexivity;
    repeat rewrite orb_true_iff; repeat rewrite andb_true_iff;
    repeat rewrite N.leb_le; left; left; lia.
Qed.

Lemma base64_alphabet n : forall bytes,
  (length bytes <= n)%nat -> forallb is_base64 (base64 bytes) = true.
Proof.
  induction n as [|n IH]; intros bytes Hn.
  - destruct bytes; [reflexivity | cbn in Hn; lia].
  - destruct bytes as [|a [|b [|c r]]]; cbn [base64 forallb app];
      rewrite ?base64_char_ok; try reflexivity.
    cbn [andb]. apply IH. cbn in Hn. lia.
Qed.

Lemma sha1_length msg : length (sha1 msg) = 20%nat.
Proof.
  unfold sha1.
  destruct (sha1_blocks _ _ _) as [[[[h0 h1] h2] h3] h4]. reflexivity.
Qed.

Lemma sha1_bytes msg : forallb (fun c => c <=? 255)%N (sha1 msg) = true.
Proof.
  unfold sha1.
  destruct (sha1_blocks _ _ _) as [[[[h0 h1] h2] h3] h4].
  cbn [flat_map bytes_of_word app forallb].
  repeat (apply andb_true_iff; split);
    try reflexivity; apply N.leb_le;
    match goal with |- (?x mod 256 <= 255)%N =>
      pose proof (N.mod_lt x 256 ltac:(lia)); lia end.
Qed.

(** [createOAuthSignature] throws a [DataError] before it signs when the
    key is empty, which [importKey] refuses.  For every other key it does
    not throw: it signs once, over the UTF-8 encodings of the key and of
    the message, and returns a string of 28 characters of the base64
    alphabet, the last one the padding [=]. *)
Theorem createOAuthSignature_shape key baseString :
  (key = [] ->
   createOAuthSignature key baseString = ([], Throw DataError)) /\
  (key <> [] ->
   exists signature,
     createOAuthSignature key baseString =
       ([EvSign (TextEncoder_encode key) (TextEncoder_encode baseString)],
        Normal signature) /\
     length signature = 28%nat /\
     forallb is_base64 signature = true /\
     nth 27 signature 0%N = 61%N).
Proof.
  split; [intros ->; reflexivity|]. intros Hkey.
  unfold createOAuthSignature. rewrite (importKey_nonempty Hkey).
  unfold bind, emit, lift, btoa, hmac_sha1.
  set (digest := sha1 _).
  assert (Hb : forallb (fun c => c <=? 255)%N digest = true)
    by apply sha1_bytes.
  assert (Hl : length digest = 20%nat) by apply sha1_length.
  rewrite Hb. exists (base64 digest). split; [reflexivity|].
  split; [|split].
  - clearbody digest.
    do 21 (destruct digest as [|? digest]; try discriminate Hl). reflexivity.
  - apply (@base64_alphabet (length digest)). lia.
  - clearbody digest.
    do 21 (destruct digest as [|? digest]; try discriminate Hl). reflexivity.
Qed.

Lemma createOAuthSignature_shape_witness :
  createOAuthSignature [] (lit "POST") = ([], Throw DataError) /\
  exists signature,
    createOAuthSignature (lit "cs&ats") (lit "POST") =
      ([EvSign (TextEncoder_encode (lit "cs&ats"))
               (TextEncoder_encode (lit "POST"))],
       Normal signature) /\
    length signature = 28%nat /\
    forallb is_base64 signature = true /\
    nth 27 signature 0%N = 61%N.
Proof.
  split.
  - apply (proj1 (createOAuthSignature_shape [] (lit "POST"))). reflexivity.
  - apply (proj2 (createOAuthSignature_shape (lit "cs&ats") (lit "POST"))).
    discriminate.
Defined.

(** ** Separators *)

(** How often the code unit [c] occurs in [s]. *)
Definition occurrences (c : N) (s : jsstring) : nat :=
  length (filter (N.eqb c) s).

(** Space, double quote, ampersand, comma and equals sign. *)
Definition is_separator (c : N) : bool :=
  existsb (N.eqb c) [32; 34; 38; 44; 61]%N.

Definition plain (s : jsstring) : Prop :=
  forall c, In c s -> is_separator c = false.

Lemma occurrences_app c a b :
  occurrences c (a ++ b) = (occurrences c a + occurrences c b)%nat.
Proof. unfold occurrences. rewrite filter_app, length_app. reflexivity. Qed.

Lemma occurrences_plain c s :
  is_separator c = true -> plain s -> occurrences c s = 0%nat.
Proof.
  intros Hc Hs. unfold occurrences.
  induction s as [|x s IH]; [reflexivity|]. cbn [filter].
  destruct (N.eqb_spec c x) as [->|_].
  - rewrite (Hs x (or_introl eq_refl)) in Hc. discriminate Hc.
  - apply IH. intros y Hy. apply Hs. right; exact Hy.
Qed.

Lemma hex_upper_plain d : is_separator (hex_upper d) = false.
Proof.
  unfold hex_upper, is_separator. cbn [existsb].
  destruct (N.ltb_spec d 10);
    repeat (apply orb_false_iff; split); try reflexivity;
    apply N.eqb_neq; lia.
Qed.

Lemma unreserved_plain c : uri_unreserved c = true -> is_separator c = false.
Proof.
  intros Hu. destruct (is_separator c) eqn:Hs; [|reflexivity].
  unfold is_separator in Hs. cbn [existsb] in Hs.
  repeat (apply orb_true_iff in Hs; destruct Hs as [Hs|Hs];
          [apply N.eqb_eq in Hs; subst c; discriminate Hu|]).
  discriminate Hs.
Qed.

Lemma encode_points_plain l : forall e,
  encode_points l = Normal e -> plain e.
Proof.
  induction l as [|[cp|] l IH]; intros e He; cbn [encode_points] in He.
  - injection He as <-. intros c [].
  - destruct (encode_points l) as [rest|]; [|discriminate He].
    cbn [bindC] in He. injection He as <-.
    intros c Hc. apply in_app_or in Hc. destruct Hc as [Hc|Hc].
    + destruct (uri_unreserved cp) eqn:Hu.
      * destruct Hc as [<-|[]]. apply unreserved_plain; exact Hu.
      * apply in_flat_map in Hc. destruct Hc as (b & _ & Hc).
        destruct Hc as [<-|[<-|[<-|[]]]];
          [reflexivity | apply hex_upper_plain | apply hex_upper_plain].
    + apply (IH rest eq_refl). exact Hc.
  - discriminate He.
Qed.

Lemma encodeURIComponent_plain s e :
  encodeURIComponent s = Normal e -> plain e.
Proof. apply encode_points_plain. Qed.

(** Whatever the URL, the parameter values and the secrets hold, the
    signature base string has exactly two ampersands, those between its
    three fields, and the signing key has exactly one. *)
Theorem signatureBaseString_fields url params consumerSecret tokenSecret :
  (forall base, signatureBaseString url params = Normal base ->
                occurrences 38 base = 2%nat) /\
  (forall key, signingKey consumerSecret tokenSecret = Normal key ->
               occurrences 38 key = 1%nat).
Proof.
  split.
  - intros base. unfold signatureBaseString.
    destruct (encodeURIComponent url) as [u|] eqn:Hu; [|discriminate].
    cbn [bindC]. destruct (mapC _ _) as [pairs|]; [|discriminate].
    cbn [bindC].
    destruct (encodeURIComponent (join (lit "&") pairs)) as [p|] eqn:Hp;
      [|discriminate].
    cbn [bindC]. intros H; injection H as <-.
    change (occurrences 38 (lit "POST&" ++ u ++ lit "&" ++ p) = 2%nat).
    rewrite !occurrences_app.
    rewrite (@occurrences_plain 38 u eq_refl
               (encodeURIComponent_plain _ Hu)).
    rewrite (@occurrences_plain 38 p eq_refl
               (encodeURIComponent_plain _ Hp)).
    reflexivity.
  - intros key. unfold signingKey.
    destruct (encodeURIComponent consumerSecret) as [a|] eqn:Ha;
      [|discriminate].
    cbn [bindC].
    destruct (encodeURIComponent tokenSecret) as [b|] eqn:Hb;
      [|discriminate].
    cbn [bindC]. intros H; injection H as <-.
    change (occurrences 38 (a ++ lit "&" ++ b) = 1%nat).
    rewrite !occurrences_app.
    rewrite (@occurrences_plain 38 a eq_refl
               (encodeURIComponent_plain _ Ha)).
    rewrite (@occurrences_plain 38 b eq_refl
               (encodeURIComponent_plain _ Hb)).
    reflexivity.
Qed.

Lemma signatureBaseString_fields_witness :
  exists base,
    signatureBaseString twitter_url params0 = Normal base /\
    occurrences 38 base = 2%nat.
Proof.
  eexists. split; [vm_compute; reflexivity|].
  apply (proj1 (signatureBaseString_fields twitter_url params0 [] [])).
  vm_compute; reflexivity.
Defined.

Lemma mapC_Forall2 {A B} (f : A -> completion B) l : forall ys,
  mapC f l = Normal ys -> Forall2 (fun x y => f x = Normal y) l ys.
Proof.
  induction l as [|x l IH]; intros ys H; cbn [mapC] in H.
  - injection H as <-. constructor.
  - destruct (f x) as [y|] eqn:Hx; [|discriminate H]. cbn [bindC] in H.
    destruct (mapC f l) as [ys'|]; [|discriminate H]. cbn [bindC] in H.
    injection H as <-. constructor; [exact Hx | apply IH; reflexivity].
Qed.

Lemma Forall2_In_r {A B} (R : A -> B -> Prop) l ys y :
  Forall2 R l ys -> In y ys -> exists x, In x l /\ R x y.
Proof.
  induction 1 as [|x y' l ys Hxy _ IH]; intros Hin; [destruct Hin|].
  destruct Hin as [->|Hin].
  - exists x. split; [left; reflexivity | exact Hxy].
  - destruct (IH Hin) as (x' & Hx' & HR).
    exists x'. split; [right; exact Hx' | exact HR].
Qed.

(** Whatever the credentials hold, the header has exactly two double
    quotes and one equals sign for each parameter, and one comma between
    two parameters: no value can close its quotes or add a parameter. *)
Theorem authHeader_delimiters params header :
  authHeader params = Normal header ->
  occurrences 34 header = (2 * length params)%nat /\
  occurrences 61 header = length params /\
  occurrences 44 header = (length params - 1)%nat.
Proof.
  unfold authHeader. destruct (mapC _ _) as [parts|] eqn:Hparts;
    [|discriminate].
  cbn [bindC]. intros H; injection H as <-.
  apply mapC_Forall2 in Hparts.
  assert (Hlen : length parts = length (keys params))
    by (symmetry; eapply Forall2_length; exact Hparts).
  unfold keys in Hlen. rewrite length_map in Hlen.
  assert (Hpart : forall p, In p parts ->
            occurrences 34 p = 2%nat /\ occurrences 61 p = 1%nat /\
            occurrences 44 p = 0%nat).
  { intros p Hp.
    destruct (@Forall2_In_r _ _ _ _ _ p Hparts Hp) as (key & _ & Hkey).
    cbv zeta in Hkey.
    destruct (encodeURIComponent key) as [k|] eqn:Hk; [|discriminate Hkey].
    cbn [bindC] in Hkey.
    destruct (encodeURIComponent (String_ (get params key))) as [v|] eqn:Hv;
      [|discriminate Hkey].
    cbn [bindC] in Hkey. injection Hkey as <-.
    apply encodeURIComponent_plain in Hk, Hv.
    change (61%N :: 34%N :: v ++ dquote)
      with ([61%N; 34%N] ++ v ++ dquote).
    repeat split; rewrite !occurrences_app;
      match goal with |- context [occurrences ?c k] =>
        rewrite (@occurrences_plain c k eq_refl Hk),
                (@occurrences_plain c v eq_refl Hv)
      end; reflexivity. }
  rewrite <- Hlen. clear Hparts Hlen.
  assert (H34 : occurrences 34 (join (lit ", ") parts)
                = (2 * length parts)%nat).
  { clear -Hpart. induction parts as [|p parts IH]; [reflexivity|].
    destruct parts as [|q parts].
    - cbn [join length]. apply Hpart. left; reflexivity.
    - change (join (lit ", ") (p :: q :: parts))
        with (p ++ lit ", " ++ join (lit ", ") (q :: parts)).
      rewrite !occurrences_app, IH.
      + rewrite (proj1 (Hpart p (or_introl eq_refl))). cbn [length].
        change (occurrences 34 (lit ", ")) with 0%nat. lia.
      + intros r Hr. apply Hpart. right; exact Hr. }
  assert (H61 : occurrences 61 (join (lit ", ") parts) = length parts).
  { clear -Hpart. induction parts as [|p parts IH]; [reflexivity|].
    destruct parts as [|q parts].
    - cbn [join length]. apply Hpart. left; reflexivity.
    - change (join (lit ", ") (p :: q :: parts))
        with (p ++ lit ", " ++ join (lit ", ") (q :: parts)).
      rewrite !occurrences_app, IH.
      + rewrite (proj1 (proj2 (Hpart p (or_introl eq_refl)))).
        cbn [length]. change (occurrences 61 (lit ", ")) with 0%nat. lia.
      + intros r Hr. apply Hpart. right; exact Hr. }
  assert (H44 : occurrences 44 (join (lit ", ") parts)
                = (length parts - 1)%nat).
  { clear -Hpart. induction parts as [|p parts IH]; [reflexivity|].
    destruct parts as [|q parts].
    - cbn [join length]. apply Hpart. left; reflexivity.
    - change (join (lit ", ") (p :: q :: parts))
        with (p ++ lit ", " ++ join (lit ", ") (q :: parts)).
      rewrite !occurrences_app, IH.
      + rewrite (proj2 (proj2 (Hpart p (or_introl eq_refl)))).
        cbn [length]. change (occurrences 44 (lit ", ")) with 1%nat. lia.
      + intros r Hr. apply Hpart. right; exact Hr. }
  set (j := join (lit ", ") parts) in *.
  unfold occurrences in *. cbn. rewrite H34, H61, H44.
  repeat split; reflexivity.
Qed.

Lemma authHeader_delimiters_witness :
  exists header,
    authHeader signed0 = Normal header /\
    occurrences 34 header = 14%nat.
Proof.
  eexists. split; [vm_compute; reflexivity|].
  refine (proj1 (@authHeader_delimiters signed0 _ _)).
  vm_compute; reflexivity.
Defined.

(** ** The requests of the publisher *)

(** The request that [postToTwitter] sends with the header [header]. *)
Definition twitter_request (tweetText header : jsstring) : Request :=
  mkRequest twitter_url (lit "POST")
    [(lit "Authorization", header);
     (lit "Content-Type", lit "application/json")]
    (JObject [(lit "text", JString tweetText)]).

(** The request that [sendTelegramMessage] sends. *)
Definition telegram_request (tweet prefix : jsstring) (env : option Env)
  : Request :=
  mkRequest
    (lit "https://api.telegram.org/bot" ++ String_ (env_get TG_BOT_TOKEN env)
     ++ lit "/sendMessage")
    (lit "POST")
    [(lit "Content-Type", lit "application/json")]
    (JObject
       [(lit "chat_id", JString (String_ (env_get TG_CHAT_ID env)));
        (lit "text", JString (prefix ++ tweet));
        (lit "parse_mode", JString (lit "MarkdownV2"));
        (lit "disable_web_page_preview", JBool true);
        (lit "disable_notification", JBool true)]).

(** Was the request answered with an [ok] response? *)
Definition answered_ok (host : Host) (req : Request) : bool :=
  match fetch host req with
  | Response true _ => true
  | _ => false
  end.

(** Was it answered with an [ok] response whose body is JSON? *)
Definition answered_json (host : Host) (req : Request) : bool :=
  match fetch host req with
  | Response true body =>
      match JSON_parse body with
      | Normal _ => true
      | Throw _ => false
      end
  | _ => false
  end.

Lemma postToTwitter_outcome tweetText env host :
  let r := postToTwitter tweetText env host in
  (sent (trace_of r) = [] /\ result_of r = Normal false) \/
  exists header,
    sent (trace_of r) = [twitter_request tweetText header] /\
    result_of r =
      Normal (answered_json host (twitter_request tweetText header)).
Proof.
  cbv zeta. unfold postToTwitter, answered_json, twitter_request.
  set (params := oauthParams _ _ _ _).
  destruct (missing (env_get TWITTER_CONSUMER_KEY env) ||
            missing (env_get TWITTER_CONSUMER_SECRET env) ||
            missing (env_get TWITTER_ACCESS_TOKEN env) ||
            missing (env_get TWITTER_ACCESS_SECRET env)).
  - left. split; reflexivity.
  - destruct (signatureBaseString twitter_url params) as [base|e];
      [|left; split; reflexivity].
    destruct (signingKey _ _) as [key|e] eqn:Hkey;
      [|left; split; reflexivity].
    run_eff. rewrite (importKey_signingKey _ _ Hkey). run_eff.
    destruct (btoa (hmac_sha1 (TextEncoder_encode key)
                              (TextEncoder_encode base)))
      as [signature|e]; [|left; split; reflexivity].
    destruct (authHeader (set params (lit "oauth_signature") signature))
      as [header|e]; [|left; split; reflexivity].
    right. exists header.
    match goal with |- context [fetch host ?req] =>
      destruct (fetch host req) as [|ok body] end.
    + split; reflexivity.
    + destruct ok; destruct (JSON_parse body); split; reflexivity.
Qed.

(** [postToTwitter] sends at most one request, a [POST] to the tweets
    endpoint whose body is the text as it was given, and returns [true]
    exactly when that request was sent and answered with an [ok] response
    whose body is JSON; an [ok] response with another body counts as a
    failure. *)
Theorem postToTwitter_success tweetText env host :
  let r := postToTwitter tweetText env host in
  (length (sent (trace_of r)) <= 1)%nat /\
  (forall req, In req (sent (trace_of r)) ->
     req_url req = twitter_url /\ req_method req = lit "POST" /\
     req_body req = JObject [(lit "text", JString tweetText)]) /\
  (result_of r = Normal true <->
   exists req, sent (trace_of r) = [req] /\ answered_json host req = true).
Proof.
  cbv zeta.
  destruct (postToTwitter_outcome tweetText env host)
    as [(Hs & Hr) | (header & Hs & Hr)]; rewrite Hs, Hr.
  - split; [cbn; lia|]. split; [intros req []|].
    split; [discriminate | intros (req & H & _); discriminate H].
  - split; [cbn; lia|]. split.
    + intros req [<-|[]]. repeat split.
    + split.
      * intros H. injection H as H. eexists. split; [reflexivity|exact H].
      * intros (req & H & Hok). injection H as <-. rewrite Hok. reflexivity.
Qed.

Lemma sendTelegramMessage_outcome tweet prefix env host :
  let r := sendTelegramMessage tweet prefix env host in
  let absent := missing (env_get TG_BOT_TOKEN env) ||
                missing (env_get TG_CHAT_ID env) in
  sent (trace_of r) =
    (if absent then [] else [telegram_request tweet prefix env]) /\
  result_of r =
    Normal (negb absent &&
            answered_ok host (telegram_request tweet prefix env)).
Proof.
  cbv zeta. unfold sendTelegramMessage, answered_ok, telegram_request.
  destruct (missing (env_get TG_BOT_TOKEN env) ||
            missing (env_get TG_CHAT_ID env)).
  - split; reflexivity.
  - run_eff.
    match goal with |- context [fetch host ?req] =>
      destruct (fetch host req) as [|ok body] end.
    + split; reflexivity.
    + destruct ok; split; reflexivity.
Qed.

(** [sendTelegramMessage] sends nothing when the bot token or the chat
    identifier is missing, and otherwise one request whose text is the
    prefix followed by the tweet it was given; it returns [true] exactly
    when that request was answered with an [ok] response. *)
Theorem sendTelegramMessage_spec tweet prefix env host :
  let r := sendTelegramMessage tweet prefix env host in
  let absent := missing (env_get TG_BOT_TOKEN env) ||
                missing (env_get TG_CHAT_ID env) in
  sent (trace_of r) =
    (if absent then [] else [telegram_request tweet prefix env]) /\
  result_of r =
    Normal (negb absent &&
            answered_ok host (telegram_request tweet prefix env)).
Proof. exact (@sendTelegramMessage_outcome tweet prefix env host). Qed.

Lemma postToTwitter_success_witness :
  exists req,
    sent (trace_of (postToTwitter (lit "hi") env0 host0)) = [req] /\
    answered_json host0 req = true.
Proof.
  apply (proj1 (proj2 (proj2 (postToTwitter_success (lit "hi") env0 host0)))).
  vm_compute. reflexivity.
Defined.

Lemma sent_app t1 t2 : sent (t1 ++ t2) = sent t1 ++ sent t2.
Proof.
  induction t1 as [|e t1 IH]; [reflexivity|].
  destruct e; cbn [sent app]; rewrite IH; reflexivity.
Qed.

(** [postTweet] sends first what [postToTwitter] sends for the text as it
    is, unless the consumer key is missing, and then what
    [sendTelegramMessage] sends: the prefix, not escaped, followed by the
    escaped text. *)
Theorem postTweet_requests content telegramPrefix env host :
  sent (trace_of (postTweet content telegramPrefix env host)) =
  (if missing (env_get TWITTER_CONSUMER_KEY env) then []
   else sent (trace_of (postToTwitter content env host)))
  ++
  (if missing (env_get TG_BOT_TOKEN env) || missing (env_get TG_CHAT_ID env)
   then []
   else [telegram_request (escaped content) telegramPrefix env]).
Proof.
  destruct (sendTelegramMessage_outcome (escaped content) telegramPrefix
              env host) as (Hs2 & Hr2).
  cbv zeta in Hs2, Hr2. rewrite <- Hs2. clear Hs2.
  destruct (postToTwitter_total content env host) as (b1 & Hb1).
  unfold postTweet, escapeTelegramMarkdown.
  destruct (sendTelegramMessage (escaped content) telegramPrefix env host)
    as [t2 c2] eqn:Ht2.
  cbn [result_of trace_of fst snd] in *. subst c2.
  destruct (postToTwitter content env host) as [t1 c1].
  cbn [result_of trace_of fst snd] in *. subst c1.
  unfold try_catch, bind, emit, ret, trace_of.
  destruct (missing (env_get TWITTER_CONSUMER_KEY env));
    cbn [negb fst snd app].
  - rewrite Ht2. cbn [fst snd app]. rewrite app_nil_r. reflexivity.
  - destruct b1; cbn [fst snd app]; rewrite Ht2; cbn [fst snd app];
      rewrite app_nil_r, !sent_app; cbn [sent app];
      rewrite ?app_nil_r; reflexivity.
Qed.

(** ** [JSON.parse] and [trim]

    White space around a JSON text does not change its value, and the
    code units that [trim] removes and JSON does not skip cannot end a
    text that parses. *)

Lemma trim_space_range c :
  is_trim_space c = true -> (9 <= c <= 13 \/ c = 32 \/ 160 <= c)%N.
Proof.
  unfold is_trim_space.
  rewrite !orb_true_iff, !andb_true_iff, !N.leb_le, !N.eqb_eq. lia.
Qed.

Lemma json_ws_trim_space c : is_json_ws c = true -> is_trim_space c = true.
Proof.
  unfold is_json_ws. rewrite !orb_true_iff, !N.eqb_eq.
  intros [[[->| ->]| ->]| ->]; reflexivity.
Qed.

Lemma space_not_digit c : is_trim_space c = true -> is_digit c = false.
Proof.
  intros H. apply trim_space_range in H. unfold is_digit.
  apply andb_false_iff. rewrite !N.leb_gt. lia.
Qed.

Lemma hex_val_space c : is_trim_space c = true -> hex_val c = None.
Proof.
  intros H. unfold hex_val. rewrite (@space_not_digit c H).
  apply trim_space_range in H.
  replace ((65 <=? c) && (c <=? 70))%N with false
    by (symmetry; apply andb_false_iff; rewrite !N.leb_gt; lia).
  replace ((97 <=? c) && (c <=? 102))%N with false
    by (symmetry; apply andb_false_iff; rewrite !N.leb_gt; lia).
  reflexivity.
Qed.

(** A comparison of a trimmed code unit with a character of the grammar
    fails. *)
Ltac not_token c Hc :=
  repeat match goal with
         | |- context [(c =? ?t)%N] =>
             let E := fresh "E" in
             destruct (c =? t)%N eqn:E;
             [apply N.eqb_eq in E; rewrite E in Hc; vm_compute in Hc;
              discriminate Hc|]
         end.

Definition spaces (b : jsstring) : Prop := forallb is_trim_space b = true.

Lemma spaces_cons c b : spaces (c :: b) -> is_trim_space c = true /\ spaces b.
Proof. unfold spaces. cbn [forallb]. apply andb_true_iff. Qed.

Lemma skip_ws_app_cases x b :
  spaces b ->
  (exists c r, skip_ws x = c :: r /\ skip_ws (x ++ b) = c :: r ++ b) \/
  (skip_ws x = [] /\
   (skip_ws (x ++ b) = [] \/
    exists c r, skip_ws (x ++ b) = c :: r /\
                is_trim_space c = true /\ is_json_ws c = false)).
Proof.
  intros Hb. induction x as [|c x IH].
  - right. split; [reflexivity|]. cbn [app].
    clear -Hb. induction b as [|c b IH]; [left; reflexivity|].
    apply spaces_cons in Hb as [Hc Hb]. cbn [skip_ws].
    destruct (is_json_ws c) eqn:E; [exact (IH Hb)|].
    right. exists c, b. repeat split; assumption.
  - cbn [app skip_ws]. destruct (is_json_ws c); [exact IH|].
    left. exists c, x. split; reflexivity.
Qed.

Lemma skip_ws_head s c r : skip_ws s = c :: r -> is_json_ws c = false.
Proof.
  induction s as [|x s IH]; cbn [skip_ws]; [discriminate|].
  destruct (is_json_ws x) eqn:E; [exact IH|].
  intros H. injection H as <- _. exact E.
Qed.

Lemma skip_ws_idem s : skip_ws (skip_ws s) = skip_ws s.
Proof.
  induction s as [|x s IH]; [reflexivity|]. cbn [skip_ws].
  destruct (is_json_ws x) eqn:E; [exact IH|]. cbn [skip_ws]. rewrite E.
  reflexivity.
Qed.

(** What a parser returns on [x ++ b] when it returns [p] on [x] and [b]
    is left alone. *)
Definition extend {A} (b : jsstring) (p : presult A) : presult A :=
  match p with
  | POk a r => POk a (r ++ b)
  | PSyntaxError => PSyntaxError
  | POutOfFuel => POutOfFuel
  end.

(** The same up to the kind of failure. *)
Definition agree {A} (b : jsstring) (long short : presult A) : Prop :=
  match short with
  | POk a r => long = POk a (r ++ b)
  | _ => forall a r, long <> POk a r
  end.

Lemma extend_agree {A} b (long short : presult A) :
  long = extend b short -> agree b long short.
Proof. intros ->. destruct short; cbn; [reflexivity | discriminate..]. Qed.

Lemma parse_digits_spaces b :
  spaces b ->
  forall x acc n,
    parse_digits (x ++ b) acc n =
    (let '(m, k, r) := parse_digits x acc n in (m, k, r ++ b)).
Proof.
  intros Hb. induction x as [|c x IH]; intros acc n.
  - cbn [app parse_digits]. destruct b as [|c b']; [reflexivity|].
    apply spaces_cons in Hb as [Hc _].
    cbn [parse_digits]. rewrite (space_not_digit _ Hc). reflexivity.
  - cbn [app parse_digits]. destruct (is_digit c); [apply IH | reflexivity].
Qed.

Lemma parse_exp_spaces b m fl sign x :
  spaces b ->
  parse_exp m fl sign (x ++ b) = extend b (parse_exp m fl sign x).
Proof.
  intros Hb. destruct x as [|c r].
  - cbn [app]. destruct b as [|cb b']; [reflexivity|].
    pose proof Hb as Hb0. apply spaces_cons in Hb0 as [Hc _].
    unfold parse_exp. not_token cb Hc. reflexivity.
  - cbn [app]. unfold parse_exp.
    destruct ((c =? 101) || (c =? 69))%N; [|reflexivity].
    destruct r as [|x r'].
    + cbn [app]. destruct b as [|cb b']; [reflexivity|].
      apply spaces_cons in Hb as [Hc _]. not_token cb Hc.
      cbn [parse_digits]. rewrite (space_not_digit _ Hc). reflexivity.
    + cbn [app].
      destruct (x =? 45)%N.
      { rewrite (@parse_digits_spaces b Hb).
        destruct (parse_digits r' 0%N 0) as [[e n] r2].
        destruct n; reflexivity. }
      destruct (x =? 43)%N.
      { rewrite (@parse_digits_spaces b Hb).
        destruct (parse_digits r' 0%N 0) as [[e n] r2].
        destruct n; reflexivity. }
      change (x :: r' ++ b) with ((x :: r') ++ b).
      rewrite (@parse_digits_spaces b Hb).
      destruct (parse_digits (x :: r') 0%N 0) as [[e n] r2].
      destruct n; reflexivity.
Qed.

Lemma parse_frac_spaces b m sign x :
  spaces b ->
  parse_frac m sign (x ++ b) = extend b (parse_frac m sign x).
Proof.
  intros Hb. destruct x as [|c r].
  - cbn [app]. destruct b as [|cb b']; [reflexivity|].
    pose proof Hb as Hb0. apply spaces_cons in Hb0 as [Hc _].
    unfold parse_frac. not_token cb Hc.
    apply (@parse_exp_spaces (cb :: b') m 0%nat sign [] Hb).
  - cbn [app]. unfold parse_frac.
    destruct (c =? 46)%N.
    + rewrite (@parse_digits_spaces b Hb).
      destruct (parse_digits r m 0) as [[m' n] r1].
      destruct n; [reflexivity|]. apply parse_exp_spaces; exact Hb.
    + apply (@parse_exp_spaces b m 0%nat sign (c :: r) Hb).
Qed.

Lemma parse_number_space c r :
  is_trim_space c = true -> parse_number (c :: r) = PSyntaxError.
Proof.
  intros Hc. unfold parse_number. not_token c Hc.
  rewrite (space_not_digit _ Hc). reflexivity.
Qed.

Lemma parse_number_spaces b x :
  spaces b -> parse_number (x ++ b) = extend b (parse_number x).
Proof.
  intros Hb. destruct x as [|c r].
  - cbn [app]. destruct b as [|cb b']; [reflexivity|].
    apply spaces_cons in Hb as [Hc _]. apply parse_number_space. exact Hc.
  - cbn [app]. unfold parse_number.
    destruct (c =? 45)%N.
    + destruct r as [|d r'].
      * cbn [app]. destruct b as [|cb b']; [reflexivity|].
        apply spaces_cons in Hb as [Hc _]. not_token cb Hc.
        rewrite (space_not_digit _ Hc). reflexivity.
      * cbn [app]. destruct (d =? 48)%N;
          [apply parse_frac_spaces; exact Hb|].
        destruct (is_digit d); [|reflexivity].
        change (d :: r' ++ b) with ((d :: r') ++ b).
        rewrite (@parse_digits_spaces b Hb).
        destruct (parse_digits (d :: r') 0%N 0) as [[m k] r1].
        apply parse_frac_spaces; exact Hb.
    + destruct (c =? 48)%N; [apply parse_frac_spaces; exact Hb|].
      destruct (is_digit c); [|reflexivity].
      change (c :: r ++ b) with ((c :: r) ++ b).
      rewrite (@parse_digits_spaces b Hb).
      destruct (parse_digits (c :: r) 0%N 0) as [[m k] r1].
      apply parse_frac_spaces; exact Hb.
Qed.

Lemma strip_prefix_spaces b p :
  spaces b ->
  forallb (fun c => negb (is_trim_space c)) p = true ->
  forall x,
    strip_prefix p (x ++ b) =
    match strip_prefix p x with Some r => Some (r ++ b) | None => None end.
Proof.
  intros Hb. induction p as [|a p IH]; intros Hp x.
  - destruct x; reflexivity.
  - cbn [forallb] in Hp. apply andb_true_iff in Hp as [Ha Hp].
    destruct x as [|y x].
    + cbn [app strip_prefix]. destruct b as [|cb b']; [reflexivity|].
      apply spaces_cons in Hb as [Hc _].
      destruct (N.eqb a cb) eqn:E; [|reflexivity].
      apply N.eqb_eq in E. subst cb. rewrite Hc in Ha. discriminate Ha.
    + cbn [app strip_prefix]. destruct (N.eqb a y); [|reflexivity].
      apply IH. exact Hp.
Qed.

Lemma expect_spaces b l v x :
  spaces b ->
  forallb (fun c => negb (is_trim_space c)) l = true ->
  expect l v (x ++ b) = extend b (expect l v x).
Proof.
  intros Hb Hl. unfold expect. rewrite (@strip_prefix_spaces b l Hb Hl).
  destruct (strip_prefix l x); reflexivity.
Qed.

Lemma parse_chars_only_spaces b :
  spaces b -> forall acc, parse_chars b acc = PSyntaxError.
Proof.
  induction b as [|c b IH]; intros Hb acc; [reflexivity|].
  apply spaces_cons in Hb as [Hc Hb]. cbn [parse_chars].
  not_token c Hc. destruct (c <? 32)%N; [reflexivity|]. apply IH. exact Hb.
Qed.

Lemma hex4_space a b c d :
  hex_val a = None \/ hex_val b = None \/ hex_val c = None \/
  hex_val d = None ->
  hex4 a b c d = None.
Proof.
  unfold hex4. intros H.
  destruct (hex_val a), (hex_val b), (hex_val c), (hex_val d);
    try reflexivity; destruct H as [H|[H|[H|H]]]; discriminate H.
Qed.

Lemma parse_chars_spaces b :
  spaces b ->
  forall n x acc,
    (length x <= n)%nat ->
    parse_chars (x ++ b) acc = extend b (parse_chars x acc).
Proof.
  intros Hb. induction n as [|n IH]; intros [|c r] acc Hn;
    cbn [length] in Hn; try lia;
    try (cbn [app]; rewrite (@parse_chars_only_spaces b Hb); reflexivity).
  cbn [app parse_chars].
  destruct (c =? 34)%N; [reflexivity|].
  destruct (c <? 32)%N; [reflexivity|].
  destruct (c =? 92)%N; [|apply IH; lia].
  destruct r as [|e r1].
  { cbn [app]. destruct b as [|cb b']; [reflexivity|].
    apply spaces_cons in Hb as [Hc _]. not_token cb Hc. reflexivity. }
  cbn [app]. cbn [length] in Hn.
  repeat match goal with
         | |- context [if (e =? ?t)%N then parse_chars _ _ else _] =>
             destruct (e =? t)%N; [apply IH; lia|]
         end.
  destruct (e =? 117)%N; [|reflexivity].
  destruct r1 as [|h1 [|h2 [|h3 [|h4 r2]]]].
  - cbn [app]. destruct b as [|b1 [|b2 [|b3 [|b4 b5]]]]; try reflexivity.
    apply spaces_cons in Hb as [Hc _].
    rewrite hex4_space; [reflexivity|]. left. apply hex_val_space; exact Hc.
  - cbn [app]. destruct b as [|b1 [|b2 [|b3 b4]]]; try reflexivity.
    apply spaces_cons in Hb as [Hc _].
    rewrite hex4_space; [reflexivity|].
    right; left. apply hex_val_space; exact Hc.
  - cbn [app]. destruct b as [|b1 [|b2 b3]]; try reflexivity.
    apply spaces_cons in Hb as [Hc _].
    rewrite hex4_space; [reflexivity|].
    right; right; left. apply hex_val_space; exact Hc.
  - cbn [app]. destruct b as [|b1 b2]; try reflexivity.
    apply spaces_cons in Hb as [Hc _].
    rewrite hex4_space; [reflexivity|].
    right; right; right. apply hex_val_space; exact Hc.
  - cbn [app]. destruct (hex4 h1 h2 h3 h4); [|reflexivity].
    apply IH. cbn [length] in Hn. lia.
Qed.

Lemma parse_value_space c r :
  is_trim_space c = true -> is_json_ws c = false ->
  forall fuel v r', parse_value fuel (c :: r) <> POk v r'.
Proof.
  intros Hc Hw [|f] v r'; [discriminate|].
  cbn [parse_value skip_ws]. rewrite Hw. not_token c Hc.
  rewrite (@parse_number_space c r Hc). discriminate.
Qed.

Lemma parse_elements_space c r :
  is_trim_space c = true -> is_json_ws c = false ->
  forall fuel acc v r', parse_elements fuel (c :: r) acc <> POk v r'.
Proof.
  intros Hc Hw [|f] acc v r'; [discriminate|].
  cbn [parse_elements].
  pose proof (@parse_value_space c r Hc Hw f) as H.
  destruct (parse_value f (c :: r)) as [v0 r0| |];
    [exfalso; exact (H v0 r0 eq_refl) | discriminate | discriminate].
Qed.

Lemma parse_members_space c r :
  is_trim_space c = true -> is_json_ws c = false ->
  forall fuel acc v r', parse_members fuel (c :: r) acc <> POk v r'.
Proof.
  intros Hc Hw [|f] acc v r'; [discriminate|].
  cbn [parse_members skip_ws]. rewrite Hw. not_token c Hc. discriminate.
Qed.

Ltac failed := cbn [agree]; intros ? ?; discriminate.

(** Code units that [trim] removes, put after a text, do not change what
    the parsers make of the text. *)
Lemma parse_spaces b :
  spaces b ->
  forall fuel,
    (forall x, agree b (parse_value fuel (x ++ b)) (parse_value fuel x)) /\
    (forall x acc,
       agree b (parse_elements fuel (x ++ b) acc)
               (parse_elements fuel x acc)) /\
    (forall x acc,
       agree b (parse_members fuel (x ++ b) acc)
               (parse_members fuel x acc)).
Proof.
  intros Hb. induction fuel as [|f (IHv & IHe & IHm)].
  - repeat split; intros; failed.
  - split; [|split].
    + intros x. cbn [parse_value].
      destruct (@skip_ws_app_cases x b Hb)
        as [(c & r0 & Hx & Hxb) | (Hx & [Hxb | (c & r & Hxb & Hc & Hw)])];
        rewrite Hx, Hxb; [|failed|].
      2:{ not_token c Hc. rewrite (@parse_number_space c r Hc). failed. }
      destruct (c =? 123)%N.
      { destruct (@skip_ws_app_cases r0 b Hb)
          as [(c' & r' & Hr & Hrb)
             | (Hr & [Hrb | (c' & r' & Hrb & Hc' & Hw')])];
          rewrite Hr, Hrb; [|failed|].
        - destruct (c' =? 125)%N; [reflexivity|].
          apply (IHm (c' :: r') []).
        - not_token c' Hc'.
          pose proof (@parse_members_space c' r' Hc' Hw' f []) as H.
          cbn [agree]. exact H. }
      destruct (c =? 91)%N.
      { destruct (@skip_ws_app_cases r0 b Hb)
          as [(c' & r' & Hr & Hrb)
             | (Hr & [Hrb | (c' & r' & Hrb & Hc' & Hw')])];
          rewrite Hr, Hrb; [|failed|].
        - destruct (c' =? 93)%N; [reflexivity|].
          apply (IHe (c' :: r') []).
        - not_token c' Hc'.
          pose proof (@parse_elements_space c' r' Hc' Hw' f []) as H.
          cbn [agree]. exact H. }
      destruct (c =? 34)%N.
      { rewrite (@parse_chars_spaces b Hb (length r0) r0 [] (le_n _)).
        destruct (parse_chars r0 []); cbn [extend agree];
          [reflexivity | intros ? ?; discriminate
          | intros ? ?; discriminate]. }
      destruct (c =? 116)%N.
      { apply extend_agree.
        apply (@expect_spaces b (lit "true") (JBool true) (c :: r0) Hb).
        reflexivity. }
      destruct (c =? 102)%N.
      { apply extend_agree.
        apply (@expect_spaces b (lit "false") (JBool false) (c :: r0) Hb).
        reflexivity. }
      destruct (c =? 110)%N.
      { apply extend_agree.
        apply (@expect_spaces b (lit "null") JNull (c :: r0) Hb).
        reflexivity. }
      change (c :: r0 ++ b) with ((c :: r0) ++ b).
      rewrite (@parse_number_spaces b (c :: r0) Hb).
      destruct (parse_number (c :: r0)); cbn [extend agree];
        [reflexivity | intros ? ?; discriminate | intros ? ?; discriminate].
    + intros x acc. cbn [parse_elements].
      pose proof (IHv x) as Hv.
      destruct (parse_value f x) as [v r0| |]; cbn [agree] in Hv.
      2,3: destruct (parse_value f (x ++ b)) as [v1 r1| |];
           [exfalso; exact (Hv v1 r1 eq_refl) | failed | failed].
      rewrite Hv.
      destruct (@skip_ws_app_cases r0 b Hb)
        as [(c & r1 & Hr & Hrb) | (Hr & [Hrb | (c & r1 & Hrb & Hc & Hw)])];
        rewrite Hr, Hrb; [|failed|].
      * destruct (c =? 44)%N; [apply IHe|].
        destruct (c =? 93)%N; [reflexivity | failed].
      * not_token c Hc. failed.
    + intros x acc. cbn [parse_members].
      destruct (@skip_ws_app_cases x b Hb)
        as [(q & r0 & Hx & Hxb) | (Hx & [Hxb | (q & r0 & Hxb & Hq & Hw)])];
        rewrite Hx, Hxb; [|failed|].
      2:{ not_token q Hq. failed. }
      destruct (q =? 34)%N; [|failed].
      rewrite (@parse_chars_spaces b Hb (length r0) r0 [] (le_n _)).
      destruct (parse_chars r0 []) as [k r1| |]; cbn [extend];
        [|failed|failed].
      destruct (@skip_ws_app_cases r1 b Hb)
        as [(c & r2 & Hr & Hrb) | (Hr & [Hrb | (c & r2 & Hrb & Hc & Hw)])];
        rewrite Hr, Hrb; [|failed|].
      2:{ not_token c Hc. failed. }
      destruct (c =? 58)%N; [|failed].
      pose proof (IHv r2) as Hv.
      destruct (parse_value f r2) as [v r3| |]; cbn [agree] in Hv.
      2,3: destruct (parse_value f (r2 ++ b)) as [v1 r1'| |];
           [exfalso; exact (Hv v1 r1' eq_refl) | failed | failed].
      rewrite Hv.
      destruct (@skip_ws_app_cases r3 b Hb)
        as [(d & r4 & Hr3 & Hrb3)
           | (Hr3 & [Hrb3 | (d & r4 & Hrb3 & Hd & Hw)])];
        rewrite Hr3, Hrb3; [|failed|].
      * destruct (d =? 44)%N; [apply IHm|].
        destruct (d =? 125)%N; [reflexivity | failed].
      * not_token d Hd. failed.
Qed.

(** More fuel does not change a result that did not run out of it. *)
Lemma parse_more_fuel f :
  forall g, (f <= g)%nat ->
    (forall s, parse_value f s <> POutOfFuel ->
               parse_value g s = parse_value f s) /\
    (forall s acc, parse_elements f s acc <> POutOfFuel ->
                   parse_elements g s acc = parse_elements f s acc) /\
    (forall s acc, parse_members f s acc <> POutOfFuel ->
                   parse_members g s acc = parse_members f s acc).
Proof.
  induction f as [|f IH]; intros g Hg.
  - repeat split; intros; exfalso; apply H; reflexivity.
  - destruct g as [|g]; [lia|].
    destruct (IH g ltac:(lia)) as (IHv & IHe & IHm).
    split; [|split].
    + intros s H. cbn [parse_value] in *.
      destruct (skip_ws s) as [|c r]; [reflexivity|].
      destruct (c =? 123)%N.
      { destruct (skip_ws r) as [|c' r']; [reflexivity|].
        destruct (c' =? 125)%N; [reflexivity|]. apply IHm. exact H. }
      destruct (c =? 91)%N.
      { destruct (skip_ws r) as [|c' r']; [reflexivity|].
        destruct (c' =? 93)%N; [reflexivity|]. apply IHe. exact H. }
      reflexivity.
    + intros s acc H. cbn [parse_elements] in *.
      destruct (parse_value f s) as [v r| |] eqn:E.
      * rewrite (IHv s) by (rewrite E; discriminate). rewrite E.
        destruct (skip_ws r) as [|c r1]; [reflexivity|].
        destruct (c =? 44)%N; [apply IHe; exact H | reflexivity].
      * rewrite (IHv s) by (rewrite E; discriminate). rewrite E.
        reflexivity.
      * exfalso. apply H. reflexivity.
    + intros s acc H. cbn [parse_members] in *.
      destruct (skip_ws s) as [|q r0]; [reflexivity|].
      destruct (q =? 34)%N; [|reflexivity].
      destruct (parse_chars r0 []) as [k r1| |]; try reflexivity.
      destruct (skip_ws r1) as [|c r2]; [reflexivity|].
      destruct (c =? 58)%N; [|reflexivity].
      destruct (parse_value f r2) as [v r3| |] eqn:E.
      * rewrite (IHv r2) by (rewrite E; discriminate). rewrite E.
        destruct (skip_ws r3) as [|d r4]; [reflexivity|].
        destruct (d =? 44)%N; [apply IHm; exact H | reflexivity].
      * rewrite (IHv r2) by (rewrite E; discriminate). rewrite E.
        reflexivity.
      * exfalso. apply H. reflexivity.
Qed.

Lemma parse_value_skip_ws fuel s :
  parse_value fuel (skip_ws s) = parse_value fuel s.
Proof.
  destruct fuel as [|f]; [reflexivity|]. cbn [parse_value].
  rewrite skip_ws_idem. reflexivity.
Qed.

Lemma trimStart_skip_ws s c r :
  skip_ws s = c :: r -> is_trim_space c = false -> trimStart s = c :: r.
Proof.
  intros Hs Hc. induction s as [|x s IH]; [discriminate Hs|].
  cbn [skip_ws] in Hs. cbn [trimStart].
  destruct (is_json_ws x) eqn:E.
  - rewrite (@json_ws_trim_space x E). exact (IH Hs).
  - injection Hs as -> ->. rewrite Hc. reflexivity.
Qed.

Lemma trimStart_split s :
  exists d, s = d ++ trimStart s /\ spaces d.
Proof.
  induction s as [|c s (d & Hd & Hsp)].
  - exists []. split; reflexivity.
  - cbn [trimStart]. destruct (is_trim_space c) eqn:E.
    + exists (c :: d). split; [cbn [app]; f_equal; exact Hd|].
      unfold spaces. cbn [forallb]. rewrite E. exact Hsp.
    + exists []. split; reflexivity.
Qed.

Lemma spaces_rev d : spaces d -> spaces (rev d).
Proof.
  unfold spaces. rewrite !forallb_forall. intros H x Hx.
  apply H. apply in_rev. exact Hx.
Qed.

(** What [trim] removes at the end. *)
Lemma trimEnd_split t :
  exists b, t = rev (trimStart (rev t)) ++ b /\ spaces b.
Proof.
  destruct (trimStart_split (rev t)) as (d & Hd & Hsp).
  exists (rev d). split; [|apply spaces_rev; exact Hsp].
  rewrite <- rev_app_distr, <- Hd, rev_involutive. reflexivity.
Qed.

(** A text that [JSON.parse] accepts has the same value after [trim]. *)
Lemma JSON_parse_trim j v :
  JSON_parse j = Normal v -> JSON_parse (trim j) = Normal v.
Proof.
  unfold JSON_parse. intros H.
  destruct (parse_value (2 * length j + 1) j) as [v0 r| |] eqn:E;
    try discriminate H.
  destruct (skip_ws r) as [|c0 r0] eqn:Er; [|discriminate H].
  injection H as ->.
  rewrite <- parse_value_skip_ws in E.
  destruct (skip_ws j) as [|c t] eqn:Ej.
  { destruct (2 * length j + 1)%nat; discriminate E. }
  assert (Hc : is_trim_space c = false).
  { destruct (is_trim_space c) eqn:Hc; [|reflexivity]. exfalso.
    exact (@parse_value_space c t Hc (@skip_ws_head j c t Ej) _ _ _ E). }
  unfold trim. rewrite (@trimStart_skip_ws j c t Ej Hc).
  destruct (trimEnd_split (c :: t)) as (b & Hsplit & Hb).
  set (a := rev (trimStart (rev (c :: t)))) in *.
  rewrite Hsplit in E.
  destruct (@parse_spaces b Hb (2 * length j + 1)) as (Hv & _ & _).
  specialize (Hv a). rewrite E in Hv.
  destruct (parse_fuel (2 * length a + 1)) as (Hfuel & _ & _).
  specialize (Hfuel a ltac:(lia)).
  assert (Hlen : (length a <= length j)%nat).
  { pose proof (skip_ws_length j) as Hl. rewrite Ej, Hsplit in Hl.
    rewrite length_app in Hl. lia. }
  destruct (@parse_more_fuel (2 * length a + 1) (2 * length j + 1)
              ltac:(lia)) as (Hmore & _ & _).
  specialize (Hmore a Hfuel). rewrite <- Hmore.
  destruct (parse_value (2 * length j + 1) a) as [v1 r1| |];
    cbn [agree] in Hv.
  - injection Hv as <- ->.
    destruct (@skip_ws_app_cases r1 b Hb)
      as [(c1 & r2 & _ & Hrb) | (Hr1 & _)].
    + rewrite Hrb in Er. discriminate Er.
    + rewrite Hr1. reflexivity.
  - exfalso. exact (Hv _ _ eq_refl).
  - exfalso. exact (Hv _ _ eq_refl).
Qed.

(** ** Fenced replies *)

Definition BACKTICK : N := 96%N.

(** A reply in a fence opened by [opening]. *)
Definition fenced (opening j : jsstring) : jsstring :=
  opening ++ LF ++ j ++ LF ++ lit "```".

Lemma remove_all_from_plain p2tail p1tail j : forall t,
  ~ In BACKTICK j ->
  remove_all_from (BACKTICK :: p1tail) (BACKTICK :: p2tail) O (j ++ t) =
  j ++ remove_all_from (BACKTICK :: p1tail) (BACKTICK :: p2tail) O t.
Proof.
  induction j as [|c j IH]; intros t Hj; [reflexivity|].
  cbn [app remove_all_from].
  assert (Hc : N.eqb BACKTICK c = false).
  { apply N.eqb_neq. intros E. apply Hj. left. symmetry; exact E. }
  unfold starts_with. cbn [strip_prefix]. rewrite Hc.
  f_equal. apply IH. intros Hin. apply Hj. right; exact Hin.
Qed.

Lemma trimStart_app_LF s :
  trimStart (rev (trimStart (s ++ [10%N]))) = trimStart (rev (trimStart s)).
Proof.
  induction s as [|c s IH]; [reflexivity|].
  cbn [app trimStart]. destruct (is_trim_space c) eqn:E; [exact IH|].
  change (c :: s ++ [10%N]) with ((c :: s) ++ [10%N]). rewrite rev_app_distr.
  reflexivity.
Qed.

Lemma strip_fences_fenced j :
  ~ In BACKTICK j ->
  strip_fences (fenced (lit "```json") j) = trim j /\
  strip_fences (fenced (lit "```") j) = trim j.
Proof.
  intros Hj. unfold strip_fences, fenced, remove_all, LF.
  split.
  - change (lit "```json" ++ [10%N] ++ j ++ [10%N] ++ lit "```")
      with (lit "```json" ++ 10%N :: (j ++ [10%N] ++ lit "```")).
    assert (H : remove_all_from (lit "```json") (lit "```") 0
                  (lit "```json" ++ 10%N :: (j ++ [10%N] ++ lit "```"))
                = 10%N :: remove_all_from (lit "```json") (lit "```") 0
                             (j ++ [10%N] ++ lit "```")) by reflexivity.
    rewrite H. clear H.
    change (lit "```json") with (BACKTICK :: lit "``json").
    change (lit "```") with (BACKTICK :: lit "``").
    rewrite remove_all_from_plain by exact Hj.
    change (remove_all_from _ _ 0 ([10%N] ++ BACKTICK :: lit "``"))
      with [10%N].
    unfold trim.
    change (trimStart (10%N :: j ++ [10%N])) with (trimStart (j ++ [10%N])).
    rewrite trimStart_app_LF. reflexivity.
  - change (lit "```" ++ [10%N] ++ j ++ [10%N] ++ lit "```")
      with (lit "```" ++ 10%N :: (j ++ [10%N] ++ lit "```")).
    assert (H : remove_all_from (lit "```json") (lit "```") 0
                  (lit "```" ++ 10%N :: (j ++ [10%N] ++ lit "```"))
                = 10%N :: remove_all_from (lit "```json") (lit "```") 0
                             (j ++ [10%N] ++ lit "```")) by reflexivity.
    rewrite H. clear H.
    change (lit "```json") with (BACKTICK :: lit "``json").
    change (lit "```") with (BACKTICK :: lit "``").
    rewrite remove_all_from_plain by exact Hj.
    change (remove_all_from _ _ 0 ([10%N] ++ BACKTICK :: lit "``"))
      with [10%N].
    unfold trim.
    change (trimStart (10%N :: j ++ [10%N])) with (trimStart (j ++ [10%N])).
    rewrite trimStart_app_LF. reflexivity.
Qed.

(** A text that starts with a backtick is not JSON. *)
Lemma JSON_parse_backtick s : JSON_parse (BACKTICK :: s) = Throw SyntaxError.
Proof.
  unfold JSON_parse.
  replace (2 * length (BACKTICK :: s) + 1)%nat
    with (S (2 * length (BACKTICK :: s))) by lia.
  reflexivity.
Qed.

(** For a reply [j] without backticks, wrapped in a fence with or without
    the [json] tag, [parseTweet] returns the [tweet] member of the value
    of the trimmed [j], as it is, and [undefined] when there is none or
    when the trimmed [j] is not JSON: behind a fence the fallback to
    [toString()] does not apply.  When the bare reply, with or without
    white space around it, is JSON with a truthy [tweet] member, the
    fenced and the bare reply give the same result. *)
Theorem parseTweet_fenced dtoa rounds_to_zero j :
  ~ In BACKTICK j ->
  let inner := match JSON_parse (trim j) with
               | Normal v => tweet_field v
               | Throw _ => None
               end in
  parseTweet dtoa rounds_to_zero (fenced (lit "```json") j) = inner /\
  parseTweet dtoa rounds_to_zero (fenced (lit "```") j) = inner /\
  (forall v, JSON_parse j = Normal v ->
             truthy rounds_to_zero (tweet_field v) = true ->
             parseTweet dtoa rounds_to_zero j = inner).
Proof.
  intros Hj inner.
  destruct (@strip_fences_fenced j Hj) as (H1 & H2).
  assert (Hretry : forall res,
            strip_fences res = trim j ->
            match parseTweet_stripped res with
            | Normal tweet => tweet
            | Throw _ => None
            end = inner).
  { intros res Hres. unfold parseTweet_stripped, inner. rewrite Hres.
    destruct (JSON_parse (trim j)) as [v|]; [|reflexivity].
    destruct v; reflexivity. }
  split; [|split].
  - unfold parseTweet, parseTweet_strict.
    change (fenced (lit "```json") j)
      with (BACKTICK :: (lit "``json" ++ LF ++ j ++ LF ++ lit "```")) at 1.
    rewrite JSON_parse_backtick. cbn [bindC]. apply Hretry. exact H1.
  - unfold parseTweet, parseTweet_strict.
    change (fenced (lit "```") j)
      with (BACKTICK :: (lit "``" ++ LF ++ j ++ LF ++ lit "```")) at 1.
    rewrite JSON_parse_backtick. cbn [bindC]. apply Hretry. exact H2.
  - intros v Hv Ht. unfold inner. rewrite (@JSON_parse_trim j v Hv).
    unfold parseTweet, parseTweet_strict. rewrite Hv. cbn [bindC].
    destruct v; try discriminate Ht.
    cbn [get_property tweet_field bindC] in *. rewrite Ht. reflexivity.
Qed.

Lemma parseTweet_fenced_witness :
  let j := litq "{'tweet':'hi','n':1}" ++ LF in
  parseTweet (fun _ => []) (fun _ => false) (fenced (lit "```json") j)
  = Some (JString (lit "hi")) /\
  parseTweet (fun _ => []) (fun _ => false) j
  = parseTweet (fun _ => []) (fun _ => false) (fenced (lit "```") j).
Proof.
  intros j.
  assert (Hj : ~ In BACKTICK j).
  { vm_compute. intros H.
    repeat (destruct H as [H|H]; [discriminate H|]). exact H. }
  destruct (@parseTweet_fenced (fun _ => []) (fun _ => false) j Hj)
    as (H1 & H2 & H3).
  split.
  - rewrite H1. vm_compute. reflexivity.
  - rewrite H2. eapply H3.
    + vm_compute. reflexivity.
    + vm_compute. reflexivity.
Defined.

End TwitterService.

(* ================================================================== *)
(** * ai.service.ts *)
(* ================================================================== *)

Module AIService.

Import JSON Runtime TwitterService.

(** [x || d] on a string that may be [undefined]. *)
Definition or_default (x : option jsstring) (d : jsstring) : jsstring :=
  if missing x then d else String_ x.

Definition chat_url : jsstring :=
  lit "https://api.deepseek.com/chat/completions".

Definition system_content : jsstring :=
  lit "You are a helpful AI assistant. Answer questions concisely and accurately. Add emojis to your answers to make them more engaging.".

Definition something_went_wrong : jsstring := lit "Something went wrong".

(** The value handed to [JSON.stringify]. *)
Definition chat_body (model requestMessage : jsstring) : JSValue :=
  JObject
    [(lit "model", JString model);
     (lit "messages",
      JArray
        [JObject [(lit "role", JString (lit "system"));
                  (lit "content", JString system_content)];
         JObject [(lit "role", JString (lit "user"));
                  (lit "content", JString requestMessage)]])].

(** The request of [getAIResponse]. *)
Definition chat_request (requestMessage : jsstring) (env : option Env)
  : Request :=
  let apiKey :=
    or_default (env_get OPENAI_API_KEY env) (lit "your-api-key-here") in
  let model := or_default (env_get OPENAI_MODEL env) (lit "deepseek-chat") in
  mkRequest chat_url (lit "POST")
    [(lit "Content-Type", lit "application/json");
     (lit "Authorization", lit "Bearer " ++ apiKey)]
    (chat_body model requestMessage).

(** [v[0]] on a value built by [JSON.parse], or [undefined]: the first
    element of an array, the first code unit of a string, the member [0]
    of an object, and a [TypeError] on [null] and [undefined]. *)
Definition index0 (v : option JSValue) : completion (option JSValue) :=
  match v with
  | None => Throw TypeError
  | Some JNull => Throw TypeError
  | Some (JString (c :: _)) => Normal (Some (JString [c]))
  | Some (JArray (x :: _)) => Normal (Some x)
  | Some (JObject fields) => Normal (get_own (lit "0") fields)
  | Some _ => Normal None
  end.

(** [v?.name] for a name that none of the built-in prototypes defines:
    [undefined] on [null] and [undefined], an own property of an object,
    [undefined] on the other values. *)
Definition optional_property (v : option JSValue) (name : jsstring)
  : option JSValue :=
  match v with
  | Some (JObject fields) => get_own name fields
  | _ => None
  end.

Section WithNumbers.

Variable rounds_to_zero : JNum -> bool.

(** [x || 'Something went wrong'] *)
Definition or_wrong (x : option JSValue) : JSValue :=
  match x with
  | Some v => if truthy rounds_to_zero x then v
              else JString something_went_wrong
  | None => JString something_went_wrong
  end.

(** [AIService.getAIResponse].  The status that the thrown error prints
    is not part of a [FetchResult]; the error is only logged. *)
Definition getAIResponse (requestMessage : jsstring) (env : option Env)
    (host : Host) : Eff JSValue :=
  try_catch
    (response <~ do_fetch host (chat_request requestMessage env);
     if negb (fst response) then
       throw (lit "Error: API request failed")
     else
       data <~ lift (JSON_parse (snd response));
       choices <~ lift (get_property data (lit "choices"));
       first <~ lift (index0 choices);
       ret (or_wrong
              (optional_property (optional_property first (lit "message"))
                                 (lit "content"))))
    (fun error =>
       do emit (EvError (lit "Error getting AI response:"));
       ret (JString something_went_wrong)).

(** The reply that the happy path reads: [data.choices[0].message.content]. *)
Definition content_of (data : JSValue) : option JSValue :=
  match get_property data (lit "choices") with
  | Normal choices =>
      match index0 choices with
      | Normal first =>
          optional_property (optional_property first (lit "message"))
                            (lit "content")
      | Throw _ => None
      end
  | Throw _ => None
  end.

Lemma or_wrong_truthy x : truthy rounds_to_zero (Some (or_wrong x)) = true.
Proof.
  unfold or_wrong. destruct x as [v|]; [|reflexivity].
  destruct (truthy rounds_to_zero (Some v)) eqn:E; [exact E | reflexivity].
Qed.

Lemma getAIResponse_eq requestMessage env host :
  getAIResponse requestMessage env host =
  let req := chat_request requestMessage env in
  let wrong := ([EvFetch req; EvError (lit "Error getting AI response:")],
                Normal (JString something_went_wrong)) in
  match fetch host req with
  | NetworkError => wrong
  | Response false _ => wrong
  | Response true body =>
      match JSON_parse body with
      | Throw _ => wrong
      | Normal data =>
          match get_property data (lit "choices") with
          | Throw _ => wrong
          | Normal choices =>
              match index0 choices with
              | Throw _ => wrong
              | Normal first =>
                  ([EvFetch req],
                   Normal (or_wrong
                     (optional_property
                        (optional_property first (lit "message"))
                        (lit "content"))))
              end
          end
      end
  end.
Proof.
  unfold getAIResponse, do_fetch. cbv zeta.
  destruct (fetch host (chat_request requestMessage env)) as [|ok body];
    [reflexivity|].
  destruct ok; [|reflexivity].
  cbn [bind emit ret fst snd negb try_catch app lift throw].
  destruct (JSON_parse body) as [data|e]; [|reflexivity].
  cbn [bind emit ret fst snd negb try_catch app lift throw].
  destruct (get_property data (lit "choices")) as [choices|e]; [|reflexivity].
  cbn [bind emit ret fst snd negb try_catch app lift throw].
  destruct (index0 choices) as [first|e]; reflexivity.
Qed.

(** [getAIResponse] never throws and never answers with a falsy value:
    whatever the environment and the network, it sends exactly one
    request, the chat completion with the key as bearer token, and
    returns a value that [if (res)] accepts. *)
Theorem getAIResponse_total requestMessage env host :
  exists v,
    result_of (getAIResponse requestMessage env host) = Normal v /\
    truthy rounds_to_zero (Some v) = true /\
    sent (trace_of (getAIResponse requestMessage env host)) =
      [chat_request requestMessage env].
Proof.
  rewrite getAIResponse_eq. cbv zeta.
  destruct (fetch host (chat_request requestMessage env)) as [|ok body].
  { eexists. repeat split. }
  destruct ok; [|eexists; repeat split].
  destruct (JSON_parse body) as [data|e]; [|eexists; repeat split].
  destruct (get_property data (lit "choices")) as [choices|e];
    [|eexists; repeat split].
  destruct (index0 choices) as [first|e]; [|eexists; repeat split].
  eexists. split; [reflexivity|]. split; [apply or_wrong_truthy|reflexivity].
Qed.

(** When the request fails, the status is not ok, or the body is not
    JSON, [getAIResponse] logs one error and answers
    ['Something went wrong']. *)
Theorem getAIResponse_failure requestMessage env host :
  match fetch host (chat_request requestMessage env) with
  | NetworkError => True
  | Response false _ => True
  | Response true body => exists e, JSON_parse body = Throw e
  end ->
  getAIResponse requestMessage env host =
    ([EvFetch (chat_request requestMessage env);
      EvError (lit "Error getting AI response:")],
     Normal (JString something_went_wrong)).
Proof.
  intros H. rewrite getAIResponse_eq. cbv zeta.
  destruct (fetch host (chat_request requestMessage env)) as [|ok body];
    [reflexivity|].
  destruct ok; [|reflexivity].
  destruct H as [e ->]. reflexivity.
Qed.

(** When the answer is ok and its body is a JSON object whose first
    choice has a message with a non-empty string as content,
    [getAIResponse] returns that string and logs nothing. *)
Theorem getAIResponse_content requestMessage env host body fields rest
    choice message c r :
  fetch host (chat_request requestMessage env) = Response true body ->
  JSON_parse body = Normal (JObject fields) ->
  get_own (lit "choices") fields = Some (JArray (JObject choice :: rest)) ->
  get_own (lit "message") choice = Some (JObject message) ->
  get_own (lit "content") message = Some (JString (c :: r)) ->
  getAIResponse requestMessage env host =
    ([EvFetch (chat_request requestMessage env)], Normal (JString (c :: r))).
Proof.
  intros Hf Hp Hc Hm Ht. rewrite getAIResponse_eq. cbv zeta.
  rewrite Hf, Hp. cbn [get_property]. rewrite Hc. cbn [index0].
  cbn [optional_property]. rewrite Hm. cbn [optional_property].
  rewrite Ht. reflexivity.
Qed.

(** A reply without a usable content (no choice, no [message], an empty
    string, [null], ...) is answered with ['Something went wrong'] too:
    from the value it gets, the caller cannot tell it from a failure. *)
Theorem getAIResponse_no_content requestMessage env host body data :
  fetch host (chat_request requestMessage env) = Response true body ->
  JSON_parse body = Normal data ->
  truthy rounds_to_zero (content_of data) = false ->
  result_of (getAIResponse requestMessage env host) =
    Normal (JString something_went_wrong).
Proof.
  intros Hf Hp Ht. rewrite getAIResponse_eq. cbv zeta.
  rewrite Hf, Hp. unfold content_of in Ht.
  destruct (get_property data (lit "choices")) as [choices|e]; [|reflexivity].
  destruct (index0 choices) as [first|e]; [|reflexivity].
  cbn [result_of snd]. unfold or_wrong.
  destruct (optional_property (optional_property first (lit "message"))
              (lit "content")) as [v|]; [|reflexivity].
  rewrite Ht. reflexivity.
Qed.

End WithNumbers.

Definition host_down : Host := mkHost 0 [] (fun _ => NetworkError).

Definition host_chat : Host :=
  mkHost 0 []
    (fun _ => Response true
       (litq "{'choices':[{'index':0,'message':{'role':'assistant','content':'hi'}}]}")).

Definition host_silent : Host :=
  mkHost 0 [] (fun _ => Response true (litq "{'choices':[]}")).

Lemma getAIResponse_failure_witness :
  getAIResponse (fun _ => false) (lit "q") None host_down =
    ([EvFetch (chat_request (lit "q") None);
      EvError (lit "Error getting AI response:")],
     Normal (JString something_went_wrong)).
Proof.
  apply (@getAIResponse_failure (fun _ => false) (lit "q") None host_down).
  vm_compute. exact I.
Defined.

Lemma getAIResponse_content_witness :
  getAIResponse (fun _ => false) (lit "q") None host_chat =
    ([EvFetch (chat_request (lit "q") None)], Normal (JString (lit "hi"))).
Proof.
  eapply (@getAIResponse_content (fun _ => false) (lit "q") None host_chat).
  - vm_compute. reflexivity.
  - vm_compute. reflexivity.
  - vm_compute. reflexivity.
  - vm_compute. reflexivity.
  - vm_compute. reflexivity.
Defined.

Lemma getAIResponse_no_content_witness :
  result_of (getAIResponse (fun _ => false) (lit "q") None host_silent) =
    Normal (JString something_went_wrong).
Proof.
  eapply (@getAIResponse_no_content (fun _ => false) (lit "q") None
            host_silent).
  - vm_compute. reflexivity.
  - vm_compute. reflexivity.
  - vm_compute. reflexivity.
Defined.

End AIService.
